(** * A k-d tree with nearest-neighbour search (package [kdtree])

    Shallow embedding of [kdtree.go]: the point-distance primitive [Sqd],
    the bounding box [HyperRect] with its deep [Copy], the recursive
    median-split builder [New] (closure [nk2]) and the branch-and-bound
    search [Nearest] (function [nn]).

    Numbers.  A Go [float64] coordinate is modelled by a rational number:
    every finite float64 is one, and arithmetic is taken exact (no rounding,
    no overflow, no NaN).  The only non-finite value the program creates
    itself is [math.Inf(1)]; it flows into the distance bound and the
    distance result only, which therefore range over [dist].  A square that
    overflows to [+Inf] or underflows to zero in the program is finite and
    non-zero here.  Whether a search yields a point, and whether a zero
    distance means equal points, rest on that difference: such statements
    are made only for what a call returns or for coordinates in a range
    where no square overflows.

    Failure.  Indexing a slice out of range panics in Go; the model returns
    [Panic].  [OutOfFuel] is the recursion budget of [nk2] running out; it
    never happens when the sorting routine keeps the length of the slice. *)

From Stdlib Require Import QArith Lqa List Permutation Sorted Bool Arith Lia.
Import ListNotations.

Close Scope Q_scope.

(** ** Outcomes of fallible code *)

Inductive result (A : Type) : Type :=
| Ok (a : A)
| Panic
| OutOfFuel.

Arguments Ok {A} a.
Arguments Panic {A}.
Arguments OutOfFuel {A}.

Definition bind {A B : Type} (r : result A) (k : A -> result B) : result B :=
  match r with
  | Ok a => k a
  | Panic => Panic
  | OutOfFuel => OutOfFuel
  end.

Notation "'let*' x ':=' e 'in' k" := (bind e (fun x => k))
  (at level 10, x name, e at level 100, k at level 200).
Notation "'let*' ' p ':=' e 'in' k" := (bind e (fun x => match x with p => k end))
  (at level 10, p pattern, e at level 100, k at level 200).

(** [l[i]]: a run-time panic when [i] is out of range. *)
Definition index {A : Type} (l : list A) (i : nat) : result A :=
  match nth_error l i with
  | Some a => Ok a
  | None => Panic
  end.

(** ** Numbers *)

Abbreviation float64 := Q (only parsing).

(** A squared distance or a bound on one: a finite number or [math.Inf(1)]. *)
Inductive dist : Type :=
| Fin (d : float64)
| Inf.

(** [a < b] on finite numbers. *)
Definition Qltb (a b : Q) : bool := negb (Qle_bool b a).

(** [a < b] where either side may be [+Inf]. *)
Definition dist_ltb (a b : dist) : bool :=
  match a, b with
  | Fin x, Fin y => Qltb x y
  | Fin _, Inf => true
  | Inf, _ => false
  end.

(** ** Points *)

(** [type Point []float64]. *)
Definition Point : Type := list float64.

(** The loop of [Sqd]: [p] is what remains of the range, [dim] its index. *)
Fixpoint Sqd_from (p : Point) (dim : nat) (q : Point) (sum : float64) : result float64 :=
  match p with
  | [] => Ok sum
  | pCoord :: p' =>
      let* qCoord := index q dim in
      let d := (pCoord - qCoord)%Q in
      Sqd_from p' (S dim) q (sum + d * d)%Q
  end.

(** [func (p Point) Sqd(q Point) float64]. *)
Definition Sqd (p q : Point) : result float64 := Sqd_from p 0 q 0%Q.

(** [p[i] = v] on a slice held by value: the updated contents. *)
Fixpoint assign (p : Point) (i : nat) (v : float64) : result Point :=
  match p, i with
  | [], _ => Panic
  | _ :: t, O => Ok (v :: t)
  | h :: t, S i' => let* t' := assign t i' v in Ok (h :: t')
  end.

(** ** Bounding boxes *)

Record HyperRect : Type := { Min : Point; Max : Point }.

(** [func (hr HyperRect) Copy() HyperRect]. *)
Definition Copy (hr : HyperRect) : HyperRect :=
  {| Min := [] ++ Min hr; Max := [] ++ Max hr |}.

(** ** Trees *)

(** [*kdNode]: the nil pointer or a node. *)
Inductive kdNode : Type :=
| nilNode
| Node (domElt : Point) (split : nat) (left_ right_ : kdNode).

Record KdTree : Type := { n : kdNode; Bounds : HyperRect }.

(** ** Construction *)

Section Builder.

(** [sort dPart pts] is the contents of the slice [pts] after
    [sort.Sort(part{pts, dPart})].  The routine belongs to Go's library;
    what the builder relies on is stated in [sort_contract] below. *)
Variable sort : nat -> list Point -> list Point.

(** The loop [for m+1 < len(exset) && exset[m+1][split] == d[split] { m++ }];
    [rest] is [exset[m+1:]]. *)
Fixpoint advance (rest : list Point) (split : nat) (d : Point) (m : nat) : result nat :=
  match rest with
  | [] => Ok m
  | next :: rest' =>
      let* v := index next split in
      let* dv := index d split in
      if Qeq_bool v dv then advance rest' split d (S m) else Ok m
  end.

(** [sort.Sort] calls [Less] on every element of a slice of two or more
    elements, and [Less] indexes both points at [dPart]. *)
Definition Less_defined (dPart : nat) (pts : list Point) : bool :=
  (length pts <? 2) || forallb (fun p => dPart <? length p) pts.

(** The closure [nk2].  The slice is sorted in place and the two recursive
    calls work on sub-slices of it, so the function also returns the final
    contents of [exset]. *)
Fixpoint nk2 (fuel : nat) (exset : list Point) (split : nat)
  : result (kdNode * list Point) :=
  match exset with
  | [] => Ok (nilNode, [])
  | _ :: _ =>
      match fuel with
      | O => OutOfFuel
      | S fuel' =>
          if negb (Less_defined split exset) then Panic else
          let exset := sort split exset in
          let m := length exset / 2 in
          let* d := index exset m in
          let* m := advance (skipn (m + 1) exset) split d m in
          let s2 := split + 1 in
          let s2 := if s2 =? length d then 0 else s2 in
          let* '(l, lpts) := nk2 fuel' (firstn m exset) s2 in
          let* '(r, rpts) := nk2 fuel' (skipn (m + 1) exset) s2 in
          Ok (Node d split l r, lpts ++ firstn 1 (skipn m exset) ++ rpts)
      end
  end.

(** [func New(pts []Point, bounds HyperRect) KdTree], together with the
    contents of the caller's slice [pts] when it returns. *)
Definition New (pts : list Point) (bounds : HyperRect) : result (KdTree * list Point) :=
  let* '(root, pts') := nk2 (length pts) pts 0 in
  Ok ({| n := root; Bounds := bounds |}, pts').

End Builder.

(** ** Search *)

(** [func nn(kd *kdNode, target Point, hr HyperRect, maxDistSqd float64)]. *)
Fixpoint nn (kd : kdNode) (target : Point) (hr : HyperRect) (maxDistSqd : dist)
  : result (option Point * dist * nat) :=
  match kd with
  | nilNode => Ok (None, Inf, 0)
  | Node pivot s left_ right_ =>
      let nodesVisited := 1 in
      let leftHr := Copy hr in
      let rightHr := Copy hr in
      let* ps := index pivot s in
      let* leftMax := assign (Max leftHr) s ps in
      let leftHr := {| Min := Min leftHr; Max := leftMax |} in
      let* rightMin := assign (Min rightHr) s ps in
      let rightHr := {| Min := rightMin; Max := Max rightHr |} in
      let* ts := index target s in
      let targetInLeft := Qle_bool ts ps in
      let nearerKd := if targetInLeft then left_ else right_ in
      let nearerHr := if targetInLeft then leftHr else rightHr in
      let furtherKd := if targetInLeft then right_ else left_ in
      let furtherHr := if targetInLeft then rightHr else leftHr in
      let* '(nearest, distSqd, nv) := nn nearerKd target nearerHr maxDistSqd in
      let nodesVisited := nodesVisited + nv in
      let maxDistSqd := if dist_ltb distSqd maxDistSqd then distSqd else maxDistSqd in
      let d := (ps - ts)%Q in
      let d := (d * d)%Q in
      if dist_ltb maxDistSqd (Fin d) then Ok (nearest, distSqd, nodesVisited) else
      let* d := Sqd pivot target in
      let closer := dist_ltb (Fin d) distSqd in
      let nearest := if closer then Some pivot else nearest in
      let distSqd := if closer then Fin d else distSqd in
      let maxDistSqd := if closer then distSqd else maxDistSqd in
      let* '(tempNearest, tempSqd, nv) := nn furtherKd target furtherHr maxDistSqd in
      let nodesVisited := nodesVisited + nv in
      if dist_ltb tempSqd distSqd
      then Ok (tempNearest, tempSqd, nodesVisited)
      else Ok (nearest, distSqd, nodesVisited)
  end.

(** [func (t KdTree) Nearest(p Point)]. *)
Definition Nearest (t : KdTree) (p : Point) : result (option Point * dist * nat) :=
  nn (n t) p (Bounds t) Inf.

(** ** Insertion sort

    [sort.Sort] sorts a slice of at most six elements (at most twelve in
    recent releases) by straight insertion: each element moves left while it
    is [Less] than its predecessor, so equal keys keep their order.
    [insertionSort] is that routine on lists: [insert] puts an element in
    front of the first one it is less than, which in a sorted prefix is the
    place where the leftward walk stops.  It is the instance at which the
    parametric results are evaluated. *)

Definition key (dPart : nat) (p : Point) : float64 := nth dPart p 0%Q.

Fixpoint insert (dPart : nat) (x : Point) (sorted : list Point) : list Point :=
  match sorted with
  | [] => [x]
  | y :: rest =>
      if Qltb (key dPart x) (key dPart y) then x :: y :: rest
      else y :: insert dPart x rest
  end.

Definition insertionSort (dPart : nat) (pts : list Point) : list Point :=
  fold_left (fun acc x => insert dPart x acc) pts [].

(** ** The search under reference semantics

    A Go slice is a view of a backing array, and [nn] stores through
    [leftHr.Max] and [rightHr.Min].  Here every [float64] cell of every
    backing array lives in one memory, a slice is an offset and a length
    into it, and [nn] threads the memory.  Two slices may overlap or
    coincide. *)

Module Ref.

Definition mem : Type := list float64.

(** A slice header.  The capacity plays no part: the only [append] of the
    program appends onto the empty [Point{}] and so always allocates. *)
Record slice : Type := { ptr : nat; len : nat }.

Record HyperRect : Type := { Min : slice; Max : slice }.

Inductive kdNode : Type :=
| nilNode
| Node (domElt : slice) (split : nat) (left_ right_ : kdNode).

Record KdTree : Type := { n : kdNode; Bounds : HyperRect }.

(** Computations that read and write the memory and may panic. *)
Definition M (A : Type) : Type := mem -> result (A * mem).

Definition ret {A : Type} (a : A) : M A := fun m => Ok (a, m).

Definition mbind {A B : Type} (c : M A) (k : A -> M B) : M B :=
  fun m => match c m with
           | Ok (a, m') => k a m'
           | Panic => Panic
           | OutOfFuel => OutOfFuel
           end.

Notation "'let!' x ':=' e 'in' k" := (mbind e (fun x => k))
  (at level 10, x name, e at level 100, k at level 200).
Notation "'let!' ' p ':=' e 'in' k" := (mbind e (fun x => match x with p => k end))
  (at level 10, p pattern, e at level 100, k at level 200).

(** The contents of a slice. *)
Definition read (p : slice) (m : mem) : Point := firstn (len p) (skipn (ptr p) m).

(** [p[i]] as an expression. *)
Definition load (p : slice) (i : nat) : M float64 :=
  fun m => if i <? len p
           then let* v := index m (ptr p + i) in Ok (v, m)
           else Panic.

(** Cell [a] of the memory overwritten with [v]. *)
Fixpoint poke (m : mem) (a : nat) (v : float64) : mem :=
  match m, a with
  | [], _ => []
  | _ :: t, O => v :: t
  | h :: t, S a' => h :: poke t a' v
  end.

(** [p[i] = v]. *)
Definition store (p : slice) (i : nat) (v : float64) : M unit :=
  fun m => if (i <? len p) && (ptr p + i <? length m)
           then Ok (tt, poke m (ptr p + i) v)
           else Panic.

(** [append(Point{}, p...)]: a new backing array holding the contents of [p]. *)
Definition appendCopy (p : slice) : M slice :=
  fun m => Ok ({| ptr := length m; len := len p |}, m ++ read p m).

(** [func (hr HyperRect) Copy() HyperRect]. *)
Definition Copy (hr : HyperRect) : M HyperRect :=
  let! mn := appendCopy (Min hr) in
  let! mx := appendCopy (Max hr) in
  ret {| Min := mn; Max := mx |}.

(** The loop of [Sqd]; [todo] counts the iterations that remain. *)
Fixpoint Sqd_from (todo dim : nat) (p q : slice) (sum : float64) : M float64 :=
  match todo with
  | O => ret sum
  | S todo' =>
      let! pCoord := load p dim in
      let! qCoord := load q dim in
      let d := (pCoord - qCoord)%Q in
      Sqd_from todo' (S dim) p q (sum + d * d)%Q
  end.

Definition Sqd (p q : slice) : M float64 := Sqd_from (len p) 0 p q 0%Q.

Fixpoint nn (kd : kdNode) (target : slice) (hr : HyperRect) (maxDistSqd : dist)
  : M (option slice * dist * nat) :=
  match kd with
  | nilNode => ret (None, Inf, 0)
  | Node pivot s left_ right_ =>
      let nodesVisited := 1 in
      let! leftHr := Copy hr in
      let! rightHr := Copy hr in
      let! v := load pivot s in
      let! _ := store (Max leftHr) s v in
      let! v := load pivot s in
      let! _ := store (Min rightHr) s v in
      let! ts := load target s in
      let! ps := load pivot s in
      let targetInLeft := Qle_bool ts ps in
      let nearerKd := if targetInLeft then left_ else right_ in
      let nearerHr := if targetInLeft then leftHr else rightHr in
      let furtherKd := if targetInLeft then right_ else left_ in
      let furtherHr := if targetInLeft then rightHr else leftHr in
      let! '(nearest, distSqd, nv) := nn nearerKd target nearerHr maxDistSqd in
      let nodesVisited := nodesVisited + nv in
      let maxDistSqd := if dist_ltb distSqd maxDistSqd then distSqd else maxDistSqd in
      let! ps := load pivot s in
      let! ts := load target s in
      let d := (ps - ts)%Q in
      let d := (d * d)%Q in
      if dist_ltb maxDistSqd (Fin d) then ret (nearest, distSqd, nodesVisited) else
      let! d := Sqd pivot target in
      let closer := dist_ltb (Fin d) distSqd in
      let nearest := if closer then Some pivot else nearest in
      let distSqd := if closer then Fin d else distSqd in
      let maxDistSqd := if closer then distSqd else maxDistSqd in
      let! '(tempNearest, tempSqd, nv) := nn furtherKd target furtherHr maxDistSqd in
      let nodesVisited := nodesVisited + nv in
      if dist_ltb tempSqd distSqd
      then ret (tempNearest, tempSqd, nodesVisited)
      else ret (nearest, distSqd, nodesVisited)
  end.

Definition Nearest (t : KdTree) (p : slice) : M (option slice * dist * nat) :=
  nn (n t) p (Bounds t) Inf.

(** A slice lies within the memory. *)
Definition valid (m : mem) (p : slice) : Prop := ptr p + len p <= length m.

Definition valid_box (m : mem) (hr : HyperRect) : Prop :=
  valid m (Min hr) /\ valid m (Max hr).

(** [c] keeps the cells below [base]: started from a memory of at least
    [base] cells, when it returns the memory has not shrunk, its first
    [base] cells hold what they held, and the result satisfies [Q]. *)
Definition keeps {A : Type} (base : nat) (c : M A) (Q : A -> Prop) : Prop :=
  forall (m : mem) (a : A) (m' : mem),
    base <= length m -> c m = Ok (a, m') ->
    length m <= length m' /\ firstn base m' = firstn base m /\ Q a.

(** A box whose two corners were allocated at or after [base]. *)
Definition fresh_box (base : nat) (hr : HyperRect) : Prop :=
  base <= ptr (Min hr) /\ base <= ptr (Max hr).

Fixpoint valid_tree (m : mem) (kd : kdNode) : Prop :=
  match kd with
  | nilNode => True
  | Node p _ l r => valid m p /\ valid_tree m l /\ valid_tree m r
  end.

End Ref.

(** The values a memory gives to a box, to a tree and to a search result. *)
Definition box_of (m : Ref.mem) (hr : Ref.HyperRect) : HyperRect :=
  {| Min := Ref.read (Ref.Min hr) m; Max := Ref.read (Ref.Max hr) m |}.

Fixpoint tree_of (m : Ref.mem) (kd : Ref.kdNode) : kdNode :=
  match kd with
  | Ref.nilNode => nilNode
  | Ref.Node p s l r => Node (Ref.read p m) s (tree_of m l) (tree_of m r)
  end.

Definition answer_of (m : Ref.mem) (a : option Ref.slice * dist * nat)
  : option Point * dist * nat :=
  let '(nearest, distSqd, nv) := a in
  (option_map (fun p => Ref.read p m) nearest, distSqd, nv).

(** The outcome of a computation that only reads the memory [m]. *)
Definition reading {A : Type} (r : result A) (m : Ref.mem) : result (A * Ref.mem) :=
  match r with
  | Ok a => Ok (a, m)
  | Panic => Panic
  | OutOfFuel => OutOfFuel
  end.

(** The memory [m'] is [m] followed by newer cells. *)
Definition extends (m m' : Ref.mem) : Prop := exists fresh, m' = m ++ fresh.

(** The slices a tree stores. *)
Fixpoint pivots (kd : Ref.kdNode) : list Ref.slice :=
  match kd with
  | Ref.nilNode => []
  | Ref.Node p _ l r => p :: pivots l ++ pivots r
  end.

(** The outcome [r] of the search of [kd] under reference semantics, started
    in the memory [m], is the outcome [v] of the search on the values [m]
    holds; the slice it answers is one the tree stores. *)
Definition agrees (m : Ref.mem) (kd : Ref.kdNode)
    (r : result (option Ref.slice * dist * nat * Ref.mem))
    (v : result (option Point * dist * nat)) : Prop :=
  match r with
  | Ok (a, m') =>
      v = Ok (answer_of m a) /\ extends m m' /\
      forall p, fst (fst a) = Some p -> In p (pivots kd)
  | Panic => v = Panic
  | OutOfFuel => False
  end.

(** ** Predicates of the statements *)

(** Build a tree from [pts] and query it at once. *)
Definition query (sort : nat -> list Point -> list Point)
    (pts : list Point) (bounds : HyperRect) (target : Point)
  : result (option Point * dist * nat) :=
  let* '(t, _) := New sort pts bounds in Nearest t target.

(** The points stored in a tree. *)
Fixpoint points (kd : kdNode) : list Point :=
  match kd with
  | nilNode => []
  | Node p _ l r => p :: points l ++ points r
  end.

(** Every stored point has [k] coordinates and every split is one of them. *)
Fixpoint dimensioned (k : nat) (kd : kdNode) : Prop :=
  match kd with
  | nilNode => True
  | Node p s l r => length p = k /\ s < k /\ dimensioned k l /\ dimensioned k r
  end.

(** Both corners of a box have at least [k] coordinates. *)
Definition box_covers (k : nat) (hr : HyperRect) : Prop :=
  k <= length (Min hr) /\ k <= length (Max hr).

(** Two boxes with corners of the same lengths. *)
Definition same_shape (b1 b2 : HyperRect) : Prop :=
  length (Min b1) = length (Min b2) /\ length (Max b1) = length (Max b2).

(** [a <= b] where either side may be [+Inf]. *)
Definition dist_le (a b : dist) : Prop := dist_ltb b a = false.

(** What a search may answer on the tree [kd]: nothing, at distance [+Inf],
    or a stored point together with its squared distance to the target. *)
Definition found (kd : kdNode) (target : Point) (nearest : option Point) (d : dist) : Prop :=
  match nearest with
  | None => d = Inf
  | Some p => In p (points kd) /\ exists v, Sqd p target = Ok v /\ d = Fin v
  end.

(** [p[s] <= q[s]], both coordinates being there. *)
Definition coord_le (s : nat) (p q : Point) : Prop :=
  exists a b, nth_error p s = Some a /\ nth_error q s = Some b /\ (a <= b)%Q.

(** A child, when there is one, splits on [(s+1) mod k]. *)
Definition child_split (k s : nat) (child : kdNode) : Prop :=
  match child with
  | nilNode => True
  | Node _ s' _ _ => s' = (s + 1) mod k
  end.

(** The partition invariant. *)
Fixpoint partitioned (k : nat) (kd : kdNode) : Prop :=
  match kd with
  | nilNode => True
  | Node p s l r =>
      Forall (fun q => coord_le s q p) (points l) /\
      Forall (fun q => coord_le s p q) (points r) /\
      child_split k s l /\ child_split k s r /\
      partitioned k l /\ partitioned k r
  end.

(** A slice in the order [sort.Sort] leaves it: no element is [Less] than
    an earlier one. *)
Definition sorted_on (dPart : nat) (pts : list Point) : Prop :=
  StronglySorted (fun p q => (key dPart p <= key dPart q)%Q) pts.

(** What the builder relies on from [sort.Sort]: it permutes the slice, and
    the result is in order when [Less] is defined on every element. *)
Definition sort_contract (sort : nat -> list Point -> list Point) : Prop :=
  forall (dPart : nat) (pts : list Point),
    Permutation (sort dPart pts) pts /\
    (Forall (fun p => dPart < length p) pts -> sorted_on dPart (sort dPart pts)).

(** Every point of the list has [k] coordinates. *)
Definition all_dim (k : nat) (pts : list Point) : Prop :=
  Forall (fun p => length p = k) pts.

(** The split of the root, when there is one. *)
Definition root_split (s : nat) (kd : kdNode) : Prop :=
  match kd with
  | nilNode => True
  | Node _ s' _ _ => s' = s
  end.

(** No two points at different places of the list agree on coordinate [s]. *)
Fixpoint tie_free (s : nat) (l : list Point) : Prop :=
  match l with
  | [] => True
  | x :: rest => Forall (fun y => ~ (key s x == key s y)%Q) rest /\ tie_free s rest
  end.

(** The same as a test. *)
Fixpoint distinct_keys (s : nat) (l : list Point) : bool :=
  match l with
  | [] => true
  | x :: rest =>
      forallb (fun y => negb (Qeq_bool (key s x) (key s y))) rest && distinct_keys s rest
  end.

(** No point of [pts] is strictly closer to the target than [d]. *)
Definition optimal (pts : list Point) (target : Point) (d : dist) : Prop :=
  forall (q : Point) (vq : float64),
    In q pts -> Sqd q target = Ok vq -> dist_ltb (Fin vq) d = false.

(** The reading of "the pivot is always compared": the distance an
    invocation on a node returns is never worse than the pivot's. *)
Definition pivot_always_compared : Prop :=
  forall (pivot : Point) (s : nat) (l r : kdNode) (target : Point) (hr : HyperRect)
         (B : dist) (nearest : option Point) (d : dist) (nv : nat) (vp : float64),
    nn (Node pivot s l r) target hr B = Ok (nearest, d, nv) ->
    Sqd pivot target = Ok vp ->
    dist_le d (Fin vp).

(** The reading of "a dimension mismatch is reported": the query ends
    neither in an answer nor in the panic of an index out of range. *)
Definition mismatch_reported (sort : nat -> list Point -> list Point)
    (pts : list Point) (bounds : HyperRect) (target : Point) : Prop :=
  query sort pts bounds target <> Panic /\
  forall r, query sort pts bounds target <> Ok r.

(** ** Inputs of the examples *)

(** The data of [TestWP2D]. *)
Definition wp_pts : list Point :=
  [[2; 3]; [5; 4]; [9; 6]; [4; 7]; [8; 1]; [7; 2]]%Q.
Definition wp_box : HyperRect := {| Min := [0; 0]%Q; Max := [10; 10]%Q |}.
Definition wp_target : Point := [9; 2]%Q.

(** Another box around the same points. *)
Definition wide_box : HyperRect := {| Min := [-100; -100]%Q; Max := [100; 100]%Q |}.

(** Three points, two of them with the median first coordinate. *)
Definition tie_pts : list Point := [[0; 0]; [1; 0]; [1; 5]]%Q.
Definition tie_target : Point := [1; 5]%Q.

(** A leaf whose splitting plane is farther from the target than the bound
    in force when the search reaches it, and the points it comes from. *)
Definition far_leaf : kdNode := Node [0; 5]%Q 1 nilNode nilNode.
Definition far_pts : list Point := [[0; 5]; [2; 0]]%Q.
Definition far_target : Point := [3; 0]%Q.

(** One point of three coordinates, a box around it and a target of two. *)
Definition pts3 : list Point := [[1; 2; 3]]%Q.
Definition box3 : HyperRect := {| Min := [0; 0; 0]%Q; Max := [10; 10; 10]%Q |}.
Definition target2 : Point := [1; 2]%Q.

(** The tree of the points (7,2), (9,6), (8,1) laid out in a memory that
    also holds the box (0,0)-(10,10) and the target (9,2). *)
Definition ref_mem : Ref.mem := [0; 0; 10; 10; 7; 2; 9; 6; 8; 1; 9; 2]%Q.
Definition ref_box : Ref.HyperRect :=
  {| Ref.Min := {| Ref.ptr := 0; Ref.len := 2 |};
     Ref.Max := {| Ref.ptr := 2; Ref.len := 2 |} |}.
Definition ref_target : Ref.slice := {| Ref.ptr := 10; Ref.len := 2 |}.
Definition ref_tree : Ref.kdNode :=
  Ref.Node {| Ref.ptr := 4; Ref.len := 2 |} 0 Ref.nilNode
    (Ref.Node {| Ref.ptr := 6; Ref.len := 2 |} 1
       (Ref.Node {| Ref.ptr := 8; Ref.len := 2 |} 0 Ref.nilNode Ref.nilNode)
       Ref.nilNode).

(** Two points whose order the first sort exchanges. *)
Definition swap_pts : list Point := [[2]; [1]]%Q.
Definition unit_box : HyperRect := {| Min := [0]%Q; Max := [10]%Q |}.

(** ** The sort container [part]

    [part] holds the slice to sort and the dimension used as the key; its
    three methods are what [sort.Sort] drives.  The slice header is held by
    value and shares its backing array with the caller's slice, so [Swap]
    returns the contents of the slice afterwards. *)

Record part : Type := { pts : list Point; dPart : nat }.

(** [l[i] = v] on a slice of points: the updated contents. *)
Fixpoint put (l : list Point) (i : nat) (v : Point) : result (list Point) :=
  match l, i with
  | [], _ => Panic
  | _ :: t, O => Ok (v :: t)
  | h :: t, S i' => let* t' := put t i' v in Ok (h :: t')
  end.

(** [func (p part) Len() int]. *)
Definition Len (p : part) : nat := length (pts p).

(** [func (p part) Less(i, j int) bool]. *)
Definition Less (p : part) (i j : nat) : result bool :=
  let* pi := index (pts p) i in
  let* a := index pi (dPart p) in
  let* pj := index (pts p) j in
  let* b := index pj (dPart p) in
  Ok (Qltb a b).

(** [func (p part) Swap(i, j int)]: both right-hand sides are read, then
    both elements are assigned. *)
Definition Swap (p : part) (i j : nat) : result (list Point) :=
  let* pj := index (pts p) j in
  let* pi := index (pts p) i in
  let* l := put (pts p) i pj in
  put l j pi.

(** ** Measures of the statements *)

(** The sum over the common dimensions of [(p[i]-q[i])^2], as a fold. *)
Definition sum_sq (p q : Point) : float64 :=
  fold_left (fun acc ab => (acc + (fst ab - snd ab) * (fst ab - snd ab))%Q)
            (combine p q) 0%Q.

(** The number of nodes on the longest path from the root. *)
Fixpoint height (kd : kdNode) : nat :=
  match kd with
  | nilNode => 0
  | Node _ _ l r => S (Nat.max (height l) (height r))
  end.

(** The chain a slice of [count] equal points is built into: every right
    subtree is absent and the splits cycle from [split]. *)
Fixpoint chain (p : Point) (count split : nat) : kdNode :=
  match count with
  | O => nilNode
  | S count' =>
      Node p split
        (chain p count' (if split + 1 =? length p then 0 else split + 1))
        nilNode
  end.

(** At every node the right subtree holds no more points than the left. *)
Fixpoint left_heavy (kd : kdNode) : Prop :=
  match kd with
  | nilNode => True
  | Node _ _ l r =>
      length (points r) <= length (points l) /\ left_heavy l /\ left_heavy r
  end.

(** [p[s] < q[s]], both coordinates being there. *)
Definition coord_lt (s : nat) (p q : Point) : Prop :=
  exists a b, nth_error p s = Some a /\ nth_error q s = Some b /\ (a < b)%Q.

(** At every node the points of the right subtree lie strictly beyond the
    pivot along the split. *)
Fixpoint right_strict (kd : kdNode) : Prop :=
  match kd with
  | nilNode => True
  | Node p s l r =>
      Forall (fun q => coord_lt s p q) (points r) /\ right_strict l /\ right_strict r
  end.

(** ** The helpers of the tests

    [rand.Float64] draws the next number of the pseudo-random source.  The
    source is a sequence of numbers and the state is the position reached
    in it. *)

Definition Rand (A : Type) : Type := (nat -> float64) -> nat -> result (A * nat).

(** The loop [for d := range p { p[d] = rand.Float64() }] from index [d],
    with [todo] iterations to go. *)
Fixpoint randomPt_loop (todo d : nat) (p : Point) : Rand Point :=
  fun src pos =>
    match todo with
    | O => Ok (p, pos)
    | S todo' =>
        let* p' := assign p d (src pos) in
        randomPt_loop todo' (S d) p' src (S pos)
    end.

(** [func randomPt(dim int) Point]. *)
Definition randomPt (dim : nat) : Rand Point :=
  randomPt_loop dim 0 (repeat 0%Q dim).

(** The loop [for i := range p { p[i] = randomPt(dim) }]. *)
Fixpoint randomPts_loop (dim todo i : nat) (p : list Point) : Rand (list Point) :=
  fun src pos =>
    match todo with
    | O => Ok (p, pos)
    | S todo' =>
        let* '(pt, pos') := randomPt dim src pos in
        let* p' := put p i pt in
        randomPts_loop dim todo' (S i) p' src pos'
    end.

(** [func randomPts(dim, n int) []Point]; [make([]Point, n)] holds [n] nil
    points. *)
Definition randomPts (dim count : nat) : Rand (list Point) :=
  randomPts_loop dim count 0 (repeat [] count).

(** The opening of [TestRandom3D], for any dimension and count: draw the
    points, build the tree, draw the target, search. *)
Definition random_query (sort : nat -> list Point -> list Point)
    (dim count : nat) (bounds : HyperRect)
  : Rand (Point * (option Point * dist * nat)) :=
  fun src pos =>
    let* '(pts, pos1) := randomPts dim count src pos in
    let* '(t, _) := New sort pts bounds in
    let* '(p, pos2) := randomPt dim src pos1 in
    let* r := Nearest t p in
    Ok ((p, r), pos2).

(** Coordinates in the half-open interval [[0, 1)], where [rand.Float64]
    draws them. *)
Definition unit_range (p : Point) : Prop := Forall (fun x => (0 <= x)%Q /\ (x < 1)%Q) p.

(** * Properties *)

(** ** Numbers and slices *)

Lemma Qltb_true (a b : Q) : Qltb a b = true <-> (a < b)%Q.
Proof.
  unfold Qltb. rewrite negb_true_iff, <- not_true_iff_false, Qle_bool_iff.
  split; [apply Qnot_le_lt | apply Qlt_not_le].
Qed.

Lemma Qltb_false (a b : Q) : Qltb a b = false <-> (b <= a)%Q.
Proof.
  unfold Qltb. rewrite negb_false_iff. apply Qle_bool_iff.
Qed.

Lemma Qle_bool_false (a b : Q) : Qle_bool a b = false <-> (b < a)%Q.
Proof.
  rewrite <- not_true_iff_false, Qle_bool_iff.
  split; [apply Qnot_le_lt | apply Qlt_not_le].
Qed.

Lemma index_Ok {A : Type} (l : list A) (i : nat) (a : A) :
  index l i = Ok a <-> nth_error l i = Some a.
Proof.
  unfold index. destruct (nth_error l i); split; congruence.
Qed.

Lemma index_lt {A : Type} (l : list A) (i : nat) :
  i < length l -> exists a, index l i = Ok a.
Proof.
  intros H. unfold index. destruct (nth_error l i) eqn:E; eauto.
  apply nth_error_None in E. lia.
Qed.

Lemma index_ge {A : Type} (l : list A) (i : nat) :
  length l <= i -> index l i = Panic.
Proof.
  intros H. unfold index. apply nth_error_None in H. now rewrite H.
Qed.

Lemma index_key (p : Point) (i : nat) (a : float64) :
  index p i = Ok a -> key i p = a.
Proof.
  rewrite index_Ok. intros H. unfold key. now apply nth_error_nth.
Qed.

Lemma assign_lt (p : Point) (i : nat) (v : float64) :
  i < length p -> exists p', assign p i v = Ok p' /\ length p' = length p.
Proof.
  revert i. induction p as [|h t IH]; intros [|i] H; simpl in *; try lia.
  - exists (v :: t). split; reflexivity.
  - destruct (IH i) as (t' & E & L); [lia|]. rewrite E. simpl.
    exists (h :: t'). split; [reflexivity | simpl; congruence].
Qed.

Lemma assign_ge (p : Point) (i : nat) (v : float64) :
  length p <= i -> assign p i v = Panic.
Proof.
  revert i. induction p as [|h t IH]; intros [|i] H; simpl in *; try lia; auto.
  rewrite IH by lia. reflexivity.
Qed.

Lemma assign_shape (p q : Point) (i : nat) (v : float64) :
  length p = length q ->
  match assign p i v, assign q i v with
  | Ok p', Ok q' => length p' = length q'
  | Panic, Panic => True
  | _, _ => False
  end.
Proof.
  intros L. destruct (Nat.lt_ge_cases i (length p)) as [H|H].
  - destruct (assign_lt p i v H) as (p' & -> & Lp).
    rewrite L in H. destruct (assign_lt q i v H) as (q' & -> & Lq). congruence.
  - rewrite (assign_ge p i v H). rewrite L in H. now rewrite (assign_ge q i v H).
Qed.

Lemma nn_same_shape (kd : kdNode) (target : Point) :
  forall (hr1 hr2 : HyperRect) (B : dist),
    same_shape hr1 hr2 -> nn kd target hr1 B = nn kd target hr2 B.
Proof.
  induction kd as [|pivot s l IHl r IHr]; intros hr1 hr2 B [Hmin Hmax].
  - reflexivity.
  - cbn [nn Copy Min Max app].
    destruct (index pivot s) as [ps| |]; cbn [bind]; try reflexivity.
    pose proof (assign_shape (Max hr1) (Max hr2) s ps Hmax) as Ax.
    pose proof (assign_shape (Min hr1) (Min hr2) s ps Hmin) as An.
    destruct (assign (Max hr1) s ps) as [mx1| |], (assign (Max hr2) s ps) as [mx2| |];
      try contradiction; cbn [bind]; try reflexivity.
    destruct (assign (Min hr1) s ps) as [mn1| |], (assign (Min hr2) s ps) as [mn2| |];
      try contradiction; cbn [bind]; try reflexivity.
    destruct (index target s) as [ts| |]; cbn [bind]; try reflexivity.
    destruct (Qle_bool ts ps).
    + rewrite (IHl {| Min := Min hr1; Max := mx1 |} {| Min := Min hr2; Max := mx2 |} B)
        by (split; assumption).
      destruct (nn l target _ B) as [[[nearest distSqd] nv]| |]; cbn [bind]; try reflexivity.
      destruct (dist_ltb _ (Fin _)); try reflexivity.
      destruct (Sqd pivot target) as [d| |]; cbn [bind]; try reflexivity.
      rewrite (IHr {| Min := mn1; Max := Max hr1 |} {| Min := mn2; Max := Max hr2 |})
        by (split; assumption).
      reflexivity.
    + rewrite (IHr {| Min := mn1; Max := Max hr1 |} {| Min := mn2; Max := Max hr2 |} B)
        by (split; assumption).
      destruct (nn r target _ B) as [[[nearest distSqd] nv]| |]; cbn [bind]; try reflexivity.
      destruct (dist_ltb _ (Fin _)); try reflexivity.
      destruct (Sqd pivot target) as [d| |]; cbn [bind]; try reflexivity.
      rewrite (IHl {| Min := Min hr1; Max := mx1 |} {| Min := Min hr2; Max := mx2 |})
        by (split; assumption).
      reflexivity.
Qed.

Lemma Sqd_from_total (p : Point) :
  forall (dim : nat) (q : Point) (sum : float64),
    dim + length p <= length q -> exists v, Sqd_from p dim q sum = Ok v.
Proof.
  induction p as [|a p IH]; intros dim q sum H; simpl in *.
  - eauto.
  - destruct (index_lt q dim) as (b & ->); [lia|]. cbn [bind].
    apply IH. lia.
Qed.

Lemma Sqd_total (p q : Point) :
  length p <= length q -> exists v, Sqd p q = Ok v.
Proof.
  intros H. apply Sqd_from_total. simpl. exact H.
Qed.

Lemma found_near (pivot : Point) (s : nat) (l r : kdNode) (c : bool)
    (target : Point) (nearest : option Point) (d : dist) :
  found (if c then l else r) target nearest d ->
  found (Node pivot s l r) target nearest d.
Proof.
  unfold found. destruct nearest as [p|]; [|tauto].
  intros [Hin Hv]. split; [|exact Hv].
  simpl. right. apply in_or_app. destruct c; auto.
Qed.

Lemma found_pivot (pivot : Point) (s : nat) (l r : kdNode) (target : Point) (v : float64) :
  Sqd pivot target = Ok v -> found (Node pivot s l r) target (Some pivot) (Fin v).
Proof.
  intros H. split; [simpl; auto | eauto].
Qed.

Lemma found_Inf (kd : kdNode) (target : Point) (nearest : option Point) (d : dist) :
  found kd target nearest d -> d = Inf -> nearest = None.
Proof.
  destruct nearest as [p|]; [|reflexivity].
  intros (_ & v & _ & ->). discriminate.
Qed.

Lemma nn_spec (k : nat) (target : Point) (kd : kdNode) :
  k <= length target ->
  forall (hr : HyperRect) (B : dist),
    dimensioned k kd -> box_covers k hr ->
    exists nearest d nv,
      nn kd target hr B = Ok (nearest, d, nv) /\
      found kd target nearest d /\
      (B = Inf -> kd <> nilNode -> d <> Inf).
Proof.
  intros Ht.
  induction kd as [|pivot s l IHl r IHr]; intros hr B Hd [Hmin Hmax].
  - exists None, Inf, 0. repeat split. congruence.
  - destruct Hd as (Lp & Hs & Dl & Dr).
    destruct (index_lt pivot s) as (ps & Eps); [lia|].
    destruct (index_lt target s) as (ts & Ets); [lia|].
    destruct (assign_lt (Max hr) s ps) as (mx & Emx & Lmx); [lia|].
    destruct (assign_lt (Min hr) s ps) as (mn & Emn & Lmn); [lia|].
    destruct (Sqd_total pivot target) as (vp & Evp); [lia|].
    cbn [nn Copy Min Max app]. rewrite Eps. cbn [bind].
    rewrite Emx. cbn [bind]. rewrite Emn. cbn [bind]. rewrite Ets. cbn [bind].
    set (leftHr := {| Min := Min hr; Max := mx |}).
    set (rightHr := {| Min := mn; Max := Max hr |}).
    assert (Cl : box_covers k leftHr) by (split; simpl; lia).
    assert (Cr : box_covers k rightHr) by (split; simpl; lia).
    set (c := Qle_bool ts ps).
    assert (Near : exists nearest d nv,
               nn (if c then l else r) target (if c then leftHr else rightHr) B
               = Ok (nearest, d, nv) /\ found (if c then l else r) target nearest d).
    { destruct c.
      - destruct (IHl leftHr B Dl Cl) as (a & d & nv & E & F & _); eauto 6.
      - destruct (IHr rightHr B Dr Cr) as (a & d & nv & E & F & _); eauto 6. }
    destruct Near as (n1 & d1 & nv1 & E1 & F1). rewrite E1. cbn [bind].
    destruct (dist_ltb (if dist_ltb d1 B then d1 else B) (Fin _)) eqn:Prune.
    + exists n1, d1, (1 + nv1). split; [reflexivity|]. split.
      * eapply found_near; eauto.
      * intros -> _ ->. simpl in Prune. discriminate.
    + rewrite Evp. cbn [bind].
      set (closer := dist_ltb (Fin vp) d1).
      set (B2 := if closer then if closer then Fin vp else d1
                 else if dist_ltb d1 B then d1 else B).
      assert (Far : exists nearest d nv,
                 nn (if c then r else l) target (if c then rightHr else leftHr) B2
                 = Ok (nearest, d, nv) /\ found (if c then r else l) target nearest d).
      { destruct c.
        - destruct (IHr rightHr B2 Dr Cr) as (a & d & nv & E & F & _); eauto 6.
        - destruct (IHl leftHr B2 Dl Cl) as (a & d & nv & E & F & _); eauto 6. }
      destruct Far as (n2 & d2 & nv2 & E2 & F2). rewrite E2. cbn [bind].
      assert (F3 : found (Node pivot s l r) target
                     (if closer then Some pivot else n1) (if closer then Fin vp else d1)).
      { destruct closer.
        - now apply found_pivot.
        - eapply found_near; eauto. }
      destruct (dist_ltb d2 (if closer then Fin vp else d1)) eqn:Better.
      * exists n2, d2, (1 + nv1 + nv2). split; [reflexivity|]. split.
        -- apply found_near with (c := negb c). destruct c; exact F2.
        -- intros _ _ ->. simpl in Better. discriminate.
      * exists (if closer then Some pivot else n1), (if closer then Fin vp else d1),
          (1 + nv1 + nv2).
        split; [reflexivity|]. split; [exact F3|].
        intros _ _. subst closer. destruct d1 as [x|]; simpl; [destruct (Qltb vp x)|]; congruence.
Qed.

Lemma Qsq_nonneg (x : Q) : (0 <= x * x)%Q.
Proof. nra. Qed.

Lemma Qsq_le (x y : Q) : (0 <= x)%Q -> (x <= y)%Q -> (x * x <= y * y)%Q.
Proof. intros. nra. Qed.

Lemma Sqd_from_ge (p : Point) :
  forall (dim : nat) (q : Point) (sum v : float64),
    Sqd_from p dim q sum = Ok v -> (sum <= v)%Q.
Proof.
  induction p as [|a p IH]; intros dim q sum v H; simpl in H.
  - injection H as ->. lra.
  - destruct (index q dim) as [b| |]; cbn [bind] in H; try discriminate.
    apply IH in H. pose proof (Qsq_nonneg (a - b)). lra.
Qed.

Lemma Sqd_from_coord (p : Point) :
  forall (dim : nat) (q : Point) (sum v : float64) (i : nat) (a b : float64),
    Sqd_from p dim q sum = Ok v ->
    nth_error p i = Some a -> nth_error q (dim + i) = Some b ->
    (sum + (a - b) * (a - b) <= v)%Q.
Proof.
  induction p as [|x p IH]; intros dim q sum v i a b H Ha Hb.
  - destruct i; discriminate.
  - simpl in H. destruct (index q dim) as [y| |] eqn:Ey; cbn [bind] in H; try discriminate.
    destruct i as [|i]; simpl in Ha.
    + injection Ha as ->. rewrite Nat.add_0_r in Hb. apply index_Ok in Ey.
      assert (y = b) by congruence. subst y.
      apply Sqd_from_ge in H. exact H.
    + replace (dim + S i) with (S dim + i) in Hb by lia.
      pose proof (IH _ _ _ _ _ _ _ H Ha Hb). pose proof (Qsq_nonneg (x - y)). lra.
Qed.

Lemma Sqd_ge_plane (q target : Point) (s : nat) (a b v : float64) :
  Sqd q target = Ok v -> nth_error q s = Some a -> nth_error target s = Some b ->
  ((a - b) * (a - b) <= v)%Q.
Proof.
  intros H Ha Hb. pose proof (Sqd_from_coord q 0 target 0%Q v s a b H Ha Hb). lra.
Qed.

Ltac order :=
  repeat match goal with d : dist |- _ => destruct d end;
  cbn [dist_ltb] in *;
  repeat (match goal with
          | H : context [Qltb ?x ?y] |- _ =>
              let E := fresh "E" in
              destruct (Qltb x y) eqn:E; [apply Qltb_true in E | apply Qltb_false in E]
          | |- context [Qltb ?x ?y] =>
              let E := fresh "E" in
              destruct (Qltb x y) eqn:E; [apply Qltb_true in E | apply Qltb_false in E]
          end; cbn [dist_ltb] in *);
  try discriminate; try reflexivity; try (exfalso; lra).

Lemma far_side (s : nat) (pivot target q : Point) (l r : kdNode) (ps ts vq : float64) :
  index pivot s = Ok ps -> index target s = Ok ts ->
  Forall (fun q => coord_le s q pivot) (points l) ->
  Forall (fun q => coord_le s pivot q) (points r) ->
  In q (points (if Qle_bool ts ps then r else l)) ->
  Sqd q target = Ok vq ->
  ((ps - ts) * (ps - ts) <= vq)%Q.
Proof.
  intros Eps Ets Hl Hr Hq Hv. apply index_Ok in Eps, Ets.
  rewrite Forall_forall in Hl, Hr.
  destruct (Qle_bool ts ps) eqn:C.
  - apply Qle_bool_iff in C. destruct (Hr _ Hq) as (a & b & Ha & Hb & Hab).
    assert (a = ps) by congruence. subst a.
    pose proof (Sqd_ge_plane _ _ _ _ _ _ Hv Hb Ets). pose proof (Qsq_le (ps - ts) (b - ts)). lra.
  - apply Qle_bool_false in C. destruct (Hl _ Hq) as (a & b & Ha & Hb & Hab).
    assert (b = ps) by congruence. subst b.
    pose proof (Sqd_ge_plane _ _ _ _ _ _ Hv Ha Ets). pose proof (Qsq_le (ts - ps) (ts - a)). lra.
Qed.

Lemma nn_optimal (target : Point) (k : nat) (kd : kdNode) :
  partitioned k kd ->
  forall (hr : HyperRect) (B : dist) (nearest : option Point) (d : dist) (nv : nat),
    nn kd target hr B = Ok (nearest, d, nv) ->
    forall (q : Point) (vq : float64),
      In q (points kd) -> Sqd q target = Ok vq ->
      dist_ltb (Fin vq) d = true -> dist_ltb B (Fin vq) = true.
Proof.
  induction kd as [|pivot s l IHl r IHr]; intros Hp hr B nearest d nv H q vq Hq Hv Hlt.
  - contradiction.
  - destruct Hp as (Pl & Pr & _ & _ & Hpl & Hpr).
    specialize (IHl Hpl). specialize (IHr Hpr).
    cbn [nn Copy Min Max app] in H.
    destruct (index pivot s) as [ps| |] eqn:Eps; cbn [bind] in H; try discriminate.
    destruct (assign (Max hr) s ps) as [mx| |]; cbn [bind] in H; try discriminate.
    destruct (assign (Min hr) s ps) as [mn| |]; cbn [bind] in H; try discriminate.
    destruct (index target s) as [ts| |] eqn:Ets; cbn [bind] in H; try discriminate.
    pose proof (fun q vq => far_side s pivot target q l r ps ts vq Eps Ets Pl Pr) as Far.
    assert (Hpiv : forall vp, Sqd pivot target = Ok vp -> ((ps - ts) * (ps - ts) <= vp)%Q).
    { intros vp Evp. apply index_Ok in Eps, Ets. exact (Sqd_ge_plane _ _ _ _ _ _ Evp Eps Ets). }
    set (c := Qle_bool ts ps) in *.
    set (leftHr := {| Min := Min hr; Max := mx |}) in *.
    set (rightHr := {| Min := mn; Max := Max hr |}) in *.
    destruct (nn (if c then l else r) target _ B) as [[[n1 d1] nv1]| |] eqn:E1;
      cbn [bind] in H; try discriminate.
    assert (Near : forall q vq, In q (points (if c then l else r)) -> Sqd q target = Ok vq ->
                     dist_ltb (Fin vq) d1 = true -> dist_ltb B (Fin vq) = true).
    { destruct c; [eapply IHl | eapply IHr]; exact E1. }
    assert (Where : q = pivot \/ In q (points (if c then l else r))
                    \/ In q (points (if c then r else l))).
    { simpl in Hq. destruct Hq as [->|Hq]; [auto|]. apply in_app_or in Hq.
      destruct c; tauto. }
    destruct (dist_ltb (if dist_ltb d1 B then d1 else B) (Fin _)) eqn:Prune.
    + injection H as <- <- <-.
      destruct Where as [->|[W|W]].
      * specialize (Hpiv _ Hv). clear Near Far E1 IHl IHr. order.
      * eauto.
      * specialize (Far _ _ W Hv). clear Near E1 IHl IHr. order.
    + destruct (Sqd pivot target) as [vp| |] eqn:Evp; cbn [bind] in H; try discriminate.
      specialize (Hpiv _ eq_refl).
      set (closer := dist_ltb (Fin vp) d1) in *.
      set (B2 := if closer then if closer then Fin vp else d1
                 else if dist_ltb d1 B then d1 else B) in *.
      destruct (nn (if c then r else l) target _ B2) as [[[n2 d2] nv2]| |] eqn:E2;
        cbn [bind] in H; try discriminate.
      assert (Far2 : forall q vq, In q (points (if c then r else l)) -> Sqd q target = Ok vq ->
                     dist_ltb (Fin vq) d2 = true -> dist_ltb B2 (Fin vq) = true).
      { destruct c; [eapply IHr | eapply IHl]; exact E2. }
      assert (Res : d = if dist_ltb d2 (if closer then Fin vp else d1)
                        then d2 else if closer then Fin vp else d1).
      { destruct (dist_ltb d2 _); injection H as <- <- <-; reflexivity. }
      clear H. subst d.
      destruct Where as [->|[W|W]].
      * assert (vq = vp) by congruence. subst vq. subst closer B2.
        clear Near Far Far2 E1 E2 IHl IHr. order.
      * assert (N := Near _ _ W Hv). subst closer B2.
        clear Near Far Far2 E1 E2 IHl IHr.
        destruct (dist_ltb (Fin vq) d1) eqn:X; [auto|]. clear N. order.
      * assert (N := Far2 _ _ W Hv). subst closer B2.
        clear Near Far Far2 E1 E2 IHl IHr.
        destruct (dist_ltb (Fin vq) d2) eqn:X.
        -- specialize (N eq_refl). order.
        -- clear N. order.
Qed.

(** ** The builder *)

Lemma advance_spec (k split : nat) (d : Point) :
  split < k -> length d = k ->
  forall (rest : list Point) (m0 : nat),
    all_dim k rest ->
    exists j, advance rest split d m0 = Ok (m0 + j) /\ j <= length rest /\
              Forall (fun p => (key split p == key split d)%Q) (firstn j rest).
Proof.
  intros Hs Ld. induction rest as [|next rest IH]; intros m0 Hk.
  - exists 0. simpl. rewrite Nat.add_0_r. auto.
  - inversion Hk as [|? ? Ln Hk']; subst.
    destruct (index_lt next split) as (v & Ev); [lia|].
    destruct (index_lt d split) as (dv & Edv); [lia|].
    simpl. rewrite Ev, Edv. cbn [bind].
    destruct (Qeq_bool v dv) eqn:Q.
    + destruct (IH (S m0) Hk') as (j & E & Lj & F).
      exists (S j). rewrite E. split; [f_equal; lia|]. split; [simpl; lia|].
      simpl. constructor; [|exact F].
      apply Qeq_bool_iff in Q. now rewrite (index_key _ _ _ Ev), (index_key _ _ _ Edv).
    + exists 0. rewrite Nat.add_0_r. simpl. auto with arith.
Qed.

Lemma slice_three {A : Type} (l : list A) (m : nat) :
  firstn m l ++ firstn 1 (skipn m l) ++ skipn (m + 1) l = l.
Proof.
  replace (m + 1) with (1 + m) by lia.
  rewrite <- skipn_skipn, firstn_skipn, firstn_skipn. reflexivity.
Qed.

Lemma firstn_cons_in {A : Type} (j : nat) (d : A) (rest : list A) (q : A) :
  In q (firstn j (d :: rest)) -> q = d \/ In q (firstn j rest).
Proof.
  destruct j as [|j]; simpl; [tauto|].
  intros [H|H]; [auto|]. right.
  revert H. generalize rest. clear. induction j as [|j IH]; intros [|x r]; simpl; try tauto.
  intros [H|H]; auto.
Qed.

Lemma coord_le_key (k s : nat) (p q : Point) :
  s < k -> length p = k -> length q = k ->
  (key s p <= key s q)%Q -> coord_le s p q.
Proof.
  intros Hs Lp Lq H.
  destruct (index_lt p s) as (a & Ea); [lia|].
  destruct (index_lt q s) as (b & Eb); [lia|].
  exists a, b. split; [now apply index_Ok|]. split; [now apply index_Ok|].
  rewrite <- (index_key _ _ _ Ea), <- (index_key _ _ _ Eb). exact H.
Qed.

Lemma Less_defined_dim (k split : nat) (exset : list Point) :
  split < k -> all_dim k exset -> Less_defined split exset = true.
Proof.
  intros Hs Hk. unfold Less_defined. apply orb_true_iff. right.
  apply forallb_forall. intros p Hp.
  unfold all_dim in Hk. rewrite Forall_forall in Hk.
  apply Nat.ltb_lt. rewrite (Hk p Hp). exact Hs.
Qed.

Lemma next_split (k split : nat) :
  split < k ->
  (if split + 1 =? k then 0 else split + 1) = (split + 1) mod k /\
  (split + 1) mod k < k.
Proof.
  intros H. destruct (split + 1 =? k) eqn:E.
  - apply Nat.eqb_eq in E. rewrite E. rewrite Nat.Div0.mod_same. lia.
  - apply Nat.eqb_neq in E. rewrite Nat.mod_small by lia. lia.
Qed.

Lemma In_firstn {A : Type} (n : nat) (l : list A) (q : A) :
  In q (firstn n l) -> In q l.
Proof.
  intros H. rewrite <- (firstn_skipn n l). apply in_or_app. auto.
Qed.

Lemma In_skipn {A : Type} (n : nat) (l : list A) (q : A) :
  In q (skipn n l) -> In q l.
Proof.
  intros H. rewrite <- (firstn_skipn n l). apply in_or_app. auto.
Qed.

Lemma sorted_before (s : nat) (A R : list Point) (d : Point) :
  sorted_on s (A ++ d :: R) ->
  Forall (fun q => (key s q <= key s d)%Q) A /\
  Forall (fun q => (key s d <= key s q)%Q) R.
Proof.
  unfold sorted_on. induction A as [|a A IH]; simpl; intros H.
  - apply StronglySorted_inv in H as [_ H]. auto.
  - apply StronglySorted_inv in H as [H Ha].
    destruct (IH H) as [IA IR]. split; [|exact IR].
    constructor; [|exact IA].
    rewrite Forall_forall in Ha. apply Ha. apply in_elt.
Qed.

Lemma skipn_mid {A : Type} (l1 : list A) (d : A) (l2 : list A) (j : nat) :
  skipn (length l1 + j + 1) (l1 ++ d :: l2) = skipn j l2.
Proof.
  rewrite skipn_app, skipn_all2 by lia.
  replace (length l1 + j + 1 - length l1) with (S j) by lia. reflexivity.
Qed.

Lemma sorted_prefix (s : nat) (l : list Point) (m0 j : nat) (d q : Point) :
  sorted_on s l -> nth_error l m0 = Some d ->
  Forall (fun p => (key s p == key s d)%Q) (firstn j (skipn (m0 + 1) l)) ->
  In q (firstn (m0 + j) l) -> (key s q <= key s d)%Q.
Proof.
  intros Hs Hd Heq Hq.
  apply nth_error_split in Hd as (A & R & -> & <-).
  replace (length A + 1) with (length A + 0 + 1) in Heq by lia.
  rewrite skipn_mid in Heq. simpl in Heq.
  rewrite firstn_app_2 in Hq.
  destruct (sorted_before s A R d Hs) as [HA _].
  apply in_app_or in Hq as [Hq|Hq].
  - rewrite Forall_forall in HA. auto.
  - apply firstn_cons_in in Hq as [->|Hq]; [apply Qle_refl|].
    rewrite Forall_forall in Heq. rewrite (Heq q Hq). apply Qle_refl.
Qed.

Lemma sorted_suffix (s : nat) (l : list Point) (m0 j : nat) (d q : Point) :
  sorted_on s l -> nth_error l m0 = Some d ->
  In q (skipn (m0 + j + 1) l) -> (key s d <= key s q)%Q.
Proof.
  intros Hs Hd Hq.
  apply nth_error_split in Hd as (A & R & -> & <-).
  rewrite skipn_mid in Hq. apply In_skipn in Hq.
  destruct (sorted_before s A R d Hs) as [_ HR].
  rewrite Forall_forall in HR. auto.
Qed.

Lemma all_dim_In (k : nat) (pts : list Point) (p : Point) :
  all_dim k pts -> In p pts -> length p = k.
Proof.
  unfold all_dim. rewrite Forall_forall. auto.
Qed.

Lemma all_dim_incl (k : nat) (pts pts' : list Point) :
  incl pts' pts -> all_dim k pts -> all_dim k pts'.
Proof.
  unfold all_dim. rewrite !Forall_forall. auto.
Qed.

Lemma skipn_cons_nth {A : Type} (l : list A) :
  forall n a, nth_error l n = Some a -> skipn n l = a :: skipn (S n) l.
Proof.
  induction l as [|x l IH]; intros [|n] a H; simpl in *; try discriminate.
  - injection H as ->. reflexivity.
  - now apply IH.
Qed.

Lemma tie_free_perm (s : nat) (l l' : list Point) :
  Permutation l l' -> tie_free s l -> tie_free s l'.
Proof.
  induction 1 as [|x l l' P IH|x y l|l l' l'' P1 IH1 P2 IH2]; simpl; auto.
  - intros [F T]. split; [|auto]. eapply Permutation_Forall; eauto.
  - intros [Fy [Fx T]]. inversion Fy as [|? ? Hyx Fy']; subst.
    repeat split; auto. constructor; [|assumption].
    intros E. apply Hyx. symmetry. exact E.
Qed.

Lemma tie_free_app (s : nat) (a b : list Point) :
  tie_free s (a ++ b) -> tie_free s a /\ tie_free s b.
Proof.
  induction a as [|x a IH]; simpl; [auto|].
  intros [F T]. apply Forall_app in F as [Fa _]. destruct (IH T). auto.
Qed.

Lemma tie_free_firstn (s n : nat) (l : list Point) :
  tie_free s l -> tie_free s (firstn n l).
Proof.
  intros H. rewrite <- (firstn_skipn n l) in H. now apply tie_free_app in H.
Qed.

Lemma tie_free_skipn (s n : nat) (l : list Point) :
  tie_free s l -> tie_free s (skipn n l).
Proof.
  intros H. rewrite <- (firstn_skipn n l) in H. now apply tie_free_app in H.
Qed.

(** Without ties the loop of [nk2] does not move the cut. *)
Lemma tie_free_stays (s : nat) (l : list Point) (m0 j : nat) (d : Point) :
  tie_free s l -> nth_error l m0 = Some d ->
  Forall (fun p => (key s p == key s d)%Q) (firstn j (skipn (m0 + 1) l)) ->
  j <= length l - (m0 + 1) -> j = 0.
Proof.
  intros T Hd Keys Lj. destruct j as [|j]; [reflexivity|]. exfalso.
  apply (tie_free_skipn s m0) in T.
  rewrite (skipn_cons_nth l m0 d Hd) in T. destruct T as [F _].
  replace (m0 + 1) with (S m0) in Keys by lia.
  destruct (skipn (S m0) l) as [|x rest] eqn:E.
  - apply (f_equal (@length _)) in E. rewrite length_skipn in E. simpl in E. lia.
  - simpl in Keys. inversion Keys as [|? ? Kx _]; subst.
    inversion F as [|? ? Kd _]; subst. apply Kd. symmetry. exact Kx.
Qed.

Section BuilderFacts.

Variable sort : nat -> list Point -> list Point.
Hypothesis sort_ok : sort_contract sort.
Variable k : nat.

Lemma nk2_spec :
  forall (fuel : nat) (exset : list Point) (split : nat),
    all_dim k exset -> split < k -> length exset <= fuel ->
    exists kd pts',
      nk2 sort fuel exset split = Ok (kd, pts') /\
      Permutation pts' exset /\
      incl (points kd) exset /\
      dimensioned k kd /\
      partitioned k kd /\
      root_split split kd /\
      (kd = nilNode -> exset = []) /\
      ((forall s, s < k -> tie_free s exset) -> Permutation (points kd) exset).
Proof.
  induction fuel as [|fuel IH]; intros exset split Hd Hs Hf.
  - destruct exset as [|p0 tl]; [|simpl in Hf; lia].
    exists nilNode, []. simpl. repeat split; auto using incl_nil_l.
  - destruct exset as [|p0 tl].
    { exists nilNode, []. simpl. repeat split; auto using incl_nil_l. }
    cbn [nk2]. set (exset := p0 :: tl) in *.
    rewrite (Less_defined_dim k split exset Hs Hd). cbn [negb].
    destruct (sort_ok split exset) as [Perm Srt].
    assert (Hlt : Forall (fun p => split < length p) exset).
    { eapply Forall_impl; [|exact Hd]. simpl. intros; lia. }
    specialize (Srt Hlt).
    set (sorted := sort split exset) in *. clearbody sorted.
    assert (Len : length sorted = length exset) by now apply Permutation_length.
    assert (Inc : incl sorted exset).
    { intros q Hq. eapply Permutation_in; eauto. }
    assert (Ds : all_dim k sorted) by (eapply all_dim_incl; eauto).
    assert (Hm0 : length sorted / 2 < length sorted).
    { apply Nat.div_lt; [|lia]. rewrite Len. simpl. lia. }
    set (m0 := length sorted / 2) in *.
    destruct (index_lt sorted m0 Hm0) as (d & Ed). rewrite Ed. cbn [bind].
    apply index_Ok in Ed.
    assert (Ld : length d = k).
    { eapply all_dim_In; [exact Ds|]. eapply nth_error_In; eauto. }
    assert (Dr : all_dim k (skipn (m0 + 1) sorted)).
    { eapply all_dim_incl; [|exact Ds]. intros q. apply In_skipn. }
    destruct (advance_spec k split d Hs Ld _ m0 Dr) as (j & Ej & Lj & Keys).
    rewrite Ej. cbn [bind]. rewrite length_skipn in Lj.
    rewrite Ld. destruct (next_split k split Hs) as [-> Hs2].
    set (s2 := (split + 1) mod k) in *.
    assert (Dl' : all_dim k (firstn (m0 + j) sorted)).
    { eapply all_dim_incl; [|exact Ds]. intros q. apply In_firstn. }
    assert (Dr' : all_dim k (skipn (m0 + j + 1) sorted)).
    { eapply all_dim_incl; [|exact Ds]. intros q. apply In_skipn. }
    destruct (IH _ s2 Dl' Hs2) as (l & lpts & El & Pl & Il & Diml & Partl & Rl & _ & Al).
    { rewrite length_firstn. lia. }
    destruct (IH _ s2 Dr' Hs2) as (r & rpts & Er & Pr & Ir & Dimr & Partr & Rr & _ & Ar).
    { rewrite length_skipn. lia. }
    rewrite El. cbn [bind]. rewrite Er. cbn [bind].
    eexists _, _. split; [reflexivity|].
    split; [|split; [|split; [|split; [|split; [|split]]]]].
    + etransitivity; [|exact Perm].
      rewrite <- (slice_three sorted (m0 + j)) at 2.
      apply Permutation_app; [exact Pl|].
      apply Permutation_app; [reflexivity | exact Pr].
    + intros q Hq. simpl in Hq. apply Inc. destruct Hq as [<-|Hq].
      * eapply nth_error_In; eauto.
      * apply in_app_or in Hq as [Hq|Hq].
        -- apply Il in Hq. eapply In_firstn; eauto.
        -- apply Ir in Hq. eapply In_skipn; eauto.
    + simpl. auto.
    + simpl. repeat split; auto.
      * apply Forall_forall. intros q Hq.
        apply coord_le_key with k; auto.
        -- eapply all_dim_In; [exact Dl'|auto].
        -- eapply sorted_prefix; eauto.
      * apply Forall_forall. intros q Hq.
        apply coord_le_key with k; auto.
        -- eapply all_dim_In; [exact Dr'|auto].
        -- eapply sorted_suffix; eauto.
    + reflexivity.
    + discriminate.
    + intros TF.
      assert (TFs : forall s, s < k -> tie_free s sorted).
      { intros s Hs'. eapply tie_free_perm; [symmetry; exact Perm | auto]. }
      assert (j = 0) by exact (tie_free_stays split sorted m0 j d (TFs split Hs) Ed Keys Lj).
      subst j.
      rewrite Nat.add_0_r in *.
      apply Permutation_trans with sorted; [|exact Perm].
      rewrite <- (slice_three sorted m0).
      rewrite (skipn_cons_nth sorted m0 d Ed). cbn [firstn app points].
      apply Permutation_cons_app. apply Permutation_app.
      * apply Al. intros s Hs'. apply tie_free_firstn. auto.
      * replace (S m0) with (m0 + 1) by lia.
        apply Ar. intros s Hs'. apply tie_free_skipn. auto.
Qed.

End BuilderFacts.

(** ** Insertion sort meets the contract *)

Lemma insert_perm (s : nat) (x : Point) (l : list Point) :
  Permutation (insert s x l) (x :: l).
Proof.
  induction l as [|y l IH]; simpl; [reflexivity|].
  destruct (Qltb (key s x) (key s y)); [reflexivity|].
  rewrite IH. apply perm_swap.
Qed.

Lemma insert_sorted (s : nat) (x : Point) (l : list Point) :
  sorted_on s l -> sorted_on s (insert s x l).
Proof.
  unfold sorted_on. induction l as [|y l IH]; simpl; intros H.
  - repeat constructor.
  - apply StronglySorted_inv in H as [Hl Hy].
    destruct (Qltb (key s x) (key s y)) eqn:C.
    + apply Qltb_true in C. constructor; [constructor; assumption|].
      constructor; [lra|].
      eapply Forall_impl; [|exact Hy]. simpl. intros z Hz. lra.
    + apply Qltb_false in C. constructor; [auto|].
      eapply Permutation_Forall; [symmetry; apply insert_perm|].
      constructor; assumption.
Qed.

Lemma insertionSort_acc (s : nat) (l : list Point) :
  forall acc,
    Permutation (fold_left (fun acc x => insert s x acc) l acc) (acc ++ l) /\
    (sorted_on s acc -> sorted_on s (fold_left (fun acc x => insert s x acc) l acc)).
Proof.
  induction l as [|x l IH]; intros acc; simpl.
  - rewrite app_nil_r. auto.
  - destruct (IH (insert s x acc)) as [P S]. split.
    + rewrite P, insert_perm. simpl. apply Permutation_middle.
    + intros H. apply S, insert_sorted, H.
Qed.

Lemma insertionSort_contract : sort_contract insertionSort.
Proof.
  intros s l. destruct (insertionSort_acc s l []) as [P S]. split.
  - exact P.
  - intros _. apply S. constructor.
Qed.

(** ** Sorting a slice without ties has one outcome *)

Lemma distinct_keys_inj (s : nat) (l : list Point) :
  distinct_keys s l = true ->
  forall x y, In x l -> In y l -> (key s x == key s y)%Q -> x = y.
Proof.
  induction l as [|a l IH]; simpl; intros H x y Hx Hy E; [contradiction|].
  apply andb_true_iff in H as [Ha Hl]. rewrite forallb_forall in Ha.
  destruct Hx as [<-|Hx], Hy as [<-|Hy]; auto.
  - specialize (Ha _ Hy). apply negb_true_iff in Ha.
    apply Qeq_bool_iff in E. congruence.
  - specialize (Ha _ Hx). apply negb_true_iff in Ha.
    symmetry in E. apply Qeq_bool_iff in E. congruence.
Qed.

Lemma sorted_perm_unique (s : nat) (l1 : list Point) :
  forall l2,
    sorted_on s l1 -> sorted_on s l2 -> Permutation l1 l2 ->
    (forall x y, In x l1 -> In y l1 -> (key s x == key s y)%Q -> x = y) ->
    l1 = l2.
Proof.
  unfold sorted_on. induction l1 as [|a l1 IH]; intros l2 S1 S2 P Inj.
  - apply Permutation_nil in P. now subst.
  - destruct l2 as [|b l2]; [apply Permutation_sym, Permutation_nil in P; discriminate|].
    apply StronglySorted_inv in S1 as [S1 Fa]. apply StronglySorted_inv in S2 as [S2 Fb].
    rewrite Forall_forall in Fa, Fb.
    assert (Hb : In b (a :: l1)) by (eapply Permutation_in; [symmetry; exact P | simpl; auto]).
    assert (Ha : In a (b :: l2)) by (eapply Permutation_in; [exact P | simpl; auto]).
    assert (E : a = b).
    { destruct Hb as [Hb|Hb]; [assumption|]. destruct Ha as [Ha|Ha]; [congruence|].
      apply Inj; [simpl; auto | simpl; auto |].
      apply Qle_antisym; auto. }
    subst b. f_equal. apply IH; auto.
    + eapply Permutation_cons_inv; eauto.
    + intros x y Hx Hy. apply Inj; simpl; auto.
Qed.

Lemma sort_unique (sort1 sort2 : nat -> list Point -> list Point)
    (k s : nat) (U exset : list Point) :
  sort_contract sort1 -> sort_contract sort2 ->
  all_dim k U -> s < k -> distinct_keys s U = true -> incl exset U ->
  sort1 s exset = sort2 s exset.
Proof.
  intros C1 C2 HU Hs Hd Hi.
  destruct (C1 s exset) as [P1 S1], (C2 s exset) as [P2 S2].
  assert (Hlt : Forall (fun p => s < length p) exset).
  { apply Forall_forall. intros p Hp. rewrite (all_dim_In k U p HU (Hi p Hp)). exact Hs. }
  apply sorted_perm_unique with s; auto.
  - rewrite P1. symmetry. exact P2.
  - intros x y Hx Hy. apply (distinct_keys_inj s U Hd); apply Hi.
    + eapply Permutation_in; [exact P1 | exact Hx].
    + eapply Permutation_in; [exact P1 | exact Hy].
Qed.

Lemma nk2_unique (sort1 sort2 : nat -> list Point -> list Point) (k : nat) (U : list Point) :
  sort_contract sort1 -> sort_contract sort2 ->
  all_dim k U -> (forall s, s < k -> distinct_keys s U = true) ->
  forall (fuel : nat) (exset : list Point) (split : nat),
    incl exset U -> split < k ->
    nk2 sort1 fuel exset split = nk2 sort2 fuel exset split.
Proof.
  intros C1 C2 HU Hd.
  induction fuel as [|fuel IH]; intros exset split Hi Hs.
  - destruct exset; reflexivity.
  - destruct exset as [|p0 tl]; [reflexivity|].
    cbn [nk2]. set (exset := p0 :: tl) in *.
    destruct (negb (Less_defined split exset)); [reflexivity|].
    rewrite (sort_unique sort1 sort2 k split U exset C1 C2 HU Hs (Hd split Hs) Hi).
    assert (Inc : incl (sort2 split exset) U).
    { intros q Hq. apply Hi. eapply Permutation_in; [apply C2 | exact Hq]. }
    set (sorted := sort2 split exset) in *. clearbody sorted.
    destruct (index sorted (length sorted / 2)) as [d| |] eqn:Ed; cbn [bind]; try reflexivity.
    destruct (advance _ split d _) as [m| |]; cbn [bind]; try reflexivity.
    assert (Ld : length d = k).
    { apply (all_dim_In k U d HU). apply Inc. apply index_Ok in Ed.
      eapply nth_error_In; eauto. }
    rewrite Ld. destruct (next_split k split Hs) as [-> Hs2].
    rewrite (IH (firstn m sorted) _) by (auto; intros q Hq; apply Inc; eapply In_firstn; eauto).
    destruct (nk2 sort2 fuel (firstn m sorted) _) as [[l lpts]| |]; cbn [bind]; try reflexivity.
    rewrite (IH (skipn (m + 1) sorted) _) by (auto; intros q Hq; apply Inc; eapply In_skipn; eauto).
    reflexivity.
Qed.

(** ** The search never looks into the box *)

Lemma nn_box_answer (kd : kdNode) (target : Point) :
  forall (hr1 hr2 : HyperRect) (B : dist) r1 r2,
    nn kd target hr1 B = Ok r1 -> nn kd target hr2 B = Ok r2 -> r1 = r2.
Proof.
  induction kd as [|pivot s l IHl r IHr]; intros hr1 hr2 B r1 r2 H1 H2.
  - simpl in *. congruence.
  - cbn [nn Copy Min Max app] in H1, H2.
    destruct (index pivot s) as [ps| |]; cbn [bind] in H1, H2; try discriminate.
    destruct (assign (Max hr1) s ps) as [mx1| |]; cbn [bind] in H1; try discriminate.
    destruct (assign (Min hr1) s ps) as [mn1| |]; cbn [bind] in H1; try discriminate.
    destruct (assign (Max hr2) s ps) as [mx2| |]; cbn [bind] in H2; try discriminate.
    destruct (assign (Min hr2) s ps) as [mn2| |]; cbn [bind] in H2; try discriminate.
    destruct (index target s) as [ts| |]; cbn [bind] in H1, H2; try discriminate.
    set (c := Qle_bool ts ps) in *.
    destruct (nn (if c then l else r) target
                (if c then {| Min := Min hr1; Max := mx1 |} else {| Min := mn1; Max := Max hr1 |}) B)
      as [[[n1 d1] nv1]| |] eqn:E1; cbn [bind] in H1; try discriminate.
    destruct (nn (if c then l else r) target
                (if c then {| Min := Min hr2; Max := mx2 |} else {| Min := mn2; Max := Max hr2 |}) B)
      as [[[n1' d1'] nv1']| |] eqn:E2; cbn [bind] in H2; try discriminate.
    assert (N : (n1, d1, nv1) = (n1', d1', nv1')).
    { destruct c; [eapply IHl | eapply IHr]; eauto. }
    injection N as <- <- <-.
    destruct (dist_ltb (if dist_ltb d1 B then d1 else B) (Fin _)); [congruence|].
    destruct (Sqd pivot target) as [vp| |]; cbn [bind] in H1, H2; try discriminate.
    set (closer := dist_ltb (Fin vp) d1) in *.
    set (B2 := if closer then if closer then Fin vp else d1
               else if dist_ltb d1 B then d1 else B) in *.
    destruct (nn (if c then r else l) target
                (if c then {| Min := mn1; Max := Max hr1 |} else {| Min := Min hr1; Max := mx1 |}) B2)
      as [[[n2 d2] nv2]| |] eqn:F1; cbn [bind] in H1; try discriminate.
    destruct (nn (if c then r else l) target
                (if c then {| Min := mn2; Max := Max hr2 |} else {| Min := Min hr2; Max := mx2 |}) B2)
      as [[[n2' d2'] nv2']| |] eqn:F2; cbn [bind] in H2; try discriminate.
    assert (N : (n2, d2, nv2) = (n2', d2', nv2')).
    { destruct c; [eapply IHr | eapply IHl]; eauto. }
    injection N as <- <- <-.
    destruct (dist_ltb d2 _); congruence.
Qed.

(** ** Claims about construction *)

Lemma New_spec (sort : nat -> list Point -> list Point) (k : nat)
    (pts : list Point) (bounds : HyperRect) :
  sort_contract sort -> 0 < k -> all_dim k pts ->
  exists kd pts',
    New sort pts bounds = Ok ({| n := kd; Bounds := bounds |}, pts') /\
    Permutation pts' pts /\ incl (points kd) pts /\
    dimensioned k kd /\ partitioned k kd /\ root_split 0 kd /\
    (kd = nilNode -> pts = []) /\
    ((forall s, s < k -> tie_free s pts) -> Permutation (points kd) pts).
Proof.
  intros Hc Hk Hd.
  destruct (nk2_spec sort Hc k (length pts) pts 0 Hd Hk (le_n _))
    as (kd & pts' & E & H).
  exists kd, pts'. unfold New. rewrite E. cbn [bind]. auto.
Qed.

(** C3.  Partition invariant of construction: in the tree [New] builds from
    points of dimension [k], at every node with split [s] and pivot [domElt]
    every point stored in the left subtree has coordinate [s] at most
    [domElt[s]], every point stored in the right subtree has coordinate [s]
    at least [domElt[s]], and the children are split on [(s+1) mod k]; the
    root is split on 0 and only points of the input are stored. *)
Theorem partition_invariant (sort : nat -> list Point -> list Point) (k : nat)
    (pts : list Point) (bounds : HyperRect) :
  sort_contract sort -> 0 < k -> all_dim k pts ->
  exists t pts',
    New sort pts bounds = Ok (t, pts') /\
    partitioned k (n t) /\ root_split 0 (n t) /\ incl (points (n t)) pts.
Proof.
  intros Hc Hk Hd.
  destruct (New_spec sort k pts bounds Hc Hk Hd) as (kd & pts' & E & _ & I & _ & P & R & _).
  exists {| n := kd; Bounds := bounds |}, pts'. auto.
Qed.

Lemma partition_invariant_witness :
  exists t pts',
    New insertionSort wp_pts wp_box = Ok (t, pts') /\
    partitioned 2 (n t) /\ root_split 0 (n t) /\ incl (points (n t)) wp_pts.
Proof.
  apply (partition_invariant insertionSort 2 wp_pts wp_box).
  - exact insertionSort_contract.
  - lia.
  - repeat constructor.
Defined.

Lemma nk2_perm (sort : nat -> list Point -> list Point) :
  (forall s l, Permutation (sort s l) l) ->
  forall (fuel : nat) (exset : list Point) (split : nat) kd pts',
    nk2 sort fuel exset split = Ok (kd, pts') -> Permutation pts' exset.
Proof.
  intros Hp. induction fuel as [|fuel IH]; intros exset split kd pts' H.
  - destruct exset; simpl in H; [|discriminate]. injection H as <- <-. reflexivity.
  - destruct exset as [|p0 tl]; simpl in H.
    { injection H as <- <-. reflexivity. }
    set (exset := p0 :: tl) in *.
    destruct (negb (Less_defined split exset)); [discriminate|].
    set (sorted := sort split exset) in *.
    destruct (index sorted _) as [d| |]; cbn [bind] in H; try discriminate.
    destruct (advance _ split d _) as [m| |]; cbn [bind] in H; try discriminate.
    destruct (nk2 sort fuel (firstn m sorted) _) as [[l lpts]| |] eqn:El;
      cbn [bind] in H; try discriminate.
    destruct (nk2 sort fuel (skipn (m + 1) sorted) _) as [[r rpts]| |] eqn:Er;
      cbn [bind] in H; try discriminate.
    injection H as <- <-.
    apply IH in El, Er.
    apply Permutation_trans
      with (firstn m sorted ++ firstn 1 (skipn m sorted) ++ skipn (m + 1) sorted).
    + apply Permutation_app; [exact El|].
      apply Permutation_app; [reflexivity | exact Er].
    + rewrite slice_three. apply Hp.
Qed.

(** C10.  [New] reorders the caller's slice in place: whenever it returns,
    the slice holds a permutation of the points it held before; it does
    return on points of one dimension; and the order does change on some
    input, so the caller can observe the mutation.  Points are values of the
    model and [New] never assigns to a coordinate. *)
Theorem New_reorders_in_place (sort : nat -> list Point -> list Point) :
  sort_contract sort ->
  (forall pts bounds t pts', New sort pts bounds = Ok (t, pts') -> Permutation pts' pts) /\
  (forall k pts bounds, 0 < k -> all_dim k pts ->
     exists t pts', New sort pts bounds = Ok (t, pts')) /\
  (exists t pts', New sort swap_pts unit_box = Ok (t, pts') /\ pts' <> swap_pts).
Proof.
  intros Hc. split; [|split].
  - intros pts bounds t pts' H. unfold New in H.
    destruct (nk2 sort (length pts) pts 0) as [[kd l]| |] eqn:E; cbn [bind] in H;
      try discriminate.
    injection H as <- <-. eapply nk2_perm; [|exact E]. intros s l0. apply Hc.
  - intros k pts bounds Hk Hd.
    destruct (New_spec sort k pts bounds Hc Hk Hd) as (kd & pts' & E & _). eauto.
  - unfold New.
    rewrite (nk2_unique sort insertionSort 1 swap_pts Hc insertionSort_contract).
    + vm_compute. eexists _, _. split; [reflexivity | discriminate].
    + repeat constructor.
    + intros [|s] Hs; [reflexivity | lia].
    + apply incl_refl.
    + lia.
Qed.

Lemma New_reorders_in_place_witness :
  exists t pts', New insertionSort swap_pts unit_box = Ok (t, pts') /\ pts' <> swap_pts.
Proof.
  apply (New_reorders_in_place insertionSort insertionSort_contract).
Defined.

(** C5.  The example of [TestWP2D]: the tree built from (2,3), (5,4), (9,6),
    (4,7), (8,1), (7,2) with the box (0,0)-(10,10), queried at (9,2),
    answers the point (8,1) at squared distance 2 after visiting 3 nodes. *)
Theorem wikipedia_example (sort : nat -> list Point -> list Point) :
  sort_contract sort ->
  query sort wp_pts wp_box wp_target = Ok (Some [8; 1]%Q, Fin 2, 3).
Proof.
  intros Hc. unfold query, New.
  rewrite (nk2_unique sort insertionSort 2 wp_pts Hc insertionSort_contract).
  - vm_compute. reflexivity.
  - repeat constructor.
  - intros [|[|s]] Hs; [reflexivity | reflexivity | lia].
  - apply incl_refl.
  - lia.
Qed.

Lemma wikipedia_example_witness :
  query insertionSort wp_pts wp_box wp_target = Ok (Some [8; 1]%Q, Fin 2, 3).
Proof.
  apply (wikipedia_example insertionSort). exact insertionSort_contract.
Defined.

(** ** Claims about the search *)

(** C6.  Empty-tree query: for every box and every target, the tree built
    from no points answers no point, distance [+Inf] and zero visits. *)
Theorem empty_tree_query (sort : nat -> list Point -> list Point)
    (bounds : HyperRect) (target : Point) :
  query sort [] bounds target = Ok (None, Inf, 0).
Proof.
  reflexivity.
Qed.

(** C9.  The answer of [Nearest] does not depend on the bounding box: two
    boxes whose corners have the same numbers of coordinates give the same
    outcome, and whatever the two boxes are, two queries that both return
    return the same point, distance and visit count.  The box is narrowed
    and passed down, and no comparison reads it. *)
Theorem bounds_never_consulted (sort : nat -> list Point -> list Point)
    (pts : list Point) (target : Point) (b1 b2 : HyperRect) :
  (same_shape b1 b2 -> query sort pts b1 target = query sort pts b2 target) /\
  (forall r1 r2, query sort pts b1 target = Ok r1 ->
                 query sort pts b2 target = Ok r2 -> r1 = r2).
Proof.
  unfold query, New.
  destruct (nk2 sort (length pts) pts 0) as [[kd pts']| |]; cbn [bind].
  - unfold Nearest. cbn [n Bounds]. split.
    + apply nn_same_shape.
    + apply nn_box_answer.
  - split; [reflexivity | discriminate].
  - split; [reflexivity | discriminate].
Qed.

Lemma bounds_never_consulted_witness :
  same_shape wp_box wide_box /\
  query insertionSort wp_pts wp_box wp_target = query insertionSort wp_pts wide_box wp_target.
Proof.
  split.
  - split; reflexivity.
  - apply (proj1 (bounds_never_consulted insertionSort wp_pts wp_target wp_box wide_box)).
    split; reflexivity.
Defined.

(** ** Distances are symmetric *)

Lemma index_mid {A : Type} (pre : list A) (b : A) (q : list A) :
  index (pre ++ b :: q) (length pre) = Ok b.
Proof.
  unfold index. rewrite nth_error_app2, Nat.sub_diag by lia. reflexivity.
Qed.

Lemma Sqd_from_sym (p : Point) :
  forall (q pre_p pre_q : Point) (sum sum' : float64),
    length p = length q -> length pre_p = length pre_q -> (sum == sum')%Q ->
    exists v v',
      Sqd_from p (length pre_q) (pre_q ++ q) sum = Ok v /\
      Sqd_from q (length pre_p) (pre_p ++ p) sum' = Ok v' /\ (v == v')%Q.
Proof.
  induction p as [|a p IH]; intros [|b q] pre_p pre_q sum sum' L Lpre E;
    try discriminate.
  - exists sum, sum'. simpl. auto.
  - simpl in L. injection L as L.
    cbn [Sqd_from]. rewrite !index_mid. cbn [bind].
    destruct (IH q (pre_p ++ [a]) (pre_q ++ [b])
                (sum + (a - b) * (a - b))%Q (sum' + (b - a) * (b - a))%Q)
      as (v & v' & E1 & E2 & Ev).
    + exact L.
    + rewrite !length_app. simpl. lia.
    + rewrite E. ring.
    + rewrite !length_app, <- !app_assoc in E1, E2. simpl in E1, E2.
      replace (length pre_q + 1) with (S (length pre_q)) in E1 by lia.
      replace (length pre_p + 1) with (S (length pre_p)) in E2 by lia.
      exists v, v'. auto.
Qed.

Lemma Sqd_sym (p q : Point) :
  length p = length q ->
  exists v v', Sqd p q = Ok v /\ Sqd q p = Ok v' /\ (v == v')%Q.
Proof.
  intros L. apply (Sqd_from_sym p q [] [] 0%Q 0%Q L eq_refl). reflexivity.
Qed.

(** C2.  Consistency of the answer: on a tree built from points of
    dimension [k], with a box of that dimension and a target of that
    dimension, [Nearest] returns; and when what it returns is a point
    [nearest] with a distance [d], the point is one of the input, [d] is
    finite, and [d] is the squared distance [Sqd] computes between the
    target and [nearest].  When it returns no point the distance is
    [+Inf].  Nothing is said on whether a non-empty tree always yields a
    point: that depends on the squares staying finite. *)
Theorem nearest_consistent (sort : nat -> list Point -> list Point) (k : nat)
    (pts : list Point) (bounds : HyperRect) (target : Point) :
  sort_contract sort -> 0 < k -> all_dim k pts ->
  box_covers k bounds -> length target = k ->
  exists nearest d nv,
    query sort pts bounds target = Ok (nearest, d, nv) /\
    match nearest with
    | Some nn =>
        In nn pts /\
        exists ssq d', d = Fin ssq /\ Sqd target nn = Ok d' /\ (d' == ssq)%Q
    | None => d = Inf
    end.
Proof.
  intros Hc Hk Hd Hb Ht.
  destruct (New_spec sort k pts bounds Hc Hk Hd)
    as (kd & pts' & E & _ & I & D & _).
  destruct (nn_spec k target kd (Nat.eq_le_incl _ _ (eq_sym Ht)) bounds Inf D Hb)
    as (nearest & d & nv & En & F & _).
  exists nearest, d, nv. split.
  { unfold query. rewrite E. cbn [bind]. unfold Nearest. cbn [n Bounds]. exact En. }
  destruct nearest as [p|]; [|exact F].
  destruct F as (Hp & v & Ev & ->).
  split; [auto|].
  assert (Lp : length target = length p).
  { rewrite Ht. symmetry. eapply all_dim_In; [exact Hd | auto]. }
  destruct (Sqd_sym target p Lp) as (v1 & v2 & E1 & E2 & Ev12).
  exists v, v1. split; [reflexivity|]. split; [exact E1|].
  rewrite Ev12. replace v with v2 by congruence. reflexivity.
Qed.

Lemma nearest_consistent_witness :
  exists nearest d nv,
    query insertionSort wp_pts wp_box wp_target = Ok (nearest, d, nv) /\
    match nearest with
    | Some nn =>
        In nn wp_pts /\
        exists ssq d', d = Fin ssq /\ Sqd wp_target nn = Ok d' /\ (d' == ssq)%Q
    | None => d = Inf
    end.
Proof.
  apply (nearest_consistent insertionSort 2 wp_pts wp_box wp_target).
  - exact insertionSort_contract.
  - lia.
  - repeat constructor.
  - split; simpl; lia.
  - reflexivity.
Defined.

(** ** A target with too few coordinates *)

Lemma index_fuel {A : Type} (l : list A) (i : nat) : index l i <> OutOfFuel.
Proof.
  unfold index. destruct (nth_error l i); discriminate.
Qed.

Lemma assign_fuel (p : Point) (v : float64) : forall i, assign p i v <> OutOfFuel.
Proof.
  induction p as [|h t IH]; intros [|i]; simpl; try discriminate.
  specialize (IH i). destruct (assign t i v); try discriminate. congruence.
Qed.

Lemma Sqd_from_short (p : Point) :
  forall (dim : nat) (q : Point) (sum : float64),
    dim <= length q -> length q < dim + length p -> Sqd_from p dim q sum = Panic.
Proof.
  induction p as [|a p IH]; intros dim q sum H1 H2; simpl in *; [lia|].
  destruct (Nat.eq_dec dim (length q)) as [->|Hne].
  - rewrite index_ge by lia. reflexivity.
  - destruct (index_lt q dim) as (b & ->); [lia|]. cbn [bind].
    apply IH; lia.
Qed.

Lemma Sqd_short (p q : Point) : length q < length p -> Sqd p q = Panic.
Proof.
  intros H. apply Sqd_from_short; simpl; lia.
Qed.

Lemma nn_short_target (k : nat) (target : Point) (kd : kdNode) :
  length target < k -> dimensioned k kd -> kd <> nilNode ->
  forall hr, nn kd target hr Inf = Panic.
Proof.
  intros Ht. induction kd as [|pivot s l IHl r IHr]; intros Hd Hne hr; [congruence|].
  destruct Hd as (Lp & Hs & Dl & Dr).
  cbn [nn Copy Min Max app].
  destruct (index pivot s) as [ps| |] eqn:Eps; cbn [bind];
    [|reflexivity|exfalso; eapply index_fuel; eauto].
  destruct (assign (Max hr) s ps) as [mx| |] eqn:Emx; cbn [bind];
    [|reflexivity|exfalso; eapply assign_fuel; eauto].
  destruct (assign (Min hr) s ps) as [mn| |] eqn:Emn; cbn [bind];
    [|reflexivity|exfalso; eapply assign_fuel; eauto].
  destruct (index target s) as [ts| |] eqn:Ets; cbn [bind];
    [|reflexivity|exfalso; eapply index_fuel; eauto].
  set (c := Qle_bool ts ps).
  assert (Near : forall h, (if c then l else r) = nilNode \/
                           nn (if c then l else r) target h Inf = Panic).
  { intros h. destruct c.
    - destruct l; [left; reflexivity | right; apply IHl; [auto | discriminate]].
    - destruct r; [left; reflexivity | right; apply IHr; [auto | discriminate]]. }
  match goal with
  | |- context [nn (if c then l else r) target ?h Inf] => destruct (Near h) as [E|E]
  end; rewrite E.
  - cbn [nn bind dist_ltb]. rewrite Sqd_short by lia. reflexivity.
  - reflexivity.
Qed.

(** C7, as the code has it.  A query with a target of fewer coordinates
    than the points of a non-empty tree ends in the run-time panic of an
    index out of range, whatever the box; no error condition of its own is
    raised and no answer is returned. *)
Theorem mismatch_panics (sort : nat -> list Point -> list Point) (k : nat)
    (pts : list Point) (bounds : HyperRect) (target : Point) :
  sort_contract sort -> all_dim k pts -> pts <> [] -> length target < k ->
  query sort pts bounds target = Panic.
Proof.
  intros Hc Hd Hne Ht.
  destruct (New_spec sort k pts bounds Hc (Nat.le_lt_trans _ _ _ (Nat.le_0_l _) Ht) Hd)
    as (kd & pts' & E & _ & _ & D & _ & _ & Hnil & _).
  unfold query. rewrite E. cbn [bind]. unfold Nearest. cbn [n Bounds].
  apply nn_short_target with k; auto.
Qed.

Lemma mismatch_panics_witness : query insertionSort pts3 box3 target2 = Panic.
Proof.
  apply (mismatch_panics insertionSort 3 pts3 box3 target2).
  - exact insertionSort_contract.
  - repeat constructor.
  - discriminate.
  - simpl. lia.
Defined.

(** C7, as the specification has it, fails: the query of a tree of
    three-dimensional points with a two-dimensional target indexes out of
    range. *)
Lemma mismatch_not_reported : ~ mismatch_reported insertionSort pts3 box3 target2.
Proof.
  intros [H _]. apply H. vm_compute. reflexivity.
Qed.

(** ** The pivot and the early return *)

(** C4, as the code has it.  On a node, after the near side has answered
    [(n1, d1, nv1)], the bound becomes the smaller of [B] and [d1].  When the
    squared distance to the splitting plane exceeds that bound the call
    returns the near answer at once: the pivot is not compared, the far
    side is not visited, and the pivot lies strictly beyond the bound.
    Otherwise the pivot is compared and the distance returned is at most the
    pivot's.  Either way the distance returned is at most the pivot's unless
    the pivot lies strictly beyond the caller's bound [B]. *)
Theorem pivot_compared_unless_pruned (k : nat) (pivot : Point) (s : nat)
    (l r : kdNode) (target : Point) (hr : HyperRect) (B : dist) :
  k <= length target -> dimensioned k (Node pivot s l r) -> box_covers k hr ->
  exists ps ts vp nearHr n1 d1 nv1 nearest d nv,
    index pivot s = Ok ps /\ index target s = Ok ts /\ Sqd pivot target = Ok vp /\
    nn (if Qle_bool ts ps then l else r) target nearHr B = Ok (n1, d1, nv1) /\
    nn (Node pivot s l r) target hr B = Ok (nearest, d, nv) /\
    (if dist_ltb (if dist_ltb d1 B then d1 else B) (Fin ((ps - ts) * (ps - ts)))
     then (nearest, d, nv) = (n1, d1, 1 + nv1) /\
          dist_ltb (if dist_ltb d1 B then d1 else B) (Fin vp) = true
     else dist_le d (Fin vp)) /\
    (dist_le d (Fin vp) \/ dist_ltb B (Fin vp) = true).
Proof.
  intros Ht Hd [Hmin Hmax].
  destruct Hd as (Lp & Hs & Dl & Dr).
  destruct (index_lt pivot s) as (ps & Eps); [lia|].
  destruct (index_lt target s) as (ts & Ets); [lia|].
  destruct (assign_lt (Max hr) s ps) as (mx & Emx & Lmx); [lia|].
  destruct (assign_lt (Min hr) s ps) as (mn & Emn & Lmn); [lia|].
  destruct (Sqd_total pivot target) as (vp & Evp); [lia|].
  assert (Hplane : ((ps - ts) * (ps - ts) <= vp)%Q).
  { apply (Sqd_ge_plane pivot target s ps ts vp Evp); now apply index_Ok. }
  set (leftHr := {| Min := Min hr; Max := mx |}).
  set (rightHr := {| Min := mn; Max := Max hr |}).
  assert (Cl : box_covers k leftHr) by (split; simpl; lia).
  assert (Cr : box_covers k rightHr) by (split; simpl; lia).
  set (c := Qle_bool ts ps).
  assert (Near : exists n1 d1 nv1,
             nn (if c then l else r) target (if c then leftHr else rightHr) B
             = Ok (n1, d1, nv1)).
  { destruct c.
    - destruct (nn_spec k target l Ht leftHr B Dl Cl) as (a & d & nv & E & _); eauto.
    - destruct (nn_spec k target r Ht rightHr B Dr Cr) as (a & d & nv & E & _); eauto. }
  destruct Near as (n1 & d1 & nv1 & E1).
  exists ps, ts, vp, (if c then leftHr else rightHr), n1, d1, nv1.
  cbn [nn Copy Min Max app]. rewrite Eps. cbn [bind].
  rewrite Emx. cbn [bind]. rewrite Emn. cbn [bind]. rewrite Ets. cbn [bind].
  fold leftHr rightHr c. rewrite E1. cbn [bind].
  destruct (dist_ltb (if dist_ltb d1 B then d1 else B) (Fin _)) eqn:Prune.
  - exists n1, d1, (1 + nv1). repeat split; auto.
    + clear E1. order.
    + unfold dist_le. clear E1.
      destruct (dist_ltb (Fin vp) d1) eqn:X; [right | left; reflexivity]. order.
  - rewrite Evp. cbn [bind].
    set (closer := dist_ltb (Fin vp) d1).
    set (B2 := if closer then if closer then Fin vp else d1
               else if dist_ltb d1 B then d1 else B).
    assert (Far : exists n2 d2 nv2,
               nn (if c then r else l) target (if c then rightHr else leftHr) B2
               = Ok (n2, d2, nv2)).
    { destruct c.
      - destruct (nn_spec k target r Ht rightHr B2 Dr Cr) as (a & d & nv & E & _); eauto.
      - destruct (nn_spec k target l Ht leftHr B2 Dl Cl) as (a & d & nv & E & _); eauto. }
    destruct Far as (n2 & d2 & nv2 & E2). rewrite E2. cbn [bind].
    assert (Le : dist_le (if dist_ltb d2 (if closer then Fin vp else d1)
                          then d2 else if closer then Fin vp else d1) (Fin vp)).
    { unfold dist_le. subst closer. clear E1 E2 B2 Prune. order. }
    destruct (dist_ltb d2 (if closer then Fin vp else d1)) eqn:Better;
      eexists _, _, _; repeat split; auto.
Qed.

Lemma pivot_compared_unless_pruned_witness :
  exists ps ts vp nearHr n1 d1 nv1 nearest d nv,
    index [0; 5]%Q 1 = Ok ps /\ index far_target 1 = Ok ts /\
    Sqd [0; 5]%Q far_target = Ok vp /\
    nn (if Qle_bool ts ps then nilNode else nilNode) far_target nearHr (Fin 1)
      = Ok (n1, d1, nv1) /\
    nn far_leaf far_target wp_box (Fin 1) = Ok (nearest, d, nv) /\
    (if dist_ltb (if dist_ltb d1 (Fin 1) then d1 else Fin 1) (Fin ((ps - ts) * (ps - ts)))
     then (nearest, d, nv) = (n1, d1, 1 + nv1) /\
          dist_ltb (if dist_ltb d1 (Fin 1) then d1 else Fin 1) (Fin vp) = true
     else dist_le d (Fin vp)) /\
    (dist_le d (Fin vp) \/ dist_ltb (Fin 1) (Fin vp) = true).
Proof.
  apply (pivot_compared_unless_pruned 2 [0; 5]%Q 1 nilNode nilNode far_target wp_box (Fin 1)).
  - simpl. lia.
  - simpl. repeat split; lia.
  - split; simpl; lia.
Defined.

(** C4, as the specification has it, fails: the leaf (0,5), split on the
    second coordinate and reached with bound 1 for the target (3,0), returns
    no point at distance [+Inf]; its pivot, at squared distance 34, was
    never compared. *)
Lemma pivot_skipped_when_pruned : ~ pivot_always_compared.
Proof.
  intros H.
  specialize (H [0; 5]%Q 1 nilNode nilNode far_target wp_box (Fin 1) None Inf 1 34%Q).
  unfold dist_le in H. simpl dist_ltb in H.
  assert (true = false); [|discriminate].
  apply H; vm_compute; reflexivity.
Qed.

(** That invocation is the far call of the query of [far_pts] at
    [far_target]: the root is (2,0) with [far_leaf] to its left, the bound
    is 1 once the root's pivot has been compared, and both nodes are visited. *)
Remark far_leaf_reached :
  New insertionSort far_pts wp_box
    = Ok ({| n := Node [2; 0]%Q 0 far_leaf nilNode; Bounds := wp_box |},
          [[0; 5]; [2; 0]]%Q) /\
  Sqd [2; 0]%Q far_target = Ok 1%Q /\
  query insertionSort far_pts wp_box far_target = Ok (Some [2; 0]%Q, Fin 1, 2).
Proof.
  repeat split; vm_compute; reflexivity.
Qed.

(** ** Optimality *)

(** The search is optimal over the points the tree stores. *)
Lemma stored_optimal (sort : nat -> list Point -> list Point) (k : nat)
    (pts : list Point) (bounds : HyperRect) (target : Point) :
  sort_contract sort -> 0 < k -> all_dim k pts ->
  box_covers k bounds -> length target = k ->
  exists t pts' nearest d nv,
    New sort pts bounds = Ok (t, pts') /\
    Nearest t target = Ok (nearest, d, nv) /\
    optimal (points (n t)) target d.
Proof.
  intros Hc Hk Hd Hb Ht.
  destruct (New_spec sort k pts bounds Hc Hk Hd)
    as (kd & pts' & E & _ & _ & D & P & _ & _).
  destruct (nn_spec k target kd (Nat.eq_le_incl _ _ (eq_sym Ht)) bounds Inf D Hb)
    as (nearest & d & nv & En & _).
  exists {| n := kd; Bounds := bounds |}, pts', nearest, d, nv.
  repeat split; auto.
  intros q vq Hq Hv. cbn [n] in Hq.
  destruct (dist_ltb (Fin vq) d) eqn:X; [|reflexivity].
  pose proof (nn_optimal target k kd P bounds Inf nearest d nv En q vq Hq Hv X) as Y.
  simpl in Y. discriminate.
Qed.

Lemma distinct_keys_tie_free (s : nat) (l : list Point) :
  distinct_keys s l = true -> tie_free s l.
Proof.
  induction l as [|x l IH]; simpl; [auto|].
  intros H. apply andb_true_iff in H as [Hx Hl]. split; [|auto].
  apply Forall_forall. intros y Hy E.
  rewrite forallb_forall in Hx. specialize (Hx y Hy).
  apply negb_true_iff in Hx. apply Qeq_bool_iff in E. congruence.
Qed.

(** When no two input points agree on a coordinate, every input point is
    stored and the search is optimal over the input. *)
Lemma optimal_without_ties (sort : nat -> list Point -> list Point) (k : nat)
    (pts : list Point) (bounds : HyperRect) (target : Point) :
  sort_contract sort -> 0 < k -> all_dim k pts ->
  box_covers k bounds -> length target = k ->
  (forall s, s < k -> tie_free s pts) ->
  exists nearest d nv,
    query sort pts bounds target = Ok (nearest, d, nv) /\ optimal pts target d.
Proof.
  intros Hc Hk Hd Hb Ht TF.
  destruct (New_spec sort k pts bounds Hc Hk Hd)
    as (kd & pts' & E & _ & _ & D & P & _ & _ & All).
  destruct (nn_spec k target kd (Nat.eq_le_incl _ _ (eq_sym Ht)) bounds Inf D Hb)
    as (nearest & d & nv & En & _).
  exists nearest, d, nv. unfold query. rewrite E. cbn [bind]. split; [exact En|].
  intros q vq Hq Hv.
  assert (Hq' : In q (points kd)).
  { eapply Permutation_in; [symmetry; apply All; exact TF | exact Hq]. }
  destruct (dist_ltb (Fin vq) d) eqn:X; [|reflexivity].
  pose proof (nn_optimal target k kd P bounds Inf nearest d nv En q vq Hq' Hv X) as Y.
  simpl in Y. discriminate.
Qed.

(** C1 at its failing input.  Of the three points (0,0), (1,0), (1,5) the
    last two share the median first coordinate: the loop moves the cut past
    (1,0) while the node keeps (1,0), so (1,5) is stored nowhere.  Queried
    at (1,5), the tree answers (1,0) at squared distance 25, although (1,5)
    itself is in the input at distance 0. *)
Theorem tie_loses_point :
  query insertionSort tie_pts wp_box tie_target = Ok (Some [1; 0]%Q, Fin 25, 3) /\
  In tie_target tie_pts /\
  Sqd tie_target tie_target = Ok 0%Q /\
  ~ optimal tie_pts tie_target (Fin 25).
Proof.
  split; [vm_compute; reflexivity|].
  split; [simpl; auto|].
  split; [vm_compute; reflexivity|].
  intros H.
  assert (X : dist_ltb (Fin 0) (Fin 25) = false).
  { apply (H tie_target 0%Q); [simpl; auto | vm_compute; reflexivity]. }
  vm_compute in X. discriminate.
Qed.

(** ** The search writes to its own copies only *)

Lemma poke_length (m : Ref.mem) : forall a v, length (Ref.poke m a v) = length m.
Proof.
  induction m as [|h t IH]; intros [|a] v; simpl; auto.
Qed.

Lemma poke_firstn (m : Ref.mem) :
  forall base a v, base <= a -> firstn base (Ref.poke m a v) = firstn base m.
Proof.
  induction m as [|h t IH]; intros [|base] [|a] v H; simpl; auto; try lia.
  f_equal. apply IH. lia.
Qed.

Lemma keeps_ret {A : Type} (base : nat) (a : A) (Q : A -> Prop) :
  Q a -> Ref.keeps base (Ref.ret a) Q.
Proof.
  intros HQ m a' m' _ E. unfold Ref.ret in E. injection E as <- <-. auto.
Qed.

Lemma keeps_bind {A B : Type} (base : nat) (c : Ref.M A) (k : A -> Ref.M B)
    (Q : A -> Prop) (R : B -> Prop) :
  Ref.keeps base c Q -> (forall a, Q a -> Ref.keeps base (k a) R) ->
  Ref.keeps base (Ref.mbind c k) R.
Proof.
  intros Hc Hk m b m' Hb E. unfold Ref.mbind in E.
  destruct (c m) as [[a m1]| |] eqn:Ec; try discriminate.
  destruct (Hc m a m1 Hb Ec) as (L1 & F1 & Qa).
  destruct (Hk a Qa m1 b m' (Nat.le_trans _ _ _ Hb L1) E) as (L2 & F2 & Rb).
  split; [lia|]. split; [congruence | exact Rb].
Qed.

Lemma keeps_weaken {A : Type} (base : nat) (c : Ref.M A) (Q R : A -> Prop) :
  Ref.keeps base c Q -> (forall a, Q a -> R a) -> Ref.keeps base c R.
Proof.
  intros Hc HQR m a m' Hb E. destruct (Hc m a m' Hb E) as (L & F & Qa). auto.
Qed.

Lemma keeps_load (base : nat) (p : Ref.slice) (i : nat) :
  Ref.keeps base (Ref.load p i) (fun _ => True).
Proof.
  intros m v m' _ E. unfold Ref.load in E.
  destruct (i <? Ref.len p); [|discriminate].
  destruct (index m (Ref.ptr p + i)); cbn [bind] in E; try discriminate.
  injection E as <- <-. auto.
Qed.

Lemma keeps_store (base : nat) (p : Ref.slice) (i : nat) (v : float64) :
  base <= Ref.ptr p -> Ref.keeps base (Ref.store p i v) (fun _ => True).
Proof.
  intros Hp m u m' _ E. unfold Ref.store in E.
  destruct ((i <? Ref.len p) && (Ref.ptr p + i <? length m)); [|discriminate].
  injection E as <- <-. rewrite poke_length. split; [lia|].
  split; [apply poke_firstn; lia | exact I].
Qed.

Lemma keeps_appendCopy (base : nat) (p : Ref.slice) :
  Ref.keeps base (Ref.appendCopy p) (fun q => base <= Ref.ptr q).
Proof.
  intros m q m' Hb E. unfold Ref.appendCopy in E. injection E as <- <-.
  rewrite length_app. split; [lia|]. split; [|simpl; lia].
  rewrite firstn_app. replace (base - length m) with 0 by lia.
  simpl. apply app_nil_r.
Qed.

Lemma keeps_Copy (base : nat) (hr : Ref.HyperRect) :
  Ref.keeps base (Ref.Copy hr) (Ref.fresh_box base).
Proof.
  unfold Ref.Copy.
  eapply keeps_bind; [apply keeps_appendCopy|]. intros mn Hmn.
  eapply keeps_bind; [apply keeps_appendCopy|]. intros mx Hmx.
  apply keeps_ret. split; assumption.
Qed.

Lemma keeps_Sqd_from (base : nat) (p q : Ref.slice) :
  forall todo dim sum, Ref.keeps base (Ref.Sqd_from todo dim p q sum) (fun _ => True).
Proof.
  induction todo as [|todo IH]; intros dim sum; cbn [Ref.Sqd_from].
  - now apply keeps_ret.
  - eapply keeps_bind; [apply keeps_load|]. intros a _.
    eapply keeps_bind; [apply keeps_load|]. intros b _.
    apply IH.
Qed.

Lemma keeps_nn (target : Ref.slice) (kd : Ref.kdNode) :
  forall base hr B, Ref.keeps base (Ref.nn kd target hr B) (fun _ => True).
Proof.
  induction kd as [|pivot s l IHl r IHr]; intros base hr B; cbn [Ref.nn].
  - now apply keeps_ret.
  - eapply keeps_bind; [apply keeps_Copy|]. intros leftHr [_ HL].
    eapply keeps_bind; [apply keeps_Copy|]. intros rightHr [HR _].
    eapply keeps_bind; [apply keeps_load|]. intros v _.
    eapply keeps_bind; [apply keeps_store; assumption|]. intros _ _.
    eapply keeps_bind; [apply keeps_load|]. intros v' _.
    eapply keeps_bind; [apply keeps_store; assumption|]. intros _ _.
    eapply keeps_bind; [apply keeps_load|]. intros ts _.
    eapply keeps_bind; [apply keeps_load|]. intros ps _.
    eapply keeps_bind.
    { destruct (Qle_bool ts ps); [apply IHl | apply IHr]. }
    intros [[nearest distSqd] nv] _.
    eapply keeps_bind; [apply keeps_load|]. intros ps' _.
    eapply keeps_bind; [apply keeps_load|]. intros ts' _.
    destruct (dist_ltb _ (Fin _)); [now apply keeps_ret|].
    eapply keeps_bind; [apply keeps_Sqd_from|]. intros d _.
    eapply keeps_bind.
    { destruct (Qle_bool ts ps); [apply IHr | apply IHl]. }
    intros [[tempNearest tempSqd] nv'] _.
    destruct (dist_ltb tempSqd _); now apply keeps_ret.
Qed.

Lemma read_app (m fresh : Ref.mem) (p : Ref.slice) :
  Ref.valid m p -> Ref.read p (m ++ fresh) = Ref.read p m.
Proof.
  unfold Ref.valid, Ref.read. intros V.
  rewrite skipn_app, firstn_app, length_skipn.
  replace (Ref.len p - (length m - Ref.ptr p)) with 0 by lia.
  simpl. apply app_nil_r.
Qed.

Lemma nn_extends (kd : Ref.kdNode) (target : Ref.slice) (hr : Ref.HyperRect) (B : dist)
    (m : Ref.mem) r (m' : Ref.mem) :
  Ref.nn kd target hr B m = Ok (r, m') -> exists fresh, m' = m ++ fresh.
Proof.
  intros E.
  destruct (keeps_nn target kd (length m) hr B m r m' (le_n _) E) as (_ & F & _).
  exists (skipn (length m) m').
  rewrite firstn_all in F. rewrite <- F at 1. symmetry. apply firstn_skipn.
Qed.



(** ** The two models of the search agree *)

Lemma read_length (m : Ref.mem) (p : Ref.slice) :
  Ref.valid m p -> length (Ref.read p m) = Ref.len p.
Proof.
  unfold Ref.valid, Ref.read. intros V. rewrite length_firstn, length_skipn. lia.
Qed.

Lemma nth_error_read (m : Ref.mem) (p : Ref.slice) (j : nat) :
  nth_error (Ref.read p m) j
  = if j <? Ref.len p then nth_error m (Ref.ptr p + j) else None.
Proof.
  unfold Ref.read. rewrite nth_error_firstn, nth_error_skipn. reflexivity.
Qed.

Lemma load_read (m : Ref.mem) (p : Ref.slice) (i : nat) :
  Ref.load p i m = reading (index (Ref.read p m) i) m.
Proof.
  unfold Ref.load, index. rewrite nth_error_read.
  destruct (i <? Ref.len p); [|reflexivity].
  destruct (nth_error m (Ref.ptr p + i)); reflexivity.
Qed.

Lemma nth_error_poke (m : Ref.mem) :
  forall a v j,
    nth_error (Ref.poke m a v) j
    = if (j =? a) && (a <? length m) then Some v else nth_error m j.
Proof.
  induction m as [|h t IH]; intros [|a] v [|j]; simpl; auto.
  all: destruct (j =? a); reflexivity.
Qed.

Lemma read_poke_other (m : Ref.mem) (q : Ref.slice) (a : nat) (v : float64) :
  a < Ref.ptr q \/ Ref.ptr q + Ref.len q <= a ->
  Ref.read q (Ref.poke m a v) = Ref.read q m.
Proof.
  intros H. apply nth_error_ext. intros j. rewrite !nth_error_read.
  destruct (j <? Ref.len q) eqn:J; [|reflexivity].
  apply Nat.ltb_lt in J. rewrite nth_error_poke.
  replace (Ref.ptr q + j =? a) with false by (symmetry; apply Nat.eqb_neq; lia).
  reflexivity.
Qed.

Lemma assign_poke (b : Point) (v : float64) :
  forall i, i < length b -> assign b i v = Ok (Ref.poke b i v).
Proof.
  induction b as [|h t IH]; intros [|i] H; simpl in *; try lia; auto.
  rewrite IH by lia. reflexivity.
Qed.

Lemma read_poke_same (m : Ref.mem) (p : Ref.slice) (i : nat) (v : float64) :
  Ref.valid m p -> i < Ref.len p ->
  Ref.read p (Ref.poke m (Ref.ptr p + i) v) = Ref.poke (Ref.read p m) i v.
Proof.
  intros V H. apply nth_error_ext. intros j.
  rewrite nth_error_read, !nth_error_poke, nth_error_read, read_length by assumption.
  unfold Ref.valid in V.
  destruct (j <? Ref.len p) eqn:J.
  - apply Nat.ltb_lt in J.
    destruct (Nat.eq_dec j i) as [->|Hne].
    + rewrite !Nat.eqb_refl.
      replace (Ref.ptr p + i <? length m) with true by (symmetry; apply Nat.ltb_lt; lia).
      replace (i <? Ref.len p) with true by (symmetry; apply Nat.ltb_lt; lia).
      reflexivity.
    + replace (Ref.ptr p + j =? Ref.ptr p + i) with false
        by (symmetry; apply Nat.eqb_neq; lia).
      replace (j =? i) with false by (symmetry; apply Nat.eqb_neq; lia).
      reflexivity.
  - apply Nat.ltb_ge in J.
    replace (j =? i) with false by (symmetry; apply Nat.eqb_neq; lia).
    reflexivity.
Qed.

Lemma store_assign (m : Ref.mem) (p : Ref.slice) (i : nat) (v : float64) :
  Ref.valid m p ->
  match Ref.store p i v m with
  | Ok (_, m') =>
      m' = Ref.poke m (Ref.ptr p + i) v /\ i < Ref.len p /\
      assign (Ref.read p m) i v = Ok (Ref.read p m')
  | Panic => assign (Ref.read p m) i v = Panic
  | OutOfFuel => False
  end.
Proof.
  intros V. unfold Ref.store.
  destruct (i <? Ref.len p) eqn:I.
  - apply Nat.ltb_lt in I.
    replace (Ref.ptr p + i <? length m) with true
      by (symmetry; apply Nat.ltb_lt; unfold Ref.valid in V; lia).
    cbn [andb]. split; [reflexivity|]. split; [exact I|].
    rewrite read_poke_same by assumption.
    apply assign_poke. rewrite read_length by assumption. exact I.
  - apply Nat.ltb_ge in I. cbn [andb].
    apply assign_ge. rewrite read_length by assumption. exact I.
Qed.

Lemma extends_refl (m : Ref.mem) : extends m m.
Proof.
  exists []. now rewrite app_nil_r.
Qed.

Lemma extends_trans (m1 m2 m3 : Ref.mem) :
  extends m1 m2 -> extends m2 m3 -> extends m1 m3.
Proof.
  intros [x ->] [y ->]. exists (x ++ y). now rewrite app_assoc.
Qed.

Lemma extends_length (m m' : Ref.mem) : extends m m' -> length m <= length m'.
Proof.
  intros [x ->]. rewrite length_app. lia.
Qed.

Lemma poke_app_r (a x : Ref.mem) (i : nat) (v : float64) :
  Ref.poke (a ++ x) (length a + i) v = a ++ Ref.poke x i v.
Proof.
  induction a as [|h t IH]; simpl; [reflexivity|]. now rewrite IH.
Qed.

Lemma extends_poke (m m' : Ref.mem) (a : nat) (v : float64) :
  extends m m' -> length m <= a -> extends m (Ref.poke m' a v).
Proof.
  intros [x ->] H. exists (Ref.poke x (a - length m) v).
  replace a with (length m + (a - length m)) at 1 by lia. apply poke_app_r.
Qed.

Lemma valid_extends (m m' : Ref.mem) (p : Ref.slice) :
  extends m m' -> Ref.valid m p -> Ref.valid m' p.
Proof.
  intros E V. apply extends_length in E. unfold Ref.valid in *. lia.
Qed.

Lemma read_extends (m m' : Ref.mem) (p : Ref.slice) :
  extends m m' -> Ref.valid m p -> Ref.read p m' = Ref.read p m.
Proof.
  intros [x ->] V. now apply read_app.
Qed.

Lemma valid_tree_extends (m m' : Ref.mem) (kd : Ref.kdNode) :
  extends m m' -> Ref.valid_tree m kd -> Ref.valid_tree m' kd.
Proof.
  intros E. induction kd as [|p s l IHl r IHr]; simpl; [auto|].
  intros (Vp & Vl & Vr). repeat split; eauto using valid_extends.
Qed.

Lemma tree_of_extends (m m' : Ref.mem) (kd : Ref.kdNode) :
  extends m m' -> Ref.valid_tree m kd -> tree_of m' kd = tree_of m kd.
Proof.
  intros E. induction kd as [|p s l IHl r IHr]; simpl; [auto|].
  intros (Vp & Vl & Vr). rewrite (read_extends m m' p E Vp), IHl, IHr by assumption.
  reflexivity.
Qed.

Lemma Sqd_from_read (m : Ref.mem) (p q : Ref.slice) :
  forall todo dim sum,
    dim + todo = Ref.len p -> Ref.valid m p ->
    Ref.Sqd_from todo dim p q sum m
    = reading (Sqd_from (skipn dim (Ref.read p m)) dim (Ref.read q m) sum) m.
Proof.
  induction todo as [|todo IH]; intros dim sum H V; cbn [Ref.Sqd_from].
  - rewrite skipn_all2 by (rewrite read_length by assumption; lia). reflexivity.
  - unfold Ref.mbind. rewrite load_read.
    destruct (index_lt (Ref.read p m) dim) as (a & Ea).
    { rewrite read_length by assumption. lia. }
    rewrite Ea. cbn [reading].
    rewrite (skipn_cons_nth (Ref.read p m) dim a) by now apply index_Ok. cbn [Sqd_from]. rewrite load_read.
    destruct (index (Ref.read q m) dim) as [b| |]; cbn [reading bind]; try reflexivity.
    apply IH; [lia | assumption].
Qed.

Lemma Sqd_read (m : Ref.mem) (p q : Ref.slice) :
  Ref.valid m p -> Ref.Sqd p q m = reading (Sqd (Ref.read p m) (Ref.read q m)) m.
Proof.
  intros V. unfold Ref.Sqd, Sqd.
  rewrite (Sqd_from_read m p q (Ref.len p) 0 0%Q) by (auto; lia). reflexivity.
Qed.

Lemma mbind_Ok {A B : Type} (c : Ref.M A) (k : A -> Ref.M B) (m m' : Ref.mem) (a : A) :
  c m = Ok (a, m') -> Ref.mbind c k m = k a m'.
Proof.
  intros E. unfold Ref.mbind. now rewrite E.
Qed.

Lemma mbind_Panic {A B : Type} (c : Ref.M A) (k : A -> Ref.M B) (m : Ref.mem) :
  c m = Panic -> Ref.mbind c k m = Panic.
Proof.
  intros E. unfold Ref.mbind. now rewrite E.
Qed.

Lemma Copy_spec (m : Ref.mem) (hr : Ref.HyperRect) :
  Ref.valid_box m hr ->
  exists c m',
    Ref.Copy hr m = Ok (c, m') /\
    extends m m' /\
    length m' = length m + Ref.len (Ref.Min hr) + Ref.len (Ref.Max hr) /\
    Ref.ptr (Ref.Min c) = length m /\
    Ref.len (Ref.Min c) = Ref.len (Ref.Min hr) /\
    Ref.ptr (Ref.Max c) = length m + Ref.len (Ref.Min hr) /\
    Ref.len (Ref.Max c) = Ref.len (Ref.Max hr) /\
    box_of m' c = box_of m hr.
Proof.
  intros [Vn Vx].
  pose proof (read_length m _ Vn) as Ln. pose proof (read_length m _ Vx) as Lx.
  exists {| Ref.Min := {| Ref.ptr := length m; Ref.len := Ref.len (Ref.Min hr) |};
            Ref.Max := {| Ref.ptr := length (m ++ Ref.read (Ref.Min hr) m);
                          Ref.len := Ref.len (Ref.Max hr) |} |},
         ((m ++ Ref.read (Ref.Min hr) m) ++ Ref.read (Ref.Max hr) m).
  split.
  { unfold Ref.Copy, Ref.mbind, Ref.appendCopy, Ref.ret.
    rewrite (read_app m _ _ Vx). reflexivity. }
  cbn [Ref.Min Ref.Max Ref.ptr Ref.len].
  rewrite !length_app, Ln, Lx.
  repeat split; try lia.
  - exists (Ref.read (Ref.Min hr) m ++ Ref.read (Ref.Max hr) m). now rewrite app_assoc.
  - unfold box_of. cbn [Ref.Min Ref.Max]. f_equal.
    + rewrite <- app_assoc.
      apply nth_error_ext. intros j. rewrite !nth_error_read. cbn [Ref.ptr Ref.len].
      destruct (j <? Ref.len (Ref.Min hr)) eqn:J; [|reflexivity].
      apply Nat.ltb_lt in J.
      rewrite nth_error_app2, nth_error_app1 by lia.
      replace (length m + j - length m) with j by lia.
      rewrite nth_error_read. apply Nat.ltb_lt in J. rewrite J. reflexivity.
    + apply nth_error_ext. intros j. rewrite !nth_error_read. cbn [Ref.ptr Ref.len].
      destruct (j <? Ref.len (Ref.Max hr)) eqn:J; [|reflexivity].
      rewrite nth_error_app2 by (rewrite length_app; lia).
      rewrite length_app, Ln.
      replace (length m + Ref.len (Ref.Min hr) + j - (length m + Ref.len (Ref.Min hr)))
        with j by lia.
      rewrite nth_error_read, J. reflexivity.
Qed.

Lemma box_of_reads (m m' : Ref.mem) (c hr : Ref.HyperRect) :
  box_of m' c = box_of m hr ->
  Ref.read (Ref.Min c) m' = Ref.read (Ref.Min hr) m /\
  Ref.read (Ref.Max c) m' = Ref.read (Ref.Max hr) m.
Proof.
  unfold box_of. intros E. injection E as E1 E2. auto.
Qed.

Lemma nn_refines (target : Ref.slice) (kd : Ref.kdNode) :
  forall (hr : Ref.HyperRect) (B : dist) (m : Ref.mem),
    Ref.valid_tree m kd -> Ref.valid m target -> Ref.valid_box m hr ->
    agrees m kd (Ref.nn kd target hr B m)
      (nn (tree_of m kd) (Ref.read target m) (box_of m hr) B).
Proof.
  induction kd as [|pivot s l IHl r IHr]; intros hr B m Vt Vtg Vb.
  - simpl. split; [reflexivity|]. split; [apply extends_refl | discriminate].
  - destruct Vt as (Vp & Vl & Vr).
    cbn [Ref.nn tree_of nn Copy Min Max app box_of].
    set (P := Ref.read pivot m). set (T := Ref.read target m).
    set (rn := Ref.read (Ref.Min hr) m). set (rx := Ref.read (Ref.Max hr) m).
    destruct (Copy_spec m hr Vb)
      as (leftHr & m1 & Ec1 & X1 & L1 & Pn1 & Ln1 & Px1 & Lx1 & B1).
    assert (Vb1 : Ref.valid_box m1 hr)
      by (destruct Vb; split; eapply valid_extends; eauto).
    destruct (Copy_spec m1 hr Vb1)
      as (rightHr & m2 & Ec2 & X2 & L2 & Pn2 & Ln2 & Px2 & Lx2 & B2).
    rewrite (mbind_Ok _ _ _ _ _ Ec1), (mbind_Ok _ _ _ _ _ Ec2).
    destruct Vb as [Vn Vx].
    assert (X02 : extends m m2) by (eapply extends_trans; eauto).
    apply box_of_reads in B1 as [Rn1 Rx1]. apply box_of_reads in B2 as [Rn2 Rx2].
    rewrite (read_extends m m1 _ X1 Vn) in Rn2. rewrite (read_extends m m1 _ X1 Vx) in Rx2.
    fold rn in Rn1, Rn2. fold rx in Rx1, Rx2.
    assert (Vln1 : Ref.valid m1 (Ref.Min leftHr)) by (unfold Ref.valid; lia).
    assert (Vlx1 : Ref.valid m1 (Ref.Max leftHr)) by (unfold Ref.valid; lia).
    assert (Vrn2 : Ref.valid m2 (Ref.Min rightHr)) by (unfold Ref.valid; lia).
    assert (Vrx2 : Ref.valid m2 (Ref.Max rightHr)) by (unfold Ref.valid; lia).
    assert (Vln2 : Ref.valid m2 (Ref.Min leftHr)) by exact (valid_extends m1 m2 _ X2 Vln1).
    assert (Vlx2 : Ref.valid m2 (Ref.Max leftHr)) by exact (valid_extends m1 m2 _ X2 Vlx1).
    rewrite <- (read_extends m1 m2 _ X2 Vln1) in Rn1.
    rewrite <- (read_extends m1 m2 _ X2 Vlx1) in Rx1.
    (* pivot[s] *)
    assert (RP2 : Ref.read pivot m2 = P) by (apply read_extends; assumption).
    destruct (index P s) as [ps| |] eqn:Eps; cbn [bind];
      [| rewrite mbind_Panic by (rewrite load_read, RP2, Eps; reflexivity); reflexivity
       | exfalso; eapply index_fuel; eauto ].
    rewrite (mbind_Ok _ _ m2 m2 ps) by (rewrite load_read, RP2, Eps; reflexivity).
    (* leftHr.Max[s] = pivot[s] *)
    pose proof (store_assign m2 (Ref.Max leftHr) s ps Vlx2) as St.
    destruct (Ref.store (Ref.Max leftHr) s ps m2) as [[[] m3]| |] eqn:Es;
      [| rewrite Rx1 in St; rewrite St; rewrite mbind_Panic by assumption; reflexivity
       | contradiction ].
    destruct St as (Em3 & Hsx & As). rewrite Rx1 in As. rewrite As. cbn [bind].
    rewrite (mbind_Ok _ _ _ _ _ Es).
    assert (Len3 : length m3 = length m2) by (rewrite Em3; apply poke_length).
    assert (X03 : extends m m3).
    { rewrite Em3. apply extends_poke; [assumption | lia]. }
    assert (RP3 : Ref.read pivot m3 = P) by (apply read_extends; assumption).
    rewrite (mbind_Ok _ _ m3 m3 ps) by (rewrite load_read, RP3, Eps; reflexivity).
    (* rightHr.Min[s] = pivot[s] *)
    assert (Vrn3 : Ref.valid m3 (Ref.Min rightHr)) by (unfold Ref.valid in *; lia).
    assert (Rn3 : Ref.read (Ref.Min rightHr) m3 = rn).
    { rewrite Em3, read_poke_other; [assumption | lia]. }
    pose proof (store_assign m3 (Ref.Min rightHr) s ps Vrn3) as St.
    destruct (Ref.store (Ref.Min rightHr) s ps m3) as [[[] m4]| |] eqn:Es';
      [| rewrite Rn3 in St; rewrite St; rewrite mbind_Panic by assumption; reflexivity
       | contradiction ].
    destruct St as (Em4 & Hsn & As'). rewrite Rn3 in As'. rewrite As'. cbn [bind].
    rewrite (mbind_Ok _ _ _ _ _ Es').
    assert (Len4 : length m4 = length m2) by (rewrite Em4, poke_length; assumption).
    assert (X04 : extends m m4).
    { rewrite Em4. apply extends_poke; [assumption | lia]. }
    (* the two boxes as the memory now has them *)
    assert (BL : box_of m4 leftHr = {| Min := rn; Max := Ref.read (Ref.Max leftHr) m3 |}).
    { unfold box_of. f_equal.
      - rewrite Em4, read_poke_other by lia. rewrite Em3, read_poke_other by lia.
        assumption.
      - rewrite Em4, read_poke_other by lia. reflexivity. }
    assert (BR : box_of m4 rightHr = {| Min := Ref.read (Ref.Min rightHr) m4; Max := rx |}).
    { unfold box_of. f_equal.
      rewrite Em4, read_poke_other by lia. rewrite Em3, read_poke_other by lia.
      assumption. }
    set (vleft := {| Min := rn; Max := Ref.read (Ref.Max leftHr) m3 |}) in *.
    set (vright := {| Min := Ref.read (Ref.Min rightHr) m4; Max := rx |}) in *.
    assert (VL4 : Ref.valid_box m4 leftHr) by (split; unfold Ref.valid in *; lia).
    assert (VR4 : Ref.valid_box m4 rightHr) by (split; unfold Ref.valid in *; lia).
    (* target[s] <= pivot[s] *)
    assert (RT4 : Ref.read target m4 = T) by (apply read_extends; assumption).
    assert (RP4 : Ref.read pivot m4 = P) by (apply read_extends; assumption).
    destruct (index T s) as [ts| |] eqn:Ets; cbn [bind];
      [| rewrite mbind_Panic by (rewrite load_read, RT4, Ets; reflexivity); reflexivity
       | exfalso; eapply index_fuel; eauto ].
    rewrite (mbind_Ok _ _ m4 m4 ts) by (rewrite load_read, RT4, Ets; reflexivity).
    rewrite (mbind_Ok _ _ m4 m4 ps) by (rewrite load_read, RP4, Eps; reflexivity).
    set (c := Qle_bool ts ps).
    (* the near side *)
    assert (IHn : agrees m4 (if c then l else r)
                    (Ref.nn (if c then l else r) target (if c then leftHr else rightHr) B m4)
                    (nn (if c then tree_of m l else tree_of m r) T
                        (if c then vleft else vright) B)).
    { rewrite <- RT4. destruct c.
      - rewrite <- BL, <- (tree_of_extends m m4 l X04 Vl).
        apply IHl; eauto using valid_tree_extends, valid_extends.
      - rewrite <- BR, <- (tree_of_extends m m4 r X04 Vr).
        apply IHr; eauto using valid_tree_extends, valid_extends. }
    assert (Vpiv : forall kd' p, kd' = l \/ kd' = r -> In p (pivots kd') -> Ref.valid m p).
    { assert (G : forall kd', Ref.valid_tree m kd' -> forall p, In p (pivots kd') -> Ref.valid m p).
      { induction kd' as [|p' s' l' IH1 r' IH2]; simpl; [tauto|].
        intros (V1 & V2 & V3) p [<-|H]; [assumption|].
        apply in_app_or in H as [H|H]; auto. }
      intros kd' p [->| ->]; apply G; assumption. }
    destruct (Ref.nn (if c then l else r) target (if c then leftHr else rightHr) B m4)
      as [[[[n1 d1] nv1] m5]| |] eqn:E1;
      [| rewrite IHn; rewrite mbind_Panic by assumption; reflexivity
       | contradiction ].
    destruct IHn as (En & X45 & In1). cbn [fst] in In1.
    rewrite En. cbn [bind answer_of]. rewrite (mbind_Ok _ _ _ _ _ E1).
    assert (X05 : extends m m5) by (eapply extends_trans; eauto).
    assert (RT5 : Ref.read target m5 = T) by (apply read_extends; assumption).
    assert (RP5 : Ref.read pivot m5 = P) by (apply read_extends; assumption).
    rewrite (mbind_Ok _ _ m5 m5 ps) by (rewrite load_read, RP5, Eps; reflexivity).
    rewrite (mbind_Ok _ _ m5 m5 ts) by (rewrite load_read, RT5, Ets; reflexivity).
    assert (A1 : option_map (fun p => Ref.read p m4) n1 = option_map (fun p => Ref.read p m) n1).
    { destruct n1 as [p|]; [|reflexivity]. simpl. f_equal.
      apply read_extends; [assumption|].
      apply (Vpiv (if c then l else r)); [destruct c; auto | auto]. }
    rewrite A1.
    assert (In1' : forall p, n1 = Some p -> In p (pivots (Ref.Node pivot s l r))).
    { intros p Hp. simpl. right. apply in_or_app. specialize (In1 p Hp). destruct c; auto. }
    destruct (dist_ltb (if dist_ltb d1 B then d1 else B) (Fin _)).
    { unfold Ref.ret. split; [reflexivity|]. split; assumption. }
    (* the pivot *)
    assert (VP5 : Ref.valid m5 pivot) by (eapply valid_extends; eauto).
    pose proof (Sqd_read m5 pivot target VP5) as Sq. rewrite RP5, RT5 in Sq.
    destruct (Sqd P T) as [vp| |] eqn:Evp; cbn [bind reading] in *;
      [| rewrite mbind_Panic by assumption; reflexivity
       | ].
    2:{ exfalso. clear - Evp. unfold Sqd in Evp. revert Evp.
        generalize 0%Q at 1. generalize 0. generalize P.
        induction P0 as [|a p IH]; intros dim sum E; simpl in E; [discriminate|].
        destruct (index T dim) eqn:Ei; cbn [bind] in E; try discriminate; eauto.
        eapply index_fuel; eauto. }
    rewrite (mbind_Ok _ _ _ _ _ Sq).
    set (closer := dist_ltb (Fin vp) d1).
    set (B2' := if closer then if closer then Fin vp else d1
                else if dist_ltb d1 B then d1 else B).
    (* the far side *)
    assert (IHf : agrees m5 (if c then r else l)
                    (Ref.nn (if c then r else l) target (if c then rightHr else leftHr) B2' m5)
                    (nn (if c then tree_of m r else tree_of m l) T
                        (if c then vright else vleft) B2')).
    { rewrite <- RT5.
      assert (X45' : extends m4 m5) by assumption.
      destruct c.
      - rewrite <- BR, <- (tree_of_extends m m5 r X05 Vr).
        replace (box_of m4 rightHr) with (box_of m5 rightHr)
          by (destruct VR4; unfold box_of; f_equal; apply read_extends; assumption).
        apply IHr; [eauto using valid_tree_extends | eauto using valid_extends |].
        destruct VR4; split; eapply valid_extends; eauto.
      - rewrite <- BL, <- (tree_of_extends m m5 l X05 Vl).
        replace (box_of m4 leftHr) with (box_of m5 leftHr)
          by (destruct VL4; unfold box_of; f_equal; apply read_extends; assumption).
        apply IHl; [eauto using valid_tree_extends | eauto using valid_extends |].
        destruct VL4; split; eapply valid_extends; eauto. }
    destruct (Ref.nn (if c then r else l) target (if c then rightHr else leftHr) B2' m5)
      as [[[[n2 d2] nv2] m6]| |] eqn:E2;
      [| rewrite IHf; rewrite mbind_Panic by assumption; reflexivity
       | contradiction ].
    destruct IHf as (Ef & X56 & In2). cbn [fst] in In2.
    rewrite Ef. cbn [bind answer_of]. rewrite (mbind_Ok _ _ _ _ _ E2).
    assert (X06 : extends m m6) by (eapply extends_trans; eauto).
    assert (A2 : option_map (fun p => Ref.read p m5) n2 = option_map (fun p => Ref.read p m) n2).
    { destruct n2 as [p|]; [|reflexivity]. simpl. f_equal.
      apply read_extends; [assumption|].
      apply (Vpiv (if c then r else l)); [destruct c; auto | auto]. }
    rewrite A2.
    destruct (dist_ltb d2 (if closer then Fin vp else d1)); unfold Ref.ret.
    + split; [reflexivity|]. split; [assumption|].
      intros p Hp. cbn [fst] in Hp. simpl. right. apply in_or_app.
      specialize (In2 p Hp). destruct c; auto.
    + split; [|split; [assumption|]].
      * cbn [answer_of]. destruct closer; reflexivity.
      * intros p Hp. cbn [fst] in Hp. destruct closer.
        -- injection Hp as <-. simpl. auto.
        -- auto.
Qed.

(** A query under reference semantics answers what the query on the values
    answers, and leaves the [Bounds] of the tree as they were. *)
Corollary Nearest_refines (t : Ref.KdTree) (p : Ref.slice) (m : Ref.mem) :
  Ref.valid_tree m (Ref.n t) -> Ref.valid m p -> Ref.valid_box m (Ref.Bounds t) ->
  agrees m (Ref.n t) (Ref.Nearest t p m)
    (Nearest {| n := tree_of m (Ref.n t); Bounds := box_of m (Ref.Bounds t) |}
       (Ref.read p m)).
Proof.
  intros Vt Vp Vb. unfold Ref.Nearest, Nearest. cbn [n Bounds].
  now apply nn_refines.
Qed.

Corollary Nearest_keeps_Bounds (t : Ref.KdTree) (p : Ref.slice) (m : Ref.mem)
    (r : option Ref.slice * dist * nat) (m' : Ref.mem) :
  Ref.valid_box m (Ref.Bounds t) ->
  Ref.Nearest t p m = Ok (r, m') ->
  box_of m' (Ref.Bounds t) = box_of m (Ref.Bounds t).
Proof.
  intros Vb E. unfold Ref.Nearest in E.
  destruct (nn_extends _ _ _ _ _ _ _ E) as (fresh & ->).
  destruct Vb. unfold box_of. now rewrite !read_app.
Qed.

(** * Further properties of the code *)

(** ** [Sqd] *)

Lemma Sqd_from_closed (p : Point) :
  forall (pre q : Point) (sum : float64),
    Sqd_from p (length pre) (pre ++ q) sum
    = if length p <=? length q
      then Ok (fold_left (fun acc ab => (acc + (fst ab - snd ab) * (fst ab - snd ab))%Q)
                 (combine p q) sum)
      else Panic.
Proof.
  induction p as [|a p IH]; intros pre q sum; [reflexivity|].
  destruct q as [|b q].
  - simpl. rewrite index_ge by (rewrite app_nil_r; lia). reflexivity.
  - cbn [Sqd_from]. rewrite index_mid. cbn [bind].
    specialize (IH (pre ++ [b]) q (sum + (a - b) * (a - b))%Q).
    rewrite length_app, <- app_assoc in IH. simpl in IH.
    replace (length pre + 1) with (S (length pre)) in IH by lia.
    rewrite IH. reflexivity.
Qed.

Lemma Sqd_closed (p q : Point) :
  Sqd p q = if length p <=? length q then Ok (sum_sq p q) else Panic.
Proof.
  exact (Sqd_from_closed p [] q 0%Q).
Qed.

(** X1.  [Sqd] returns exactly when its argument has at least as many
    coordinates as its receiver, and then the value is the sum of the
    squared differences over the receiver's dimensions; with a shorter
    argument it panics on the first missing coordinate. *)
Theorem Sqd_outcome (p q : Point) :
  Sqd p q = if length p <=? length q then Ok (sum_sq p q) else Panic.
Proof.
  apply Sqd_closed.
Qed.

(** X2.  The coordinates of the argument beyond the receiver's dimension
    are ignored without any error. *)
Theorem Sqd_ignores_extra (p q extra : Point) :
  length p <= length q -> Sqd p (q ++ extra) = Sqd p q.
Proof.
  intros H. rewrite !Sqd_closed, length_app. unfold sum_sq.
  replace (length p <=? length q + length extra) with true
    by (symmetry; apply Nat.leb_le; lia).
  replace (length p <=? length q) with true by (symmetry; apply Nat.leb_le; lia).
  f_equal. f_equal.
  revert q H. induction p as [|a p IH]; intros [|b q] H; simpl in *; try lia; auto.
  f_equal. apply IH. lia.
Qed.

Lemma Sqd_ignores_extra_witness :
  Sqd [1; 2]%Q ([4; 6] ++ [100])%Q = Sqd [1; 2]%Q [4; 6]%Q.
Proof.
  apply (Sqd_ignores_extra [1; 2]%Q [4; 6]%Q [100]%Q). simpl. lia.
Defined.

(** X3.  Between points of the same dimension [Sqd] is symmetric; between
    points of different dimensions it is not: it returns when called on the
    shorter point and panics when called on the longer one. *)
Theorem Sqd_symmetry (p q : Point) :
  (length p = length q ->
   exists v v', Sqd p q = Ok v /\ Sqd q p = Ok v' /\ (v == v')%Q) /\
  (length p < length q ->
   (exists v, Sqd p q = Ok v) /\ Sqd q p = Panic).
Proof.
  split.
  - apply Sqd_sym.
  - intros H. split; [apply Sqd_total; lia | apply Sqd_short; exact H].
Qed.

Lemma Sqd_symmetry_witness :
  (exists v v', Sqd [1; 2]%Q [4; 6]%Q = Ok v /\ Sqd [4; 6]%Q [1; 2]%Q = Ok v' /\ (v == v')%Q) /\
  ((exists v, Sqd [1]%Q [4; 6]%Q = Ok v) /\ Sqd [4; 6]%Q [1]%Q = Panic).
Proof.
  split.
  - apply (proj1 (Sqd_symmetry [1; 2]%Q [4; 6]%Q)). reflexivity.
  - apply (proj2 (Sqd_symmetry [1]%Q [4; 6]%Q)). simpl. lia.
Defined.

Lemma Sqd_from_agree (p : Point) :
  forall (dim : nat) (q : Point) (sum v : float64),
    Sqd_from p dim q sum = Ok v ->
    (forall i a b, nth_error p i = Some a -> nth_error q (dim + i) = Some b -> (a == b)%Q) ->
    (v == sum)%Q.
Proof.
  induction p as [|x p IH]; intros dim q sum v H All.
  - simpl in H. injection H as ->. reflexivity.
  - simpl in H. destruct (index q dim) as [y| |] eqn:Ey; cbn [bind] in H; try discriminate.
    apply index_Ok in Ey.
    assert (Exy : (x == y)%Q).
    { apply (All 0 x y); [reflexivity | now rewrite Nat.add_0_r]. }
    assert (Z : ((x - y) * (x - y) == 0)%Q) by (rewrite Exy; ring).
    assert (E : (v == sum + (x - y) * (x - y))%Q).
    { apply (IH _ _ _ _ H). intros i a b Ha Hb. apply (All (S i) a b); [exact Ha|].
      now replace (dim + S i) with (S dim + i) by lia. }
    lra.
Qed.

(** X4.  A squared distance is never negative, and it is zero between two
    points that agree on every coordinate of the receiver, a point and
    itself among them.  (That a zero distance makes the points agree is
    not stated: a square of a small difference may vanish.) *)
Theorem Sqd_nonneg_zero (p q : Point) (v : float64) :
  Sqd p q = Ok v ->
  (0 <= v)%Q /\
  ((forall i a b, nth_error p i = Some a -> nth_error q i = Some b -> (a == b)%Q) ->
   (v == 0)%Q).
Proof.
  intros H. split.
  - exact (Sqd_from_ge _ _ _ _ _ H).
  - exact (Sqd_from_agree p 0 q 0%Q v H).
Qed.

Lemma Sqd_nonneg_zero_witness :
  (0 <= 0)%Q /\
  ((forall i a b, nth_error [1; 2]%Q i = Some a -> nth_error [1; 2; 7]%Q i = Some b ->
                  (a == b)%Q) ->
   (0 == 0)%Q).
Proof.
  apply (Sqd_nonneg_zero [1; 2]%Q [1; 2; 7]%Q 0%Q). vm_compute. reflexivity.
Defined.

(** X5.  The squared difference along any one coordinate is at most the
    squared distance: a point across a splitting plane is at least as far
    as the plane. *)
Theorem Sqd_bounds_coordinate (q target : Point) (s : nat) (a b v : float64) :
  Sqd q target = Ok v -> nth_error q s = Some a -> nth_error target s = Some b ->
  ((a - b) * (a - b) <= v)%Q.
Proof.
  intros H Ha Hb. pose proof (Sqd_from_coord q 0 target 0%Q v s a b H Ha Hb). lra.
Qed.

Lemma Sqd_bounds_coordinate_witness : ((2 - 6) * (2 - 6) <= 25)%Q.
Proof.
  apply (Sqd_bounds_coordinate [1; 2]%Q [4; 6]%Q 1 2%Q 6%Q 25%Q);
    vm_compute; reflexivity.
Defined.

(** ** [part]: [Len], [Less], [Swap] *)

Lemma put_lt (l : list Point) (v : Point) :
  forall i, i < length l ->
    exists l', put l i v = Ok l' /\ length l' = length l /\
               forall k, nth_error l' k = if k =? i then Some v else nth_error l k.
Proof.
  induction l as [|h t IH]; intros [|i] H; simpl in *; try lia.
  - exists (v :: t). repeat split. intros [|k]; reflexivity.
  - destruct (IH i) as (t' & E & L & N); [lia|]. rewrite E. cbn [bind].
    exists (h :: t'). split; [reflexivity|]. split; [simpl; congruence|].
    intros [|k]; simpl; [reflexivity | apply N].
Qed.

Lemma put_ge (l : list Point) (v : Point) :
  forall i, length l <= i -> put l i v = Panic.
Proof.
  induction l as [|h t IH]; intros [|i] H; simpl in *; try lia; auto.
  rewrite IH by lia. reflexivity.
Qed.

Lemma put_perm (l : list Point) (v x : Point) :
  forall i l', nth_error l i = Some x -> put l i v = Ok l' ->
               Permutation (x :: l') (v :: l).
Proof.
  induction l as [|h t IH]; intros [|i] l' Hx E; simpl in *; try discriminate.
  - injection Hx as ->. injection E as <-. apply perm_swap.
  - destruct (put t i v) as [t'| |] eqn:Et; cbn [bind] in E; try discriminate.
    injection E as <-.
    rewrite perm_swap. rewrite (IH i t' Hx Et). apply perm_swap.
Qed.

(** X6.  [Swap] returns exactly when both indices are within the slice and
    panics otherwise.  It exchanges the two elements and leaves every other
    element in place, so the slice afterwards is a permutation of the slice
    before, and swapping the same two indices again restores it. *)
Theorem Swap_exchanges (p : part) (i j : nat) :
  (i < Len p -> j < Len p ->
   exists l,
     Swap p i j = Ok l /\
     nth_error l i = nth_error (pts p) j /\
     nth_error l j = nth_error (pts p) i /\
     (forall k, k <> i -> k <> j -> nth_error l k = nth_error (pts p) k) /\
     Permutation l (pts p) /\
     Swap {| pts := l; dPart := dPart p |} i j = Ok (pts p)) /\
  (Len p <= i \/ Len p <= j -> Swap p i j = Panic).
Proof.
  unfold Len. destruct p as [l d]. cbn [pts dPart]. split.
  - intros Hi Hj. unfold Swap. cbn [pts dPart].
    destruct (index_lt l j Hj) as (pj & Ej). destruct (index_lt l i Hi) as (pi & Ei).
    rewrite Ej, Ei. cbn [bind].
    destruct (put_lt l pj i Hi) as (l1 & E1 & L1 & N1). rewrite E1. cbn [bind].
    destruct (put_lt l1 pi j) as (l2 & E2 & L2 & N2); [lia|]. rewrite E2.
    apply index_Ok in Ei, Ej.
    exists l2. split; [reflexivity|].
    assert (Ni : nth_error l2 i = nth_error l j).
    { rewrite N2, N1, Nat.eqb_refl.
      destruct (i =? j) eqn:C; [apply Nat.eqb_eq in C; subst; congruence | congruence]. }
    assert (Nj : nth_error l2 j = nth_error l i).
    { rewrite N2, Nat.eqb_refl. congruence. }
    assert (Nk : forall k, k <> i -> k <> j -> nth_error l2 k = nth_error l k).
    { intros k Hki Hkj. rewrite N2, N1.
      apply Nat.eqb_neq in Hki, Hkj. now rewrite Hki, Hkj. }
    repeat split; auto.
    + (* a permutation *)
      assert (P1 : Permutation (pi :: l1) (pj :: l)) by (eapply put_perm; eauto).
      assert (X : nth_error l1 j = Some pj).
      { rewrite N1. destruct (j =? i) eqn:C; [reflexivity | exact Ej]. }
      assert (P2 : Permutation (pj :: l2) (pi :: l1)) by (eapply put_perm; eauto).
      apply Permutation_cons_inv with pj. now rewrite P2.
    + (* swapping back *)
      assert (Ej2 : index l2 j = Ok pi) by (apply index_Ok; congruence).
      assert (Ei2 : index l2 i = Ok pj) by (apply index_Ok; congruence).
      rewrite Ej2, Ei2. cbn [bind].
      destruct (put_lt l2 pi i) as (l3 & E3 & L3 & N3); [lia|]. rewrite E3. cbn [bind].
      destruct (put_lt l3 pj j) as (l4 & E4 & L4 & N4); [lia|]. rewrite E4.
      f_equal. apply nth_error_ext. intros k. rewrite N4, N3.
      destruct (k =? j) eqn:Cj.
      * apply Nat.eqb_eq in Cj. subst k. congruence.
      * destruct (k =? i) eqn:Ci.
        -- apply Nat.eqb_eq in Ci. subst k. congruence.
        -- apply Nk; now apply Nat.eqb_neq.
  - intros H. unfold Swap. cbn [pts dPart].
    destruct (Nat.lt_ge_cases j (length l)) as [Hj|Hj].
    + destruct (index_lt l j Hj) as (pj & ->). cbn [bind].
      destruct H as [H|H]; [|lia]. rewrite (index_ge l i H). reflexivity.
    + rewrite (index_ge l j Hj). reflexivity.
Qed.

Lemma Swap_exchanges_witness :
  exists l,
    Swap {| pts := wp_pts; dPart := 0 |} 1 4 = Ok l /\
    nth_error l 1 = nth_error wp_pts 4 /\
    nth_error l 4 = nth_error wp_pts 1 /\
    (forall k, k <> 1 -> k <> 4 -> nth_error l k = nth_error wp_pts k) /\
    Permutation l wp_pts /\
    Swap {| pts := l; dPart := 0 |} 1 4 = Ok wp_pts.
Proof.
  apply (proj1 (Swap_exchanges {| pts := wp_pts; dPart := 0 |} 1 4));
    unfold Len; simpl; lia.
Defined.

Lemma Less_key (p : part) (i j : nat) (b : bool) :
  Less p i j = Ok b ->
  exists x y,
    nth_error (pts p) i = Some x /\ nth_error (pts p) j = Some y /\
    dPart p < length x /\ dPart p < length y /\
    b = Qltb (key (dPart p) x) (key (dPart p) y).
Proof.
  unfold Less. intros H.
  destruct (index (pts p) i) as [x| |] eqn:Ex; cbn [bind] in H; try discriminate.
  destruct (index x (dPart p)) as [a| |] eqn:Ea; cbn [bind] in H; try discriminate.
  destruct (index (pts p) j) as [y| |] eqn:Ey; cbn [bind] in H; try discriminate.
  destruct (index y (dPart p)) as [c| |] eqn:Ec; cbn [bind] in H; try discriminate.
  injection H as <-. exists x, y.
  rewrite (index_key _ _ _ Ea), (index_key _ _ _ Ec).
  apply index_Ok in Ex, Ey, Ea, Ec.
  repeat split; auto; apply nth_error_Some; congruence.
Qed.

Lemma Less_defined_at (p : part) (i j : nat) (x y : Point) :
  nth_error (pts p) i = Some x -> nth_error (pts p) j = Some y ->
  dPart p < length x -> dPart p < length y ->
  Less p i j = Ok (Qltb (key (dPart p) x) (key (dPart p) y)).
Proof.
  intros Ex Ey Lx Ly. unfold Less.
  apply index_Ok in Ex, Ey. rewrite Ex. cbn [bind].
  destruct (index_lt x (dPart p) Lx) as (a & Ea). rewrite Ea. cbn [bind].
  rewrite Ey. cbn [bind].
  destruct (index_lt y (dPart p) Ly) as (c & Ec). rewrite Ec. cbn [bind].
  now rewrite (index_key _ _ _ Ea), (index_key _ _ _ Ec).
Qed.

(** X7.  Wherever it returns, [Less] is a strict weak order on the
    positions of the slice: no element is less than itself, two elements
    are never each less than the other, the relation is transitive, and two
    elements neither of which is less than the other have equal keys, which
    is the equality the pivot loop of the builder tests. *)
Theorem Less_strict_weak_order (p : part) :
  (forall i b, Less p i i = Ok b -> b = false) /\
  (forall i j, Less p i j = Ok true -> Less p j i = Ok false) /\
  (forall i j k, Less p i j = Ok true -> Less p j k = Ok true -> Less p i k = Ok true) /\
  (forall i j x y,
      Less p i j = Ok false -> Less p j i = Ok false ->
      nth_error (pts p) i = Some x -> nth_error (pts p) j = Some y ->
      Qeq_bool (key (dPart p) x) (key (dPart p) y) = true).
Proof.
  split; [|split; [|split]].
  - intros i b H. apply Less_key in H as (x & y & Ex & Ey & _ & _ & ->).
    assert (x = y) by congruence. subst y.
    apply Qltb_false. apply Qle_refl.
  - intros i j H. apply Less_key in H as (x & y & Ex & Ey & Lx & Ly & Hb).
    rewrite (Less_defined_at p j i y x Ey Ex Ly Lx). f_equal.
    symmetry in Hb. apply Qltb_true in Hb. apply Qltb_false. lra.
  - intros i j k H1 H2.
    apply Less_key in H1 as (x & y & Ex & Ey & Lx & Ly & Hb1).
    apply Less_key in H2 as (y' & z & Ey' & Ez & _ & Lz & Hb2).
    assert (y' = y) by congruence. subst y'.
    rewrite (Less_defined_at p i k x z Ex Ez Lx Lz). f_equal.
    symmetry in Hb1, Hb2. apply Qltb_true in Hb1, Hb2. apply Qltb_true. lra.
  - intros i j x y H1 H2 Ex Ey.
    apply Less_key in H1 as (x1 & y1 & Ex1 & Ey1 & _ & _ & Hb1).
    apply Less_key in H2 as (y2 & x2 & Ey2 & Ex2 & _ & _ & Hb2).
    assert (x1 = x) by congruence. assert (y1 = y) by congruence.
    assert (x2 = x) by congruence. assert (y2 = y) by congruence. subst.
    symmetry in Hb1, Hb2. apply Qltb_false in Hb1, Hb2.
    apply Qeq_bool_iff. lra.
Qed.

Lemma Less_strict_weak_order_witness :
  Less {| pts := wp_pts; dPart := 0 |} 1 0 = Ok false.
Proof.
  apply (proj1 (proj2 (Less_strict_weak_order {| pts := wp_pts; dPart := 0 |}))).
  vm_compute. reflexivity.
Defined.

Lemma StronglySorted_nth {A : Type} (R : A -> A -> Prop) (l : list A) :
  StronglySorted R l <->
  forall i j a b, i < j -> nth_error l i = Some a -> nth_error l j = Some b -> R a b.
Proof.
  induction l as [|h t IH]; split.
  - intros _ [|i] [|j] a b _ Ha; discriminate.
  - constructor.
  - intros S i j a b Hij Ha Hb. apply StronglySorted_inv in S as [St Fh].
    destruct j as [|j]; [lia|]. simpl in Hb. destruct i as [|i]; simpl in Ha.
    + injection Ha as <-. rewrite Forall_forall in Fh. apply Fh.
      eapply nth_error_In; eauto.
    + apply (proj1 IH St i j); auto. lia.
  - intros H. constructor.
    + apply (proj2 IH). intros i j a b Hij Ha Hb.
      apply (H (S i) (S j)); auto. lia.
    + apply Forall_forall. intros x Hx. apply In_nth_error in Hx as (jx & Hj).
      apply (H 0 (S jx)); auto. lia.
Qed.

(** X8.  On a slice whose points all have the key coordinate, the order
    the builder expects from [sort.Sort] is the absence of inversions as
    [Less] reports them: the slice is sorted exactly when no element is
    [Less] than an earlier one. *)
Theorem sorted_iff_no_inversion (p : part) :
  Forall (fun q => dPart p < length q) (pts p) ->
  (sorted_on (dPart p) (pts p) <->
   forall i j, i < j -> j < Len p -> Less p j i = Ok false).
Proof.
  intros Hd. rewrite Forall_forall in Hd. unfold sorted_on, Len.
  rewrite StronglySorted_nth. split.
  - intros H i j Hij Hj.
    destruct (nth_error (pts p) i) as [x|] eqn:Ex;
      [|apply nth_error_None in Ex; lia].
    destruct (nth_error (pts p) j) as [y|] eqn:Ey;
      [|apply nth_error_None in Ey; lia].
    assert (Lx : dPart p < length x) by (apply Hd; eapply nth_error_In; exact Ex).
    assert (Ly : dPart p < length y) by (apply Hd; eapply nth_error_In; exact Ey).
    rewrite (Less_defined_at p j i y x Ey Ex Ly Lx).
    f_equal. apply Qltb_false. exact (H i j x y Hij Ex Ey).
  - intros H i j a b Hij Ha Hb.
    assert (Hj : j < length (pts p)) by (apply nth_error_Some; congruence).
    specialize (H i j Hij Hj).
    assert (La : dPart p < length a) by (apply Hd; eapply nth_error_In; exact Ha).
    assert (Lb : dPart p < length b) by (apply Hd; eapply nth_error_In; exact Hb).
    rewrite (Less_defined_at p j i b a Hb Ha Lb La) in H.
    injection H as H. now apply Qltb_false in H.
Qed.

Lemma sorted_iff_no_inversion_witness :
  sorted_on 0 (insertionSort 0 wp_pts) <->
  forall i j, i < j -> j < Len {| pts := insertionSort 0 wp_pts; dPart := 0 |} ->
              Less {| pts := insertionSort 0 wp_pts; dPart := 0 |} j i = Ok false.
Proof.
  apply (sorted_iff_no_inversion {| pts := insertionSort 0 wp_pts; dPart := 0 |}).
  vm_compute. repeat constructor.
Defined.

(** ** [New]: the shape of the tree *)

Lemma advance_range (split : nat) (d : Point) (rest : list Point) :
  forall m0 m, advance rest split d m0 = Ok m -> m0 <= m <= m0 + length rest.
Proof.
  induction rest as [|next rest IH]; intros m0 m H; simpl in H.
  - injection H as <-. simpl. lia.
  - destruct (index next split) as [v| |]; cbn [bind] in H; try discriminate.
    destruct (index d split) as [dv| |]; cbn [bind] in H; try discriminate.
    destruct (Qeq_bool v dv).
    + apply IH in H. simpl. lia.
    + injection H as <-. simpl. lia.
Qed.

Lemma nk2_size (sort : nat -> list Point -> list Point) :
  (forall s l, Permutation (sort s l) l) ->
  forall (fuel : nat) (exset : list Point) (split : nat) kd pts',
    nk2 sort fuel exset split = Ok (kd, pts') ->
    length (points kd) = length exset /\ (kd = nilNode -> exset = []).
Proof.
  intros Hp. induction fuel as [|fuel IH]; intros exset split kd pts' H.
  - destruct exset; simpl in H; [|discriminate]. injection H as <- <-. auto.
  - destruct exset as [|p0 tl]; cbn [nk2] in H.
    { injection H as <- <-. auto. }
    set (exset := p0 :: tl) in *.
    destruct (negb (Less_defined split exset)); [discriminate|].
    assert (Len : length (sort split exset) = length exset)
      by (apply Permutation_length, Hp).
    set (sorted := sort split exset) in *.
    destruct (index sorted _) as [d| |]; cbn [bind] in H; try discriminate.
    destruct (advance _ split d _) as [m| |] eqn:Ea; cbn [bind] in H; try discriminate.
    apply advance_range in Ea. rewrite length_skipn in Ea.
    assert (Hm0 : length sorted / 2 < length sorted).
    { apply Nat.div_lt; [|lia]. rewrite Len. simpl. lia. }
    destruct (nk2 sort fuel (firstn m sorted) _) as [[l lpts]| |] eqn:El;
      cbn [bind] in H; try discriminate.
    destruct (nk2 sort fuel (skipn (m + 1) sorted) _) as [[r rpts]| |] eqn:Er;
      cbn [bind] in H; try discriminate.
    injection H as <- <-.
    apply IH in El as [El _], Er as [Er _].
    rewrite length_firstn in El. rewrite length_skipn in Er.
    split; [|discriminate].
    cbn [points length]. rewrite length_app, El, Er, <- Len. lia.
Qed.

(** X9.  The tree [New] returns has exactly as many nodes as the slice has
    points, whether coordinates repeat or not; it is empty only for the
    empty slice. *)
Theorem New_node_count (sort : nat -> list Point -> list Point)
    (pts : list Point) (bounds : HyperRect) (t : KdTree) (pts' : list Point) :
  sort_contract sort ->
  New sort pts bounds = Ok (t, pts') ->
  length (points (n t)) = length pts /\ (n t = nilNode -> pts = []).
Proof.
  intros Hc H. unfold New in H.
  destruct (nk2 sort (length pts) pts 0) as [[kd l]| |] eqn:E; cbn [bind] in H;
    try discriminate.
  injection H as <- <-. cbn [n].
  eapply nk2_size; [|exact E]. intros s l0. apply Hc.
Qed.

Lemma New_node_count_witness :
  exists t pts',
    New insertionSort tie_pts wp_box = Ok (t, pts') /\
    length (points (n t)) = length tie_pts /\ (n t = nilNode -> tie_pts = []).
Proof.
  destruct (New insertionSort tie_pts wp_box) as [[t pts']| |] eqn:E.
  - exists t, pts'. split; [reflexivity|].
    apply (New_node_count insertionSort tie_pts wp_box t pts' insertionSort_contract E).
  - vm_compute in E. discriminate.
  - vm_compute in E. discriminate.
Defined.

(** X10.  When no two points of the slice agree on a coordinate, the tree
    stores every point of the slice exactly once. *)
Theorem New_stores_all (sort : nat -> list Point -> list Point) (k : nat)
    (pts : list Point) (bounds : HyperRect) :
  sort_contract sort -> 0 < k -> all_dim k pts ->
  (forall s, s < k -> tie_free s pts) ->
  exists t pts',
    New sort pts bounds = Ok (t, pts') /\ Permutation (points (n t)) pts.
Proof.
  intros Hc Hk Hd TF.
  destruct (New_spec sort k pts bounds Hc Hk Hd)
    as (kd & pts' & E & _ & _ & _ & _ & _ & _ & All).
  exists {| n := kd; Bounds := bounds |}, pts'. split; [exact E | exact (All TF)].
Qed.

Lemma wp_tie_free : forall s, s < 2 -> tie_free s wp_pts.
Proof.
  intros [|[|s]] Hs; [| |lia]; apply distinct_keys_tie_free; reflexivity.
Qed.

Lemma New_stores_all_witness :
  exists t pts',
    New insertionSort wp_pts wp_box = Ok (t, pts') /\ Permutation (points (n t)) wp_pts.
Proof.
  apply (New_stores_all insertionSort 2 wp_pts wp_box).
  - exact insertionSort_contract.
  - lia.
  - repeat constructor.
  - exact wp_tie_free.
Defined.

Lemma nk2_balanced (sort : nat -> list Point -> list Point) (k : nat) :
  sort_contract sort ->
  forall (fuel : nat) (exset : list Point) (split : nat) kd pts',
    all_dim k exset -> split < k -> (forall s, s < k -> tie_free s exset) ->
    nk2 sort fuel exset split = Ok (kd, pts') ->
    2 ^ height kd <= Nat.max 1 (2 * length exset).
Proof.
  intros Hc. induction fuel as [|fuel IH]; intros exset split kd pts' Hd Hs TF H.
  - destruct exset; simpl in H; [|discriminate]. injection H as <- <-. simpl. lia.
  - destruct exset as [|p0 tl]; cbn [nk2] in H.
    { injection H as <- <-. simpl. lia. }
    set (exset := p0 :: tl) in *.
    destruct (negb (Less_defined split exset)); [discriminate|].
    destruct (Hc split exset) as [Perm _].
    assert (Len : length (sort split exset) = length exset)
      by (apply Permutation_length, Perm).
    assert (TFs : forall s, s < k -> tie_free s (sort split exset)).
    { intros s Hs'. eapply tie_free_perm; [symmetry; exact Perm | auto]. }
    assert (Ds : all_dim k (sort split exset)).
    { eapply all_dim_incl; [|exact Hd]. intros q Hq. eapply Permutation_in; eauto. }
    set (sorted := sort split exset) in *. clearbody sorted.
    assert (Hm0 : length sorted / 2 < length sorted).
    { apply Nat.div_lt; [|lia]. rewrite Len. simpl. lia. }
    set (m0 := length sorted / 2) in *.
    destruct (index sorted m0) as [d| |] eqn:Ed; cbn [bind] in H; try discriminate.
    apply index_Ok in Ed.
    assert (Ld : length d = k).
    { eapply all_dim_In; [exact Ds|]. eapply nth_error_In; eauto. }
    assert (Dr : all_dim k (skipn (m0 + 1) sorted)).
    { eapply all_dim_incl; [|exact Ds]. intros q. apply In_skipn. }
    destruct (advance_spec k split d Hs Ld _ m0 Dr) as (j & Ej & Lj & Keys).
    rewrite Ej in H. cbn [bind] in H. rewrite length_skipn in Lj.
    assert (j = 0) by exact (tie_free_stays split sorted m0 j d (TFs split Hs) Ed Keys Lj).
    subst j. rewrite Nat.add_0_r in H.
    rewrite Ld in H. destruct (next_split k split Hs) as [E2 Hs2]. rewrite E2 in H.
    destruct (nk2 sort fuel (firstn m0 sorted) _) as [[l lpts]| |] eqn:El;
      cbn [bind] in H; try discriminate.
    destruct (nk2 sort fuel (skipn (m0 + 1) sorted) _) as [[r rpts]| |] eqn:Er;
      cbn [bind] in H; try discriminate.
    injection H as <- <-.
    apply IH in El; [| eapply all_dim_incl; [|exact Ds]; intros q; apply In_firstn
                     | exact Hs2
                     | intros s Hs'; apply tie_free_firstn; auto].
    apply IH in Er; [| exact Dr
                     | exact Hs2
                     | intros s Hs'; apply tie_free_skipn; auto].
    rewrite length_firstn in El. rewrite length_skipn in Er.
    cbn [height]. rewrite Nat.pow_succ_r'.
    assert (Hl : 2 ^ height l <= Nat.max 1 (length sorted)).
    { subst m0. etransitivity; [exact El|].
      pose proof (Nat.Div0.mul_div_le (length sorted) 2). lia. }
    assert (Hr : 2 ^ height r <= Nat.max 1 (length sorted)).
    { subst m0. etransitivity; [exact Er|].
      pose proof (Nat.Div0.mul_div_le (length sorted) 2).
      pose proof (Nat.mul_succ_div_gt (length sorted) 2). lia. }
    rewrite <- Len.
    destruct (Nat.max_spec (height l) (height r)) as [[_ ->]|[_ ->]]; lia.
Qed.

(** X11.  When no two points of the slice agree on a coordinate the tree is
    balanced: its height is at most the binary logarithm of twice the
    number of points, that is [log2 n + 1] for [n] points. *)
Theorem New_balanced (sort : nat -> list Point -> list Point) (k : nat)
    (pts : list Point) (bounds : HyperRect) :
  sort_contract sort -> 0 < k -> all_dim k pts ->
  (forall s, s < k -> tie_free s pts) ->
  exists t pts',
    New sort pts bounds = Ok (t, pts') /\
    height (n t) <= Nat.log2 (2 * length pts).
Proof.
  intros Hc Hk Hd TF.
  destruct (New_spec sort k pts bounds Hc Hk Hd) as (kd & pts' & E & _).
  exists {| n := kd; Bounds := bounds |}, pts'. split; [exact E|]. cbn [n].
  unfold New in E.
  destruct (nk2 sort (length pts) pts 0) as [[kd' l]| |] eqn:E'; cbn [bind] in E;
    try discriminate.
  injection E as -> _.
  pose proof (nk2_balanced sort k Hc _ _ _ _ _ Hd Hk TF E') as B.
  destruct pts as [|p0 tl].
  - simpl in E'. injection E' as <- _. simpl. lia.
  - apply Nat.log2_le_pow2; [simpl; lia|].
    rewrite Nat.max_r in B by (simpl; lia). exact B.
Qed.

Lemma New_balanced_witness :
  exists t pts',
    New insertionSort wp_pts wp_box = Ok (t, pts') /\
    height (n t) <= Nat.log2 (2 * length wp_pts).
Proof.
  apply (New_balanced insertionSort 2 wp_pts wp_box).
  - exact insertionSort_contract.
  - lia.
  - repeat constructor.
  - exact wp_tie_free.
Defined.

Lemma firstn_repeat {A : Type} (x : A) :
  forall a count, a <= count -> firstn a (repeat x count) = repeat x a.
Proof.
  induction a as [|a IH]; intros [|count] H; simpl; try lia; auto.
  f_equal. apply IH. lia.
Qed.

Lemma skipn_repeat {A : Type} (x : A) :
  forall a count, skipn a (repeat x count) = repeat x (count - a).
Proof.
  induction a as [|a IH]; intros [|count]; simpl; auto.
Qed.

Lemma advance_repeat (p : Point) (split : nat) :
  split < length p ->
  forall r m0, advance (repeat p r) split p m0 = Ok (m0 + r).
Proof.
  intros Hs. destruct (index_lt p split Hs) as (v & Ev).
  induction r as [|r IH]; intros m0; simpl.
  - f_equal. lia.
  - rewrite Ev. cbn [bind].
    replace (Qeq_bool v v) with true by (symmetry; apply Qeq_bool_iff; reflexivity).
    rewrite IH. f_equal. lia.
Qed.

Lemma height_chain (p : Point) :
  forall count split, height (chain p count split) = count.
Proof.
  induction count as [|count IH]; intros split; simpl; [reflexivity|].
  rewrite IH. lia.
Qed.

Lemma nk2_repeat (sort : nat -> list Point -> list Point) (p : Point) :
  sort_contract sort ->
  forall fuel count split,
    count <= fuel -> split < length p ->
    nk2 sort fuel (repeat p count) split = Ok (chain p count split, repeat p count).
Proof.
  intros Hc. induction fuel as [|fuel IH]; intros count split Hf Hs.
  - replace count with 0 by lia. reflexivity.
  - destruct count as [|count]; [reflexivity|].
    change (repeat p (S count)) with (p :: repeat p count) at 1.
    cbn [nk2]. change (p :: repeat p count) with (repeat p (S count)).
    assert (Hd : all_dim (length p) (repeat p (S count))).
    { apply Forall_forall. intros q Hq. apply repeat_spec in Hq. now subst. }
    rewrite (Less_defined_dim (length p) split _ Hs Hd). cbn [negb].
    rewrite (Permutation_repeat p (S count) (proj1 (Hc split (repeat p (S count))))).
    rewrite repeat_length.
    assert (Hm0 : S count / 2 < S count) by (apply Nat.div_lt; lia).
    unfold index at 1. rewrite (nth_error_repeat p Hm0). cbn [bind].
    rewrite skipn_repeat, (advance_repeat p split Hs). cbn [bind].
    replace (S count / 2 + (S count - (S count / 2 + 1))) with count by lia.
    rewrite firstn_repeat by lia.
    assert (Hs2 : (if split + 1 =? length p then 0 else split + 1) < length p).
    { destruct (next_split (length p) split Hs) as [-> H2]. exact H2. }
    rewrite (IH count _) by (lia || exact Hs2). cbn [bind].
    rewrite !skipn_repeat. replace (S count - (count + 1)) with 0 by lia.
    replace (S count - count) with 1 by lia.
    destruct fuel; cbn [repeat nk2 bind firstn]; rewrite app_nil_r;
      cbn [chain]; rewrite <- repeat_cons; reflexivity.
Qed.

(** X12.  A slice of equal points is built into a chain: the cut moves to
    the last point at every level, every right subtree is absent, and the
    height of the tree is the number of points. *)
Theorem New_equal_points (sort : nat -> list Point -> list Point) (p : Point)
    (count : nat) (bounds : HyperRect) :
  sort_contract sort -> 0 < length p ->
  New sort (repeat p count) bounds
    = Ok ({| n := chain p count 0; Bounds := bounds |}, repeat p count) /\
  height (chain p count 0) = count.
Proof.
  intros Hc Hp. split; [|apply height_chain].
  unfold New. rewrite repeat_length.
  rewrite (nk2_repeat sort p Hc count count 0 (le_n _) Hp). reflexivity.
Qed.

Lemma New_equal_points_witness :
  New insertionSort (repeat [1; 1]%Q 4) wp_box
    = Ok ({| n := chain [1; 1]%Q 4 0; Bounds := wp_box |}, repeat [1; 1]%Q 4) /\
  height (chain [1; 1]%Q 4 0) = 4.
Proof.
  apply (New_equal_points insertionSort [1; 1]%Q 4 wp_box).
  - exact insertionSort_contract.
  - simpl. lia.
Defined.

(** ** [nn] and [Nearest]: what a query answers *)

Lemma nn_found (target : Point) (kd : kdNode) :
  forall (hr : HyperRect) (B : dist) (nearest : option Point) (d : dist) (nv : nat),
    nn kd target hr B = Ok (nearest, d, nv) ->
    found kd target nearest d /\ nv <= length (points kd) /\ (kd <> nilNode -> 1 <= nv).
Proof.
  induction kd as [|pivot s l IHl r IHr]; intros hr B nearest d nv H.
  - simpl in H. injection H as <- <- <-. simpl. repeat split; auto. congruence.
  - cbn [nn Copy Min Max app] in H.
    destruct (index pivot s) as [ps| |]; cbn [bind] in H; try discriminate.
    destruct (assign (Max hr) s ps) as [mx| |]; cbn [bind] in H; try discriminate.
    destruct (assign (Min hr) s ps) as [mn| |]; cbn [bind] in H; try discriminate.
    destruct (index target s) as [ts| |]; cbn [bind] in H; try discriminate.
    set (c := Qle_bool ts ps) in *.
    destruct (nn (if c then l else r) target _ B) as [[[n1 d1] nv1]| |] eqn:E1;
      cbn [bind] in H; try discriminate.
    assert (N : found (if c then l else r) target n1 d1 /\
                nv1 <= length (points (if c then l else r))).
    { destruct c; [apply IHl in E1 | apply IHr in E1]; tauto. }
    destruct N as [F1 V1].
    assert (Sz : length (points (Node pivot s l r))
                 = 1 + length (points (if c then l else r))
                   + length (points (if c then r else l))).
    { cbn [points length]. rewrite length_app. destruct c; lia. }
    destruct (dist_ltb (if dist_ltb d1 B then d1 else B) (Fin _)).
    + injection H as <- <- <-. split; [eapply found_near; eauto|].
      split; [lia | intros _; lia].
    + destruct (Sqd pivot target) as [vp| |] eqn:Evp; cbn [bind] in H; try discriminate.
      set (closer := dist_ltb (Fin vp) d1) in *.
      destruct (nn (if c then r else l) target _ _) as [[[n2 d2] nv2]| |] eqn:E2;
        cbn [bind] in H; try discriminate.
      assert (N : found (if c then r else l) target n2 d2 /\
                  nv2 <= length (points (if c then r else l))).
      { destruct c; [apply IHr in E2 | apply IHl in E2]; tauto. }
      destruct N as [F2 V2].
      destruct (dist_ltb d2 (if closer then Fin vp else d1)); injection H as <- <- <-.
      * split; [|split; [lia | intros _; lia]].
        apply found_near with (c := negb c). destruct c; exact F2.
      * split; [|split; [lia | intros _; lia]].
        destruct closer; [now apply found_pivot | eapply found_near; eauto].
Qed.

(** X13.  Whatever the bound and the box, an invocation of [nn] that
    returns answers either no point together with the distance [+Inf], or a
    point stored in the subtree together with exactly the squared distance
    [Sqd] computes from it to the target. *)
Theorem nn_answers_stored (kd : kdNode) (target : Point) (hr : HyperRect) (B : dist)
    (nearest : option Point) (d : dist) (nv : nat) :
  nn kd target hr B = Ok (nearest, d, nv) ->
  match nearest with
  | None => d = Inf
  | Some p => In p (points kd) /\ exists v, Sqd p target = Ok v /\ d = Fin v
  end.
Proof.
  intros H. apply (nn_found target kd hr B nearest d nv H).
Qed.

Lemma nn_answers_stored_witness :
  In [0; 5]%Q (points far_leaf) /\
  exists v, Sqd [0; 5]%Q far_target = Ok v /\ Fin 34 = Fin v.
Proof.
  apply (nn_answers_stored far_leaf far_target wp_box Inf (Some [0; 5]%Q) (Fin 34) 1).
  vm_compute. reflexivity.
Defined.

(** X14.  The number of nodes a query reports as visited is at most the
    number of points of the slice, at least one when the slice is not
    empty, and zero only when it is. *)
Theorem query_visits (sort : nat -> list Point -> list Point)
    (pts : list Point) (bounds : HyperRect) (target : Point)
    (nearest : option Point) (d : dist) (nv : nat) :
  sort_contract sort ->
  query sort pts bounds target = Ok (nearest, d, nv) ->
  nv <= length pts /\ (pts <> [] -> 1 <= nv).
Proof.
  intros Hc H. unfold query, New in H.
  destruct (nk2 sort (length pts) pts 0) as [[kd l]| |] eqn:E; cbn [bind] in H;
    try discriminate.
  unfold Nearest in H. cbn [n Bounds] in H.
  destruct (nk2_size sort (fun s l0 => proj1 (Hc s l0)) _ _ _ _ _ E) as [Sz Nil].
  destruct (nn_found target kd bounds Inf nearest d nv H) as (_ & V & P).
  split; [lia|]. intros Hne. apply P. intros ->. auto.
Qed.

Lemma query_visits_witness : 3 <= length wp_pts /\ (wp_pts <> [] -> 1 <= 3).
Proof.
  apply (query_visits insertionSort wp_pts wp_box wp_target (Some [8; 1]%Q) (Fin 2) 3).
  - exact insertionSort_contract.
  - vm_compute. reflexivity.
Defined.

Lemma Sqd_extra (p q extra : Point) :
  length p <= length q -> Sqd p (q ++ extra) = Sqd p q.
Proof.
  intros H. rewrite !Sqd_closed, length_app. unfold sum_sq.
  replace (length p <=? length q + length extra) with true
    by (symmetry; apply Nat.leb_le; lia).
  replace (length p <=? length q) with true by (symmetry; apply Nat.leb_le; lia).
  f_equal. f_equal.
  revert q H. induction p as [|a p IH]; intros [|b q] H; simpl in *; try lia; auto.
  f_equal. apply IH. lia.
Qed.

Lemma nn_extra (k : nat) (target extra : Point) (kd : kdNode) :
  k <= length target -> dimensioned k kd ->
  forall hr B, nn kd (target ++ extra) hr B = nn kd target hr B.
Proof.
  intros Ht. induction kd as [|pivot s l IHl r IHr]; intros Hd hr B; [reflexivity|].
  destruct Hd as (Lp & Hs & Dl & Dr).
  cbn [nn Copy Min Max app].
  destruct (index pivot s) as [ps| |]; cbn [bind]; try reflexivity.
  destruct (assign (Max hr) s ps) as [mx| |]; cbn [bind]; try reflexivity.
  destruct (assign (Min hr) s ps) as [mn| |]; cbn [bind]; try reflexivity.
  assert (Ei : index (target ++ extra) s = index target s).
  { unfold index. rewrite nth_error_app1 by lia. reflexivity. }
  rewrite Ei. destruct (index target s) as [ts| |]; cbn [bind]; try reflexivity.
  assert (IHn : forall h b, nn (if Qle_bool ts ps then l else r) (target ++ extra) h b
                            = nn (if Qle_bool ts ps then l else r) target h b).
  { intros h b. destruct (Qle_bool ts ps); auto. }
  assert (IHf : forall h b, nn (if Qle_bool ts ps then r else l) (target ++ extra) h b
                            = nn (if Qle_bool ts ps then r else l) target h b).
  { intros h b. destruct (Qle_bool ts ps); auto. }
  rewrite IHn.
  destruct (nn (if Qle_bool ts ps then l else r) target _ B) as [[[n1 d1] nv1]| |];
    cbn [bind]; try reflexivity.
  destruct (dist_ltb _ (Fin _)); [reflexivity|].
  rewrite Sqd_extra by lia.
  destruct (Sqd pivot target) as [vp| |]; cbn [bind]; try reflexivity.
  rewrite IHf. reflexivity.
Qed.

(** X15.  A target with more coordinates than the points of the tree is
    accepted without any error, and its extra coordinates are ignored: the
    query answers what it answers for the target cut to the dimension of
    the points. *)
Theorem target_extra_ignored (sort : nat -> list Point -> list Point) (k : nat)
    (pts : list Point) (bounds : HyperRect) (target extra : Point) :
  sort_contract sort -> 0 < k -> all_dim k pts -> length target = k ->
  query sort pts bounds (target ++ extra) = query sort pts bounds target.
Proof.
  intros Hc Hk Hd Ht.
  destruct (New_spec sort k pts bounds Hc Hk Hd) as (kd & pts' & E & _ & _ & D & _).
  unfold query. rewrite E. cbn [bind]. unfold Nearest. cbn [n Bounds].
  apply nn_extra with k; [lia | exact D].
Qed.

Lemma target_extra_ignored_witness :
  query insertionSort wp_pts wp_box (wp_target ++ [77]%Q)
  = query insertionSort wp_pts wp_box wp_target.
Proof.
  apply (target_extra_ignored insertionSort 2 wp_pts wp_box wp_target [77]%Q).
  - exact insertionSort_contract.
  - lia.
  - repeat constructor.
  - reflexivity.
Defined.

(** X16.  Pruning is sound under any bound: on a tree that keeps the
    partition invariant, every stored point strictly closer to the target
    than the distance [nn] returns lies strictly beyond the bound the
    invocation was given. *)
Theorem pruning_sound (k : nat) (kd : kdNode) (target : Point) (hr : HyperRect)
    (B : dist) (nearest : option Point) (d : dist) (nv : nat)
    (q : Point) (vq : float64) :
  partitioned k kd ->
  nn kd target hr B = Ok (nearest, d, nv) ->
  In q (points kd) -> Sqd q target = Ok vq ->
  dist_le d (Fin vq) \/ dist_ltb B (Fin vq) = true.
Proof.
  intros P H Hq Hv. unfold dist_le.
  destruct (dist_ltb (Fin vq) d) eqn:X; [right | left; reflexivity].
  exact (nn_optimal target k kd P hr B nearest d nv H q vq Hq Hv X).
Qed.

Lemma pruning_sound_witness :
  dist_le Inf (Fin 34) \/ dist_ltb (Fin 1) (Fin 34) = true.
Proof.
  apply (pruning_sound 2 far_leaf far_target wp_box (Fin 1) None Inf 1 [0; 5]%Q 34%Q).
  - simpl. repeat split; constructor.
  - vm_compute. reflexivity.
  - simpl. auto.
  - vm_compute. reflexivity.
Defined.

(** X17.  A query is optimal over the points the tree stores: no stored
    point is strictly closer to the target than the distance returned. *)
Theorem Nearest_optimal_over_stored (sort : nat -> list Point -> list Point) (k : nat)
    (pts : list Point) (bounds : HyperRect) (target : Point) :
  sort_contract sort -> 0 < k -> all_dim k pts ->
  box_covers k bounds -> length target = k ->
  exists t pts' nearest d nv,
    New sort pts bounds = Ok (t, pts') /\
    Nearest t target = Ok (nearest, d, nv) /\
    optimal (points (n t)) target d.
Proof.
  apply stored_optimal.
Qed.

Lemma Nearest_optimal_over_stored_witness :
  exists t pts' nearest d nv,
    New insertionSort tie_pts wp_box = Ok (t, pts') /\
    Nearest t tie_target = Ok (nearest, d, nv) /\
    optimal (points (n t)) tie_target d.
Proof.
  apply (Nearest_optimal_over_stored insertionSort 2 tie_pts wp_box tie_target).
  - exact insertionSort_contract.
  - lia.
  - repeat constructor.
  - split; simpl; lia.
  - reflexivity.
Defined.

(** X18.  When no two points of the slice agree on a coordinate, a query
    is optimal over the slice: no point of the input is strictly closer to
    the target than the distance returned. *)
Theorem Nearest_optimal_without_ties (sort : nat -> list Point -> list Point) (k : nat)
    (pts : list Point) (bounds : HyperRect) (target : Point) :
  sort_contract sort -> 0 < k -> all_dim k pts ->
  box_covers k bounds -> length target = k ->
  (forall s, s < k -> tie_free s pts) ->
  exists nearest d nv,
    query sort pts bounds target = Ok (nearest, d, nv) /\ optimal pts target d.
Proof.
  apply optimal_without_ties.
Qed.

Lemma Nearest_optimal_without_ties_witness :
  exists nearest d nv,
    query insertionSort wp_pts wp_box wp_target = Ok (nearest, d, nv) /\
    optimal wp_pts wp_target d.
Proof.
  apply (Nearest_optimal_without_ties insertionSort 2 wp_pts wp_box wp_target).
  - exact insertionSort_contract.
  - lia.
  - repeat constructor.
  - split; simpl; lia.
  - reflexivity.
  - exact wp_tie_free.
Defined.

(** X19.  The values of the box are never read, but its corners are
    indexed: on a non-empty tree a box with a corner of no coordinates makes
    the query panic at the root, before any point is compared. *)
Theorem empty_corner_panics (sort : nat -> list Point -> list Point) (k : nat)
    (pts : list Point) (bounds : HyperRect) (target : Point) :
  sort_contract sort -> 0 < k -> all_dim k pts -> pts <> [] ->
  Min bounds = [] \/ Max bounds = [] ->
  query sort pts bounds target = Panic.
Proof.
  intros Hc Hk Hd Hne Hb.
  destruct (New_spec sort k pts bounds Hc Hk Hd)
    as (kd & pts' & E & _ & _ & D & _ & R & Hnil & _).
  unfold query. rewrite E. cbn [bind]. unfold Nearest. cbn [n Bounds].
  destruct kd as [|pivot s l r]; [exfalso; auto|].
  simpl in R. subst s. destruct D as (Lp & _).
  cbn [nn Copy Min Max app].
  destruct (index_lt pivot 0) as (ps & ->); [lia|]. cbn [bind].
  destruct Hb as [Hb|Hb]; rewrite Hb.
  - destruct (assign (Max bounds) 0 ps) as [mx| |] eqn:Ex; cbn [bind]; try reflexivity.
    exfalso. eapply assign_fuel; eauto.
  - reflexivity.
Qed.

Lemma empty_corner_panics_witness :
  query insertionSort wp_pts {| Min := []; Max := [10; 10]%Q |} wp_target = Panic.
Proof.
  apply (empty_corner_panics insertionSort 2 wp_pts _ wp_target).
  - exact insertionSort_contract.
  - lia.
  - repeat constructor.
  - discriminate.
  - left. reflexivity.
Defined.

(** ** Reference semantics: [Copy], aliasing and allocation *)

(** X20.  [Copy] is a deep copy.  The box it returns holds the values of
    the original in storage allocated by the call; the memory that existed
    is left as it was; a later store through any slice that existed before
    the copy, the corners of the original among them, does not change the
    copy; and a store through one corner of the copy changes neither its
    other corner nor any slice that existed before. *)
Theorem Copy_is_deep (m : Ref.mem) (hr : Ref.HyperRect) :
  Ref.valid_box m hr ->
  exists c m',
    Ref.Copy hr m = Ok (c, m') /\
    extends m m' /\
    box_of m' c = box_of m hr /\
    (forall p i v m2,
        Ref.valid m p -> Ref.store p i v m' = Ok (tt, m2) ->
        box_of m2 c = box_of m' c) /\
    (forall i v m2,
        Ref.store (Ref.Min c) i v m' = Ok (tt, m2) ->
        Ref.read (Ref.Max c) m2 = Ref.read (Ref.Max c) m' /\
        forall p, Ref.valid m p -> Ref.read p m2 = Ref.read p m') /\
    (forall i v m2,
        Ref.store (Ref.Max c) i v m' = Ok (tt, m2) ->
        Ref.read (Ref.Min c) m2 = Ref.read (Ref.Min c) m' /\
        forall p, Ref.valid m p -> Ref.read p m2 = Ref.read p m').
Proof.
  intros Vb.
  destruct (Copy_spec m hr Vb) as (c & m' & Ec & X & L & Pn & Ln & Px & Lx & Bx).
  exists c, m'. split; [exact Ec|]. split; [exact X|]. split; [exact Bx|].
  assert (Vn : Ref.valid m' (Ref.Min c)) by (unfold Ref.valid; lia).
  assert (Vx : Ref.valid m' (Ref.Max c)) by (unfold Ref.valid; lia).
  split; [|split].
  - intros p i v m2 Vp E.
    pose proof (store_assign m' p i v (valid_extends m m' p X Vp)) as St.
    rewrite E in St. destruct St as (-> & Hi & _).
    unfold Ref.valid in Vp. unfold box_of.
    rewrite !read_poke_other by lia. reflexivity.
  - intros i v m2 E.
    pose proof (store_assign m' (Ref.Min c) i v Vn) as St.
    rewrite E in St. destruct St as (-> & Hi & _). split.
    + apply read_poke_other. lia.
    + intros p Vp. unfold Ref.valid in Vp. apply read_poke_other. lia.
  - intros i v m2 E.
    pose proof (store_assign m' (Ref.Max c) i v Vx) as St.
    rewrite E in St. destruct St as (-> & Hi & _). split.
    + apply read_poke_other. lia.
    + intros p Vp. unfold Ref.valid in Vp. apply read_poke_other. lia.
Qed.

Lemma Copy_is_deep_witness :
  exists c m',
    Ref.Copy ref_box ref_mem = Ok (c, m') /\
    extends ref_mem m' /\
    box_of m' c = box_of ref_mem ref_box.
Proof.
  destruct (Copy_is_deep ref_mem ref_box) as (c & m' & E & X & B & _).
  - split; unfold Ref.valid; simpl; lia.
  - exists c, m'. auto.
Defined.

(** X21.  Aliasing does not change the answer.  Started in a memory where
    the slices of the tree, the target and the box lie, and may overlap one
    another, [nn] under reference semantics returns what [nn] returns on the
    values those slices hold at the call, and panics exactly when it does;
    the point it answers is one of the slices the tree stores, not a copy;
    and the memory it leaves is the one it found followed by new cells. *)
Theorem aliasing_irrelevant (kd : Ref.kdNode) (target : Ref.slice)
    (hr : Ref.HyperRect) (B : dist) (m : Ref.mem) :
  Ref.valid_tree m kd -> Ref.valid m target -> Ref.valid_box m hr ->
  match Ref.nn kd target hr B m with
  | Ok (a, m') =>
      nn (tree_of m kd) (Ref.read target m) (box_of m hr) B = Ok (answer_of m a) /\
      extends m m' /\
      forall p, fst (fst a) = Some p -> In p (pivots kd)
  | Panic => nn (tree_of m kd) (Ref.read target m) (box_of m hr) B = Panic
  | OutOfFuel => False
  end.
Proof.
  intros Vt Vp Vb. exact (nn_refines target kd hr B m Vt Vp Vb).
Qed.

Lemma aliasing_irrelevant_witness :
  match Ref.nn ref_tree ref_target ref_box Inf ref_mem with
  | Ok (a, m') =>
      nn (tree_of ref_mem ref_tree) (Ref.read ref_target ref_mem)
         (box_of ref_mem ref_box) Inf = Ok (answer_of ref_mem a) /\
      extends ref_mem m' /\
      forall p, fst (fst a) = Some p -> In p (pivots ref_tree)
  | Panic => nn (tree_of ref_mem ref_tree) (Ref.read ref_target ref_mem)
                (box_of ref_mem ref_box) Inf = Panic
  | OutOfFuel => False
  end.
Proof.
  apply (aliasing_irrelevant ref_tree ref_target ref_box Inf ref_mem).
  - simpl. unfold Ref.valid. simpl. repeat split; lia.
  - unfold Ref.valid. simpl. lia.
  - split; unfold Ref.valid; simpl; lia.
Defined.

Lemma mbind_inv {A B : Type} (c : Ref.M A) (k : A -> Ref.M B) (m : Ref.mem) r :
  Ref.mbind c k m = Ok r -> exists a m1, c m = Ok (a, m1) /\ k a m1 = Ok r.
Proof.
  unfold Ref.mbind. destruct (c m) as [[a m1]| |]; try discriminate. eauto.
Qed.

Lemma load_mem (p : Ref.slice) (i : nat) (m m' : Ref.mem) (v : float64) :
  Ref.load p i m = Ok (v, m') -> m' = m.
Proof.
  rewrite load_read. destruct (index (Ref.read p m) i); simpl; congruence.
Qed.

Lemma store_mem (p : Ref.slice) (i : nat) (v : float64) (m m' : Ref.mem) (u : unit) :
  Ref.store p i v m = Ok (u, m') -> length m' = length m.
Proof.
  unfold Ref.store. destruct (_ && _); [|discriminate].
  intros E. injection E as _ <-. apply poke_length.
Qed.

Lemma Sqd_from_mem (p q : Ref.slice) :
  forall todo dim sum m v m',
    Ref.Sqd_from todo dim p q sum m = Ok (v, m') -> m' = m.
Proof.
  induction todo as [|todo IH]; intros dim sum m v m' H; cbn [Ref.Sqd_from] in H.
  - unfold Ref.ret in H. congruence.
  - apply mbind_inv in H as (a & m1 & E1 & H). apply load_mem in E1. subst m1.
    apply mbind_inv in H as (b & m2 & E2 & H). apply load_mem in E2. subst m2.
    eapply IH; eauto.
Qed.

Lemma nn_allocation (target : Ref.slice) (kd : Ref.kdNode) :
  forall (hr : Ref.HyperRect) (B : dist) (m : Ref.mem) nearest d nv m',
    Ref.valid_box m hr ->
    Ref.nn kd target hr B m = Ok (nearest, d, nv, m') ->
    length m' = length m + nv * (2 * (Ref.len (Ref.Min hr) + Ref.len (Ref.Max hr))).
Proof.
  induction kd as [|pivot s l IHl r IHr]; intros hr B m nearest d nv m' Vb H.
  - simpl in H. unfold Ref.ret in H. injection H as _ _ <- <-. lia.
  - cbn [Ref.nn] in H.
    destruct (Copy_spec m hr Vb)
      as (leftHr & m1 & Ec1 & X1 & L1 & Pn1 & Ln1 & Px1 & Lx1 & _).
    assert (Vb1 : Ref.valid_box m1 hr)
      by (destruct Vb; split; eapply valid_extends; eauto).
    destruct (Copy_spec m1 hr Vb1)
      as (rightHr & m2 & Ec2 & X2 & L2 & Pn2 & Ln2 & Px2 & Lx2 & _).
    rewrite (mbind_Ok _ _ _ _ _ Ec1), (mbind_Ok _ _ _ _ _ Ec2) in H.
    apply mbind_inv in H as (v1 & m2a & E & H). apply load_mem in E. subst m2a.
    apply mbind_inv in H as (u1 & m3 & E3 & H). apply store_mem in E3.
    apply mbind_inv in H as (v2 & m3a & E & H). apply load_mem in E. subst m3a.
    apply mbind_inv in H as (u2 & m4 & E4 & H). apply store_mem in E4.
    apply mbind_inv in H as (ts & m4a & E & H). apply load_mem in E. subst m4a.
    apply mbind_inv in H as (ps & m4a & E & H). apply load_mem in E. subst m4a.
    set (c := Qle_bool ts ps) in *.
    assert (VL : forall mm, length m4 <= length mm -> Ref.valid_box mm leftHr)
      by (intros mm Hm; split; unfold Ref.valid; lia).
    assert (VR : forall mm, length m4 <= length mm -> Ref.valid_box mm rightHr)
      by (intros mm Hm; split; unfold Ref.valid; lia).
    set (cost := 2 * (Ref.len (Ref.Min hr) + Ref.len (Ref.Max hr))) in *.
    assert (IHn : forall b mm a dd vv mm',
               Ref.valid_box mm (if c then leftHr else rightHr) ->
               Ref.nn (if c then l else r) target (if c then leftHr else rightHr) b mm
               = Ok (a, dd, vv, mm') ->
               length mm' = length mm + vv * cost).
    { intros b mm a dd vv mm' V E. subst cost.
      destruct c; [apply IHl in E | apply IHr in E]; auto; rewrite E; f_equal; f_equal; lia. }
    assert (IHf : forall b mm a dd vv mm',
               Ref.valid_box mm (if c then rightHr else leftHr) ->
               Ref.nn (if c then r else l) target (if c then rightHr else leftHr) b mm
               = Ok (a, dd, vv, mm') ->
               length mm' = length mm + vv * cost).
    { intros b mm a dd vv mm' V E. subst cost.
      destruct c; [apply IHr in E | apply IHl in E]; auto; rewrite E; f_equal; f_equal; lia. }
    apply mbind_inv in H as ([[n1 d1] nv1] & m5 & E5 & H).
    apply IHn in E5; [| destruct c; [apply VL | apply VR]; lia].
    apply mbind_inv in H as (ps' & m5a & E & H). apply load_mem in E. subst m5a.
    apply mbind_inv in H as (ts' & m5a & E & H). apply load_mem in E. subst m5a.
    destruct (dist_ltb _ (Fin _)).
    { unfold Ref.ret in H. injection H as _ _ <- <-. subst cost. lia. }
    apply mbind_inv in H as (vp & m5a & E & H).
    apply Sqd_from_mem in E. subst m5a.
    apply mbind_inv in H as ([[n2 d2] nv2] & m6 & E6 & H).
    apply IHf in E6; [| destruct c; [apply VR | apply VL]; lia].
    destruct (dist_ltb d2 _); unfold Ref.ret in H; injection H as _ _ <- <-;
      subst cost; lia.
Qed.

(** X22.  A query allocates two copies of the box at every node it visits
    and nothing else: when [nn] returns after [nv] visits, the memory has
    grown by [nv] times twice the number of coordinates of the two corners. *)
Theorem nn_allocates (kd : Ref.kdNode) (target : Ref.slice) (hr : Ref.HyperRect)
    (B : dist) (m : Ref.mem) (nearest : option Ref.slice) (d : dist) (nv : nat)
    (m' : Ref.mem) :
  Ref.valid_box m hr ->
  Ref.nn kd target hr B m = Ok (nearest, d, nv, m') ->
  length m' = length m + nv * (2 * (Ref.len (Ref.Min hr) + Ref.len (Ref.Max hr))).
Proof.
  apply nn_allocation.
Qed.

Lemma nn_allocates_witness :
  exists nearest d nv m',
    Ref.nn ref_tree ref_target ref_box Inf ref_mem = Ok (nearest, d, nv, m') /\
    length m' = length ref_mem
                + nv * (2 * (Ref.len (Ref.Min ref_box) + Ref.len (Ref.Max ref_box))).
Proof.
  destruct (Ref.nn ref_tree ref_target ref_box Inf ref_mem)
    as [[[[nearest d] nv] m']| |] eqn:E.
  - exists nearest, d, nv, m'. split; [reflexivity|].
    apply (nn_allocates ref_tree ref_target ref_box Inf ref_mem nearest d nv m'); [|exact E].
    split; unfold Ref.valid; simpl; lia.
  - vm_compute in E. discriminate.
  - vm_compute in E. discriminate.
Defined.

(** ** [New]: where ties go *)

Lemma nk2_left_heavy (sort : nat -> list Point -> list Point) :
  (forall s l, Permutation (sort s l) l) ->
  forall (fuel : nat) (exset : list Point) (split : nat) kd pts',
    nk2 sort fuel exset split = Ok (kd, pts') -> left_heavy kd.
Proof.
  intros Hp. induction fuel as [|fuel IH]; intros exset split kd pts' H.
  - destruct exset; simpl in H; [|discriminate]. injection H as <- <-. exact I.
  - destruct exset as [|p0 tl]; cbn [nk2] in H.
    { injection H as <- <-. exact I. }
    set (exset := p0 :: tl) in *.
    destruct (negb (Less_defined split exset)); [discriminate|].
    assert (Len : length (sort split exset) = length exset)
      by (apply Permutation_length, Hp).
    set (sorted := sort split exset) in *.
    destruct (index sorted _) as [d| |]; cbn [bind] in H; try discriminate.
    destruct (advance _ split d _) as [m| |] eqn:Ea; cbn [bind] in H; try discriminate.
    apply advance_range in Ea. rewrite length_skipn in Ea.
    assert (Hm0 : length sorted / 2 < length sorted).
    { apply Nat.div_lt; [|lia]. rewrite Len. simpl. lia. }
    destruct (nk2 sort fuel (firstn m sorted) _) as [[l lpts]| |] eqn:El;
      cbn [bind] in H; try discriminate.
    destruct (nk2 sort fuel (skipn (m + 1) sorted) _) as [[r rpts]| |] eqn:Er;
      cbn [bind] in H; try discriminate.
    injection H as <- <-.
    pose proof (proj1 (nk2_size sort Hp _ _ _ _ _ El)) as Sl.
    pose proof (proj1 (nk2_size sort Hp _ _ _ _ _ Er)) as Sr.
    rewrite length_firstn in Sl. rewrite length_skipn in Sr.
    cbn [left_heavy]. split; [|split; eauto].
    rewrite Sl, Sr.
    pose proof (Nat.mul_succ_div_gt (length sorted) 2). lia.
Qed.

(** X23.  Ties only ever skew the tree to the left: at every node of the
    tree [New] returns, the right subtree holds no more points than the
    left one. *)
Theorem New_left_heavy (sort : nat -> list Point -> list Point)
    (pts : list Point) (bounds : HyperRect) (t : KdTree) (pts' : list Point) :
  sort_contract sort ->
  New sort pts bounds = Ok (t, pts') -> left_heavy (n t).
Proof.
  intros Hc H. unfold New in H.
  destruct (nk2 sort (length pts) pts 0) as [[kd l]| |] eqn:E; cbn [bind] in H;
    try discriminate.
  injection H as <- <-. cbn [n].
  eapply nk2_left_heavy; [|exact E]. intros s l0. apply Hc.
Qed.

Lemma New_left_heavy_witness :
  exists t pts', New insertionSort tie_pts wp_box = Ok (t, pts') /\ left_heavy (n t).
Proof.
  destruct (New insertionSort tie_pts wp_box) as [[t pts']| |] eqn:E.
  - exists t, pts'. split; [reflexivity|].
    apply (New_left_heavy insertionSort tie_pts wp_box t pts' insertionSort_contract E).
  - vm_compute in E. discriminate.
  - vm_compute in E. discriminate.
Defined.

Lemma advance_stop (split : nat) (d : Point) (rest : list Point) :
  forall m0 j x,
    advance rest split d m0 = Ok (m0 + j) -> nth_error rest j = Some x ->
    Qeq_bool (key split x) (key split d) = false.
Proof.
  induction rest as [|next rest IH]; intros m0 j x H Hx.
  - destruct j; discriminate.
  - simpl in H.
    destruct (index next split) as [v| |] eqn:Ev; cbn [bind] in H; try discriminate.
    destruct (index d split) as [dv| |] eqn:Edv; cbn [bind] in H; try discriminate.
    destruct (Qeq_bool v dv) eqn:Q.
    + destruct j as [|j].
      * apply advance_range in H. lia.
      * simpl in Hx. apply (IH (S m0) j x); [|exact Hx].
        rewrite H. f_equal. lia.
    + injection H as H. assert (j = 0) by lia. subst j.
      simpl in Hx. injection Hx as <-.
      now rewrite (index_key _ _ _ Ev), (index_key _ _ _ Edv).
Qed.

Lemma StronglySorted_app_r {A : Type} (R : A -> A -> Prop) (l1 l2 : list A) :
  StronglySorted R (l1 ++ l2) -> StronglySorted R l2.
Proof.
  induction l1 as [|a l1 IH]; simpl; [auto|].
  intros H. apply StronglySorted_inv in H as [H _]. auto.
Qed.

Lemma coord_lt_key (k s : nat) (p q : Point) :
  s < k -> length p = k -> length q = k ->
  (key s p < key s q)%Q -> coord_lt s p q.
Proof.
  intros Hs Lp Lq H.
  destruct (index_lt p s) as (a & Ea); [lia|].
  destruct (index_lt q s) as (b & Eb); [lia|].
  exists a, b. split; [now apply index_Ok|]. split; [now apply index_Ok|].
  rewrite <- (index_key _ _ _ Ea), <- (index_key _ _ _ Eb). exact H.
Qed.

Lemma beyond_the_cut (s : nat) (l : list Point) (m0 j : nat) (d q : Point) :
  sorted_on s l -> nth_error l m0 = Some d ->
  advance (skipn (m0 + 1) l) s d m0 = Ok (m0 + j) ->
  In q (skipn (m0 + j + 1) l) -> (key s d < key s q)%Q.
Proof.
  intros Hs Hd Ha Hq.
  apply nth_error_split in Hd as (A & R & -> & <-).
  replace (length A + 1) with (length A + 0 + 1) in Ha by lia.
  rewrite skipn_mid in Ha. simpl in Ha.
  rewrite skipn_mid in Hq.
  destruct (sorted_before s A R d Hs) as [_ HR]. rewrite Forall_forall in HR.
  unfold sorted_on in Hs. apply StronglySorted_app_r in Hs.
  apply StronglySorted_inv in Hs as [SR _].
  rewrite <- (firstn_skipn j R) in SR. apply StronglySorted_app_r in SR.
  destruct (skipn j R) as [|x rest] eqn:E; [contradiction|].
  assert (Nx : nth_error R j = Some x).
  { rewrite <- (Nat.add_0_r j), <- nth_error_skipn, E. reflexivity. }
  pose proof (advance_stop s d R (length A) j x Ha Nx) as Ne.
  assert (Hx : (key s d < key s x)%Q).
  { assert (In x R) by (eapply nth_error_In; eauto).
    pose proof (HR x H) as Le.
    destruct (Qeq_dec (key s x) (key s d)) as [Eq|Nq].
    - apply Qeq_bool_iff in Eq. congruence.
    - apply Qle_lteq in Le as [Lt|Eq]; [exact Lt|]. exfalso. apply Nq. now symmetry. }
  destruct Hq as [<-|Hq]; [exact Hx|].
  apply StronglySorted_inv in SR as [_ Fx]. rewrite Forall_forall in Fx.
  pose proof (Fx q Hq). simpl in H. lra.
Qed.

Lemma nk2_right_strict (sort : nat -> list Point -> list Point) (k : nat) :
  sort_contract sort ->
  forall (fuel : nat) (exset : list Point) (split : nat) kd pts',
    all_dim k exset -> split < k -> length exset <= fuel ->
    nk2 sort fuel exset split = Ok (kd, pts') -> right_strict kd.
Proof.
  intros Hc. induction fuel as [|fuel IH]; intros exset split kd pts' Hd Hs Hf H.
  - destruct exset; simpl in H; [|discriminate]. injection H as <- <-. exact I.
  - destruct exset as [|p0 tl]; cbn [nk2] in H.
    { injection H as <- <-. exact I. }
    set (exset := p0 :: tl) in *.
    destruct (negb (Less_defined split exset)); [discriminate|].
    destruct (Hc split exset) as [Perm Srt].
    assert (Hlt : Forall (fun p => split < length p) exset).
    { eapply Forall_impl; [|exact Hd]. simpl. intros; lia. }
    specialize (Srt Hlt).
    assert (Len : length (sort split exset) = length exset)
      by (apply Permutation_length, Perm).
    assert (Ds : all_dim k (sort split exset)).
    { eapply all_dim_incl; [|exact Hd]. intros q Hq. eapply Permutation_in; eauto. }
    set (sorted := sort split exset) in *. clearbody sorted.
    assert (Hm0 : length sorted / 2 < length sorted).
    { apply Nat.div_lt; [|lia]. rewrite Len. simpl. lia. }
    set (m0 := length sorted / 2) in *.
    destruct (index sorted m0) as [d| |] eqn:Ed; cbn [bind] in H; try discriminate.
    apply index_Ok in Ed.
    assert (Ld : length d = k).
    { eapply all_dim_In; [exact Ds|]. eapply nth_error_In; eauto. }
    destruct (advance _ split d m0) as [m| |] eqn:Ea; cbn [bind] in H; try discriminate.
    pose proof (advance_range _ _ _ _ _ Ea) as Rg. rewrite length_skipn in Rg.
    replace m with (m0 + (m - m0)) in Ea by lia.
    rewrite Ld in H. destruct (next_split k split Hs) as [E2 Hs2]. rewrite E2 in H.
    assert (Dl : all_dim k (firstn m sorted)).
    { eapply all_dim_incl; [|exact Ds]. intros q. apply In_firstn. }
    assert (Dr : all_dim k (skipn (m + 1) sorted)).
    { eapply all_dim_incl; [|exact Ds]. intros q. apply In_skipn. }
    destruct (nk2 sort fuel (firstn m sorted) _) as [[l lpts]| |] eqn:El;
      cbn [bind] in H; try discriminate.
    destruct (nk2 sort fuel (skipn (m + 1) sorted) _) as [[r rpts]| |] eqn:Er;
      cbn [bind] in H; try discriminate.
    injection H as <- <-.
    assert (Fl : length (firstn m sorted) <= fuel) by (rewrite length_firstn; lia).
    assert (Fr : length (skipn (m + 1) sorted) <= fuel) by (rewrite length_skipn; lia).
    cbn [right_strict]. split; [|split; eauto].
    destruct (nk2_spec sort Hc k fuel _ _ Dr Hs2 Fr) as (r' & rpts' & Er' & _ & Ir & _).
    assert (r' = r) by congruence. subst r'.
    apply Forall_forall. intros q Hq. apply Ir in Hq.
    apply coord_lt_key with k; auto.
    + eapply all_dim_In; [exact Dr | exact Hq].
    + apply (beyond_the_cut split sorted m0 (m - m0) d q Srt Ed Ea).
      replace (m0 + (m - m0) + 1) with (m + 1) by lia. exact Hq.
Qed.

(** X24.  Points that share the pivot's coordinate go to the left: at
    every node of the tree built from points of dimension [k], every point
    stored in the right subtree has a coordinate along the split strictly
    greater than the pivot's. *)
Theorem New_right_strict (sort : nat -> list Point -> list Point) (k : nat)
    (pts : list Point) (bounds : HyperRect) :
  sort_contract sort -> 0 < k -> all_dim k pts ->
  exists t pts', New sort pts bounds = Ok (t, pts') /\ right_strict (n t).
Proof.
  intros Hc Hk Hd.
  destruct (New_spec sort k pts bounds Hc Hk Hd) as (kd & pts' & E & _).
  exists {| n := kd; Bounds := bounds |}, pts'. split; [exact E|]. cbn [n].
  unfold New in E.
  destruct (nk2 sort (length pts) pts 0) as [[kd' l]| |] eqn:E'; cbn [bind] in E;
    try discriminate.
  injection E as -> _.
  exact (nk2_right_strict sort k Hc _ _ _ _ _ Hd Hk (le_n _) E').
Qed.

Lemma New_right_strict_witness :
  exists t pts', New insertionSort tie_pts wp_box = Ok (t, pts') /\ right_strict (n t).
Proof.
  apply (New_right_strict insertionSort 2 tie_pts wp_box).
  - exact insertionSort_contract.
  - lia.
  - repeat constructor.
Defined.

(** ** [New]: the input order does not matter without ties *)

Lemma nk2_input_order (sort : nat -> list Point -> list Point) (k : nat) (U : list Point) :
  sort_contract sort ->
  all_dim k U -> (forall s, s < k -> distinct_keys s U = true) ->
  forall (fuel : nat) (e1 e2 : list Point) (split : nat),
    incl e1 U -> Permutation e1 e2 -> split < k ->
    nk2 sort fuel e1 split = nk2 sort fuel e2 split.
Proof.
  intros Hc HU Hd fuel e1 e2 split Hi P Hs.
  assert (Hi2 : incl e2 U).
  { intros q Hq. apply Hi. eapply Permutation_in; [symmetry; exact P | exact Hq]. }
  assert (L1 : Forall (fun p => split < length p) e1).
  { apply Forall_forall. intros p Hp. rewrite (all_dim_In k U p HU (Hi p Hp)). exact Hs. }
  assert (L2 : Forall (fun p => split < length p) e2).
  { apply Forall_forall. intros p Hp. rewrite (all_dim_In k U p HU (Hi2 p Hp)). exact Hs. }
  assert (E : sort split e1 = sort split e2).
  { destruct (Hc split e1) as [P1 S1], (Hc split e2) as [P2 S2].
    apply sorted_perm_unique with split; auto.
    - rewrite P1, P. symmetry. exact P2.
    - intros x y Hx Hy. apply (distinct_keys_inj split U (Hd split Hs)); apply Hi.
      + eapply Permutation_in; [exact P1 | exact Hx].
      + eapply Permutation_in; [exact P1 | exact Hy]. }
  destruct e1 as [|a e1], e2 as [|b e2].
  - reflexivity.
  - apply Permutation_nil in P. discriminate.
  - apply Permutation_sym, Permutation_nil in P. discriminate.
  - destruct fuel as [|fuel]; [reflexivity|].
    cbn [nk2]. rewrite E.
    rewrite (Less_defined_dim k split (a :: e1)), (Less_defined_dim k split (b :: e2)); auto.
    + eapply all_dim_incl; [exact Hi2 | exact HU].
    + eapply all_dim_incl; [exact Hi | exact HU].
Qed.

(** X25.  When no two input points share a coordinate, [New] builds the
    same tree, and leaves the caller's slice with the same contents,
    whatever the order of the input and whichever sorting algorithm is
    used. *)
Theorem New_order_independent (sort1 sort2 : nat -> list Point -> list Point) (k : nat)
    (pts pts2 : list Point) (bounds : HyperRect) :
  sort_contract sort1 -> sort_contract sort2 ->
  0 < k -> all_dim k pts ->
  (forall s, s < k -> distinct_keys s pts = true) ->
  Permutation pts pts2 ->
  New sort1 pts bounds = New sort2 pts2 bounds.
Proof.
  intros C1 C2 Hk HU Hd P. unfold New.
  rewrite <- (Permutation_length P).
  rewrite (nk2_input_order sort1 k pts C1 HU Hd (length pts) pts pts2 0
             (incl_refl _) P Hk).
  assert (Hi2 : incl pts2 pts).
  { intros q Hq. eapply Permutation_in; [symmetry; exact P | exact Hq]. }
  rewrite (nk2_unique sort1 sort2 k pts C1 C2 HU Hd (length pts) pts2 0 Hi2 Hk).
  reflexivity.
Qed.

Lemma New_order_independent_witness :
  New insertionSort wp_pts wp_box = New insertionSort (rev wp_pts) wp_box.
Proof.
  apply (New_order_independent insertionSort insertionSort 2 wp_pts (rev wp_pts) wp_box).
  - exact insertionSort_contract.
  - exact insertionSort_contract.
  - lia.
  - repeat constructor.
  - intros s Hs. destruct s as [|[|s]]; [reflexivity | reflexivity | lia].
  - apply Permutation_rev.
Defined.

(** ** The random points of the tests *)

Lemma assign_app (pre rest : Point) (x v : float64) :
  assign (pre ++ x :: rest) (length pre) v = Ok (pre ++ v :: rest).
Proof.
  induction pre as [|h pre IH]; simpl; [reflexivity|]. rewrite IH. reflexivity.
Qed.

Lemma put_app (pre rest : list Point) (x v : Point) :
  put (pre ++ x :: rest) (length pre) v = Ok (pre ++ v :: rest).
Proof.
  induction pre as [|h pre IH]; simpl; [reflexivity|]. rewrite IH. reflexivity.
Qed.

Lemma randomPt_loop_closed (src : nat -> float64) :
  forall (todo : nat) (pre rest : Point) (pos : nat),
    todo <= length rest ->
    randomPt_loop todo (length pre) (pre ++ rest) src pos =
    Ok (pre ++ map (fun j => src (pos + j)) (seq 0 todo) ++ skipn todo rest, pos + todo).
Proof.
  induction todo as [|todo IH]; intros pre rest pos H.
  - simpl. rewrite Nat.add_0_r. reflexivity.
  - destruct rest as [|x rest]; simpl in H; [lia|].
    cbn [randomPt_loop]. rewrite assign_app. cbn [bind].
    replace (pre ++ src pos :: rest) with ((pre ++ [src pos]) ++ rest)
      by (rewrite <- app_assoc; reflexivity).
    replace (S (length pre)) with (length (pre ++ [src pos]))
      by (rewrite length_app; simpl; lia).
    rewrite IH by lia. rewrite <- app_assoc.
    cbn [seq map skipn app]. rewrite Nat.add_0_r.
    rewrite <- seq_shift, map_map.
    rewrite (map_ext (fun j => src (S pos + j)) (fun j => src (pos + S j)))
      by (intros j; f_equal; lia).
    replace (S pos + todo) with (pos + S todo) by lia. reflexivity.
Qed.

Lemma randomPt_closed (dim : nat) (src : nat -> float64) (pos : nat) :
  randomPt dim src pos = Ok (map (fun j => src (pos + j)) (seq 0 dim), pos + dim).
Proof.
  unfold randomPt.
  pose proof (randomPt_loop_closed src dim [] (repeat 0%Q dim) pos) as H.
  cbn [length app] in H. rewrite H by (rewrite repeat_length; lia).
  rewrite skipn_all2 by (rewrite repeat_length; lia).
  rewrite app_nil_r. reflexivity.
Qed.

Lemma randomPts_loop_closed (dim : nat) (src : nat -> float64) :
  forall (todo : nat) (pre rest : list Point) (pos : nat),
    todo <= length rest ->
    randomPts_loop dim todo (length pre) (pre ++ rest) src pos =
    Ok (pre ++ map (fun i => map (fun j => src (pos + i * dim + j)) (seq 0 dim))
                   (seq 0 todo) ++ skipn todo rest,
        pos + todo * dim).
Proof.
  induction todo as [|todo IH]; intros pre rest pos H.
  - simpl. rewrite Nat.add_0_r. reflexivity.
  - destruct rest as [|x rest]; simpl in H; [lia|].
    cbn [randomPts_loop]. rewrite randomPt_closed. cbn [bind].
    rewrite put_app. cbn [bind].
    set (row := map (fun j => src (pos + j)) (seq 0 dim)).
    assert (IHx := IH (pre ++ [row]) rest (pos + dim)).
    rewrite length_app, <- !app_assoc in IHx. cbn [length app] in IHx.
    rewrite Nat.add_1_r in IHx.
    etransitivity; [apply IHx; lia|].
    cbn [seq map skipn].
    rewrite <- seq_shift, map_map.
    rewrite (map_ext (fun i => map (fun j => src (pos + dim + i * dim + j)) (seq 0 dim))
                     (fun i => map (fun j => src (pos + S i * dim + j)) (seq 0 dim)))
      by (intros i; apply map_ext; intros j; f_equal; lia).
    replace (pos + dim + todo * dim) with (pos + S todo * dim) by lia.
    unfold row.
    rewrite (map_ext (fun j => src (pos + j)) (fun j => src (pos + 0 * dim + j)))
      by (intros j; f_equal; lia).
    reflexivity.
Qed.

(** X26.  [randomPts(dim, n)] never panics: it returns [n] points of [dim]
    coordinates each, filled row by row with the successive draws of the
    source, and it consumes exactly [n * dim] draws. *)
Theorem randomPts_closed (dim count : nat) (src : nat -> float64) (pos : nat) :
  randomPts dim count src pos =
  Ok (map (fun i => map (fun j => src (pos + i * dim + j)) (seq 0 dim)) (seq 0 count),
      pos + count * dim).
Proof.
  unfold randomPts.
  pose proof (randomPts_loop_closed dim src count [] (repeat [] count) pos) as H.
  cbn [length app] in H. rewrite H by (rewrite repeat_length; lia).
  rewrite skipn_all2 by (rewrite repeat_length; lia).
  rewrite app_nil_r. reflexivity.
Qed.

Lemma random_all_dim (dim count : nat) (src : nat -> float64) (pos : nat) :
  all_dim dim
    (map (fun i => map (fun j => src (pos + i * dim + j)) (seq 0 dim)) (seq 0 count)).
Proof.
  apply Forall_forall. intros p Hp. apply in_map_iff in Hp as (i & <- & _).
  rewrite length_map, length_seq. reflexivity.
Qed.

Lemma New_size (sort : nat -> list Point -> list Point)
    (l : list Point) (bounds : HyperRect) (t : KdTree) (l' : list Point) :
  sort_contract sort ->
  New sort l bounds = Ok (t, l') -> length (points (n t)) <= length l.
Proof.
  intros Hc E. unfold New in E.
  destruct (nk2 sort (length l) l 0) as [[kd' l0]| |] eqn:E'; cbn [bind] in E;
    try discriminate.
  injection E as <- _. cbn [n].
  destruct (nk2_size sort (fun s l1 => proj1 (Hc s l1)) _ _ _ _ _ E') as [Sz _].
  lia.
Qed.

Lemma Qsq_le_one (d : Q) : (-1 <= d)%Q -> (d <= 1)%Q -> (d * d <= 1)%Q.
Proof.
  intros H1 H2.
  assert (H : (0 <= (1 - d) * (1 + d))%Q) by (apply Qmult_le_0_compat; lra).
  assert (E : ((1 - d) * (1 + d) == 1 - d * d)%Q) by ring.
  lra.
Qed.

Lemma Sqd_from_unit (p : Point) :
  forall (dim : nat) (q : Point) (sum v : float64),
    unit_range p -> unit_range q ->
    Sqd_from p dim q sum = Ok v ->
    (v <= sum + inject_Z (Z.of_nat (length p)))%Q.
Proof.
  induction p as [|x p IH]; intros dim q sum v Up Uq H.
  - simpl in H. injection H as ->. change (v <= v + 0)%Q. lra.
  - simpl in H. destruct (index q dim) as [y| |] eqn:Ey; cbn [bind] in H; try discriminate.
    apply index_Ok in Ey. apply nth_error_In in Ey.
    unfold unit_range in Up, Uq. rewrite Forall_forall in Uq.
    destruct (Uq y Ey) as [Y0 Y1].
    apply Forall_cons_iff in Up as [[X0 X1] Up].
    pose proof (IH _ _ _ _ Up (proj2 (Forall_forall _ _) Uq) H) as B.
    assert (S1 : ((x - y) * (x - y) <= 1)%Q) by (apply Qsq_le_one; lra).
    cbn [length]. rewrite Znat.Nat2Z.inj_succ, <- Z.add_1_r, inject_Z_plus.
    change (inject_Z 1) with 1%Q. lra.
Qed.

Lemma random_unit_range (src : nat -> float64) (f : nat -> nat) (dim : nat) :
  (forall i, (0 <= src i)%Q /\ (src i < 1)%Q) ->
  unit_range (map (fun j => src (f j)) (seq 0 dim)).
Proof.
  intros U. apply Forall_forall. intros x Hx.
  apply in_map_iff in Hx as (j & <- & _). apply U.
Qed.

(** X27.  [TestRandom3D] cannot fail before or at its consistency check.
    For draws in the half-open interval [[0, 1)], as [rand.Float64] gives
    them, a positive dimension and count and a box of that dimension: the
    build and the search return, the answer is one of the generated
    points, [p.Sqd(nn)] agrees with the reported distance, which is at most
    the dimension, and the search visits at least one and at most [count]
    nodes.  (The bound of 500 the test then puts on the number of visits is
    not implied: a source that repeats itself makes the search visit every
    node.) *)
Theorem random_query_consistent (sort : nat -> list Point -> list Point)
    (dim count : nat) (bounds : HyperRect) (src : nat -> float64) (pos : nat) :
  sort_contract sort -> 0 < dim -> 0 < count -> box_covers dim bounds ->
  (forall i, (0 <= src i)%Q /\ (src i < 1)%Q) ->
  exists p rpts pos1 nearest ssq nv,
    randomPts dim count src pos = Ok (rpts, pos1) /\
    random_query sort dim count bounds src pos =
      Ok ((p, (Some nearest, Fin ssq, nv)), pos + count * dim + dim) /\
    In nearest rpts /\
    (exists v, Sqd p nearest = Ok v /\ (v == ssq)%Q) /\
    (ssq <= inject_Z (Z.of_nat dim))%Q /\
    1 <= nv <= count.
Proof.
  intros Hc Hdim Hcount Hb Hu.
  set (rpts := map (fun i => map (fun j => src (pos + i * dim + j)) (seq 0 dim))
                   (seq 0 count)).
  set (p := map (fun j => src (pos + count * dim + j)) (seq 0 dim)).
  assert (Hd : all_dim dim rpts) by apply random_all_dim.
  assert (Lpts : length rpts = count) by (unfold rpts; now rewrite length_map, length_seq).
  assert (Lp : length p = dim) by (unfold p; now rewrite length_map, length_seq).
  destruct (New_spec sort dim rpts bounds Hc Hdim Hd)
    as (kd & pts' & E & _ & I & D & _ & _ & Hnil & _).
  destruct (nn_spec dim p kd (Nat.eq_le_incl _ _ (eq_sym Lp)) bounds Inf D Hb)
    as (nearest & d & nv & En & F & Hinf).
  assert (Hne : kd <> nilNode).
  { intros ->. specialize (Hnil eq_refl). rewrite Hnil in Lpts. simpl in Lpts. lia. }
  assert (d <> Inf) by (apply Hinf; auto).
  destruct nearest as [q|]; [|simpl in F; contradiction].
  destruct F as (Hq & v & Ev & ->).
  assert (Lq : length q = dim) by (eapply all_dim_In; [exact Hd | auto]).
  exists p, rpts, (pos + count * dim), q, v, nv.
  split; [apply randomPts_closed|].
  split.
  { unfold random_query. rewrite randomPts_closed. cbn [bind]. fold rpts.
    rewrite E. cbn [bind]. rewrite randomPt_closed. cbn [bind]. fold p.
    unfold Nearest. cbn [n Bounds]. rewrite En. reflexivity. }
  split; [auto|]. split; [|split].
  - assert (Lpq : length p = length q) by congruence.
    destruct (Sqd_sym p q Lpq) as (v1 & v2 & E1 & E2 & Ev12).
    exists v1. split; [exact E1|]. rewrite Ev12. replace v with v2 by congruence.
    reflexivity.
  - assert (Uq : unit_range q).
    { apply I in Hq. unfold rpts in Hq. apply in_map_iff in Hq as (i & <- & _).
      exact (random_unit_range src (fun j => pos + i * dim + j) dim Hu). }
    assert (Up : unit_range p)
      by exact (random_unit_range src (fun j => pos + count * dim + j) dim Hu).
    pose proof (Sqd_from_unit q 0 p 0%Q v Uq Up Ev) as B.
    rewrite Lq in B. lra.
  - destruct (nn_found p kd bounds Inf (Some q) (Fin v) nv En) as (_ & V & P).
    split; [auto|].
    pose proof (New_size sort rpts bounds _ _ Hc E) as Sz. cbn [n] in Sz.
    eapply Nat.le_trans; [exact V|]. eapply Nat.le_trans; [exact Sz|].
    exact (Nat.eq_le_incl _ _ Lpts).
Qed.

Lemma random_query_consistent_witness :
  exists p rpts pos1 nearest ssq nv,
    randomPts 2 3 (fun i => if i mod 3 =? 0 then 0 else if i mod 3 =? 1 then 1 # 2 else 1 # 4)%Q 0
      = Ok (rpts, pos1) /\
    random_query insertionSort 2 3 wp_box
      (fun i => if i mod 3 =? 0 then 0 else if i mod 3 =? 1 then 1 # 2 else 1 # 4)%Q 0 =
      Ok ((p, (Some nearest, Fin ssq, nv)), 0 + 3 * 2 + 2) /\
    In nearest rpts /\
    (exists v, Sqd p nearest = Ok v /\ (v == ssq)%Q) /\
    (ssq <= inject_Z (Z.of_nat 2))%Q /\
    1 <= nv <= 3.
Proof.
  apply (random_query_consistent insertionSort 2 3 wp_box
           (fun i => if i mod 3 =? 0 then 0 else if i mod 3 =? 1 then 1 # 2 else 1 # 4)%Q 0).
  - exact insertionSort_contract.
  - lia.
  - lia.
  - split; simpl; lia.
  - intros i. destruct (i mod 3 =? 0); [|destruct (i mod 3 =? 1)]; split; lra.
Defined.
